(** * i18n-cli: the translation synchronisation engine

    A shallow embedding of the Go sources of the [translate] command
    (functions [single_process], [batch_process], [findMissingKeys]) and of
    the [gpt] handler (methods [Translate], [BatchTranslate]), with the
    properties of the specification proved or refuted on it; and of the
    directory scanner ([ScanDirectory], [GetPairs], [FindMissingPairs]), the
    selection and the counters of the [sync] and [status] commands, and the
    configuration file ([LoadConfig], [SaveConfig], [CreateDefaultConfig]),
    with further properties of the code.

    Conventions.
    - A Go [string] is a [string] of bytes; a Go [map[string]string] is a
      [gmap string string]; a Go [int] is a [Z].
    - A Go pair [(value, error)] is a pair whose second component is an
      [option error] ([None] is [nil]).
    - A run-time panic (index out of range) is the [None] of an [option].
    - The order in which [range] visits a map is not fixed by Go: the key
      loops take the visiting order as an argument.  The loops that find
      and initialise the missing keys give the same result in any order
      (lemmas [findMissingKeys_order] and [init_missing_order]). *)

From Stdlib Require Import ZArith Ascii String List Lia.
From stdpp Require Import gmap strings list fin_maps fin_sets.

Open Scope string_scope.

(** ** Go values shared by both packages *)

(** Go [error] values, as far as the program inspects them. *)
Inductive error : Type :=
| errorString (msg : string)
    (* errors.New(msg), or fmt.Errorf without the w verb *)
| wrapError (msg : string) (cause : error)
    (* fmt.Errorf(msg + ": %w", cause) *)
| wrapNil (msg : string)
    (* fmt.Errorf(msg + ": %w", nil) *)
| transportError (status : option Z) (deadline : bool) (text : string).
    (* an error of the HTTP client: [status] is the HTTPStatusCode when the
       error is an APIError, [deadline] tells whether it is
       context.DeadlineExceeded, [text] is err.Error() *)

(** [fmt.Errorf(msg + ": %w", cause)] for a cause that can be nil. *)
Definition Errorf_w (msg : string) (cause : option error) : error :=
  match cause with
  | Some c => wrapError msg c
  | None => wrapNil msg
  end.

(** [errors.Unwrap]. *)
Definition Unwrap (e : error) : option error :=
  match e with
  | wrapError _ cause => Some cause
  | _ => None
  end.

(** [err.Error()]. *)
Fixpoint Error (e : error) : string :=
  match e with
  | errorString msg => msg
  | wrapError msg cause => msg ++ ": " ++ Error cause
  | wrapNil msg => msg ++ ": %!w(<nil>)"
  | transportError _ _ text => text
  end.

(** [errors.As(err, &apiErr)], giving [apiErr.HTTPStatusCode]. *)
Fixpoint As_APIError (e : error) : option Z :=
  match e with
  | transportError status _ _ => status
  | wrapError _ cause => As_APIError cause
  | _ => None
  end.

(** [errors.Is(err, context.DeadlineExceeded)]. *)
Fixpoint Is_DeadlineExceeded (e : error) : bool :=
  match e with
  | transportError _ deadline _ => deadline
  | wrapError _ cause => Is_DeadlineExceeded cause
  | _ => false
  end.

Module strings.

Definition nl : string := String (ascii_of_nat 10) EmptyString.

Definition len (s : string) : Z := Z.of_nat (String.length s).

(** [strings.HasPrefix]. *)
Definition HasPrefix (s p : string) : bool := String.prefix p s.

(** [strings.HasSuffix]:
    [len(s) >= len(suffix) && s[len(s)-len(suffix):] == suffix]. *)
Definition HasSuffix (s p : string) : bool :=
  (String.length p <=? String.length s)%nat &&
  String.eqb
    (String.substring (String.length s - String.length p) (String.length p) s)
    p.

(** [strings.Contains]. *)
Fixpoint Contains (s sub : string) : bool :=
  String.prefix sub s ||
  match s with
  | EmptyString => false
  | String _ r => Contains r sub
  end.

(** [strings.Index] for a one-byte needle: the first position, or -1. *)
Fixpoint IndexByte (s : string) (c : ascii) : Z :=
  match s with
  | EmptyString => -1
  | String d r =>
      if Ascii.eqb d c then 0
      else let i := IndexByte r c in if (i <? 0)%Z then -1 else (1 + i)%Z
  end.

(** [strings.LastIndex] for a one-byte needle: the last position, or -1. *)
Fixpoint LastIndexByte (s : string) (c : ascii) : Z :=
  match s with
  | EmptyString => -1
  | String d r =>
      let i := LastIndexByte r c in
      if (0 <=? i)%Z then (1 + i)%Z
      else if Ascii.eqb d c then 0 else -1
  end.

(** The slice expression [s[lo:hi]], used with [0 <= lo <= hi <= len(s)]. *)
Definition slice (s : string) (lo hi : Z) : string :=
  String.substring (Z.to_nat lo) (Z.to_nat (hi - lo)) s.

(** *** [strings.TrimSpace]

    Go trims the runes of Unicode category White_Space at both ends.  On
    the bytes of the string these are the UTF-8 encodings below: a rune is
    recognised at the front by decoding forward and at the back by
    decoding the last rune, and for a well-formed encoding both agree
    with matching its bytes. *)

Definition byte (c : ascii) : N := N_of_ascii c.

(** The table [asciiSpace]: tab, line feed, vertical tab, form feed,
    carriage return and space. *)
Definition asciiSpace (c : ascii) : bool :=
  ((9 <=? byte c) && (byte c <=? 13) || (byte c =? 32))%N.

(** U+0085 and U+00A0. *)
Definition space2 (c d : ascii) : bool :=
  ((byte c =? 194) && ((byte d =? 133) || (byte d =? 160)))%N.

(** U+1680, U+2000..U+200A, U+2028, U+2029, U+202F, U+205F, U+3000. *)
Definition space3 (c d e : ascii) : bool :=
  ((byte c =? 225) && (byte d =? 154) && (byte e =? 128)
   || (byte c =? 226) && (byte d =? 128) &&
      ((128 <=? byte e) && (byte e <=? 138)
       || (byte e =? 168) || (byte e =? 169) || (byte e =? 175))
   || (byte c =? 226) && (byte d =? 129) && (byte e =? 159)
   || (byte c =? 227) && (byte d =? 128) && (byte e =? 128))%N.

(** [strings.TrimLeftFunc(s, unicode.IsSpace)] on the bytes of [s]. *)
Fixpoint TrimLeft (s : list ascii) : list ascii :=
  match s with
  | [] => []
  | c :: r =>
      if asciiSpace c then TrimLeft r
      else
        match r with
        | d :: r' =>
            if space2 c d then TrimLeft r'
            else
              match r' with
              | e :: r'' => if space3 c d e then TrimLeft r'' else s
              | [] => s
              end
        | [] => s
        end
  end.

(** [strings.TrimRightFunc(s, unicode.IsSpace)], on the reversed bytes:
    the last rune of the string comes first, its bytes in reverse. *)
Fixpoint TrimRightRev (s : list ascii) : list ascii :=
  match s with
  | [] => []
  | e :: r =>
      if asciiSpace e then TrimRightRev r
      else
        match r with
        | d :: r' =>
            if space2 d e then TrimRightRev r'
            else
              match r' with
              | c :: r'' => if space3 c d e then TrimRightRev r'' else s
              | [] => s
              end
        | [] => s
        end
  end.

Definition TrimSpace (s : string) : string :=
  string_of_list_ascii
    (rev (TrimRightRev (rev (TrimLeft (list_ascii_of_string s))))).

(** The UTF-8 encodings of the white-space runes. *)
Inductive space_rune : list ascii -> Prop :=
| space_rune1 c : asciiSpace c = true -> space_rune [c]
| space_rune2 c d : space2 c d = true -> space_rune [c; d]
| space_rune3 c d e : space3 c d e = true -> space_rune [c; d; e].

(** A text made of white-space runes only (the empty text included). *)
Inductive whitespace_bytes : list ascii -> Prop :=
| whitespace_nil : whitespace_bytes []
| whitespace_app t s :
    space_rune t -> whitespace_bytes s -> whitespace_bytes (t ++ s).

Definition whitespace_only (s : string) : Prop :=
  whitespace_bytes (list_ascii_of_string s).

End strings.

(** ** Package gpt: the translation client *)

Module gpt.

Record ChatCompletionMessage : Type :=
  { Role : string; Content : string }.

(** The request; [Temperature] holds the decimal literal 0.1 as a
    fraction. *)
Record ChatCompletionRequest : Type :=
  { Model : string;
    Messages : list ChatCompletionMessage;
    Temperature : Z * Z;
    MaxTokens : Z }.

(** What the program does to the outside, in the order it does it. *)
Inductive effect : Type :=
| Call (client : nat) (req : ChatCompletionRequest)
| Sleep (seconds : Z)
| PrintRateLimit (attempt : Z).

(** The handler: the rotation index and the size of the client pool. *)
Record Handler : Type := { index : nat; clients : nat }.

(** [New(cfg)]: one client per key. *)
Definition New (Keys : list string) : Handler :=
  {| index := 0; clients := length Keys |}.

Definition calls (w : list effect) : list (nat * ChatCompletionRequest) :=
  omap (fun e => match e with Call c r => Some (c, r) | _ => None end) w.

Definition dquote : string := String (ascii_of_nat 34) EmptyString.

Section Client.

(** The remote service: what [client.CreateChatCompletion] answers,
    given everything done so far.  The answer is the list of
    [Choices[i].Message.Content] and the error. *)
Variable CreateChatCompletion :
  list effect -> nat -> ChatCompletionRequest -> list string * option error.

(** Package encoding/json, for the three uses the client makes of it:
    [json.Marshal(texts)], [json.Unmarshal(content, &result)] for a
    struct whose field Translations holds the given list before the
    call, and [json.Unmarshal(content, &translations)] for a nil
    slice. *)
Variable json_Marshal : list string -> string * option error.
Variable json_Unmarshal_result :
  string -> list string -> list string * option error.
Variable json_Unmarshal_slice : string -> list string * option error.

(** The locked block: [client := h.clients[h.index]] and the rotation.
    An empty pool panics. *)
Definition next_client (h : Handler) : option (nat * Handler) :=
  if (index h <? clients h)%nat
  then Some (index h,
             {| index := (index h + 1) mod clients h;
                clients := clients h |})
  else None.

(** What one iteration of the retry loop decides. *)
Inductive step (A : Type) : Type :=
| Return (a : A)
| Continue (lastErr : error) (after : list effect).
Arguments Return {A} a.
Arguments Continue {A} lastErr after.

(** The branch [if err != nil] of both methods. *)
Definition on_error {A} (err : error) (attempt : Z) : step A :=
  let other :=
    if Is_DeadlineExceeded err || strings.Contains (Error err) "timeout"
    then Continue (wrapError "request timed out" err) [Sleep (1 + attempt)]
    else Continue (wrapError "error creating chat completion" err) []
  in
  match As_APIError err with
  | Some code =>
      if (code =? 429)%Z then
        Continue (wrapError "API rate limit exceeded" err)
          [PrintRateLimit (attempt + 1); Sleep (2 + attempt)]
      else if (code =? 500)%Z || (code =? 502)%Z
              || (code =? 503)%Z || (code =? 504)%Z then
        Continue (wrapError "OpenAI server error" err) [Sleep (1 + attempt)]
      else other
  | None => other
  end.

(** *** Translate *)

Definition translate_request (text lang : string) : ChatCompletionRequest :=
  {| Model := "gpt-3.5-turbo";
     Messages :=
       [ {| Role := "system";
            Content := "You are a professional translator. Translate the text exactly as provided without adding any comments, explanations, or additional text. Maintain the original formatting including any HTML, markdown, or special characters. Do not alter placeholders, variables, or code snippets." |};
         {| Role := "user";
            Content := "Translate the following text to " ++ lang ++ ". Keep any markdown, HTML tags, and special characters (including [], {}, <>, etc.) unchanged:" ++ strings.nl ++ strings.nl ++ text |} ];
     Temperature := (1, 10)%Z;
     MaxTokens := 1024 |}.

(** The part of the loop body after the call. *)
Definition translate_step (resp : list string * option error)
    (attempt : Z) : step string :=
  match resp with
  | (_, Some err) => on_error err attempt
  | (choice :: _, None) =>
      let result := strings.TrimSpace choice in
      if String.eqb result "" || String.eqb result " "
      then Continue (errorString "received empty translation") []
      else Return result
  | ([], None) => Continue (errorString "no choices in response") []
  end.

(** [for attempt := 0; attempt < 3; attempt++], with [left] the number
    of iterations still to run. *)
Fixpoint Translate_loop (left : nat) (attempt : Z) (lastErr : option error)
    (text lang : string) (h : Handler) (w : list effect)
  : option ((string * option error) * Handler * list effect) :=
  match left with
  | O =>
      Some (("", Some (Errorf_w "failed to translate after 3 attempts" lastErr)),
            h, w)
  | S left' =>
      match next_client h with
      | None => None
      | Some (client, h') =>
          let req := translate_request text lang in
          let resp := CreateChatCompletion w client req in
          let w' := (w ++ [Call client req])%list in
          match translate_step resp attempt with
          | Return result => Some ((result, None), h', w')
          | Continue e after =>
              Translate_loop left' (attempt + 1) (Some e) text lang h'
                (w' ++ after)%list
          end
      end
  end.

Definition Translate (text lang : string) (h : Handler) (w : list effect)
  : option ((string * option error) * Handler * list effect) :=
  Translate_loop 3 0 None text lang h w.

(** *** BatchTranslate *)

Definition batch_request (textsJSON lang : string) : ChatCompletionRequest :=
  {| Model := "gpt-3.5-turbo";
     Messages :=
       [ {| Role := "system";
            Content := "You are a professional translator. Translate the array of texts exactly as provided without adding comments or explanations. Maintain all formatting including HTML, markdown, and special characters. Return your response ONLY as a valid JSON object in this exact format: {" ++ dquote ++ "translations" ++ dquote ++ ": [" ++ dquote ++ "translated text 1" ++ dquote ++ ", " ++ dquote ++ "translated text 2" ++ dquote ++ ", ...]}" |};
         {| Role := "user";
            Content := "Translate this array of texts to " ++ lang ++ ". Keep any markdown, HTML tags, and special characters (including [], {}, <>, etc.) unchanged. Return ONLY a JSON object with a 'translations' array." ++ strings.nl ++ strings.nl ++ textsJSON |} ];
     Temperature := (1, 10)%Z;
     MaxTokens := 2048 |}.

Definition slice_len (l : list string) : Z := Z.of_nat (length l).

(** The verb v applied to an error that can be nil. *)
Definition fmt_v (err : option error) : string :=
  match err with
  | Some e => Error e
  | None => "<nil>"
  end.

(** The three parsing approaches, in the order of the source.  [Return]
    stands for reaching the validation loop with [translations] set. *)
Definition parse_translations (content : string) (texts : list string)
  : step (list string) :=
  let '(result1, err1) := json_Unmarshal_result content [] in
  if bool_decide (err1 = None) && (slice_len result1 =? slice_len texts)%Z
  then Return result1
  else if strings.HasPrefix content "[" && strings.HasSuffix content "]" then
    let '(translations, err) := json_Unmarshal_slice content in
    if negb (bool_decide (err = None))
       || negb (slice_len translations =? slice_len texts)%Z
    then Continue (Errorf_w "failed to parse response as JSON array" err) []
    else Return translations
  else
    let startIdx := strings.IndexByte content "{" in
    let endIdx := strings.LastIndexByte content "}" in
    if (0 <=? startIdx)%Z && (startIdx <? endIdx)%Z then
      let jsonContent := strings.slice content startIdx (endIdx + 1) in
      let '(result3, err3) := json_Unmarshal_result jsonContent result1 in
      if bool_decide (err3 = None) && (slice_len result3 =? slice_len texts)%Z
      then Return result3
      else Continue
             (errorString ("failed to extract valid JSON response: " ++ fmt_v err3))
             []
    else Continue (errorString "response did not contain valid JSON") [].

Definition is_blank (s : string) : bool :=
  String.eqb s "" || String.eqb s " ".

(** The validation loop: it only assigns [lastErr]; its [continue]
    continues the validation loop itself.  [texts] is the part of the
    input from the current index on, and [texts[i]] panics when there
    is none. *)
Fixpoint validate (translations texts : list string) (lastErr : option error)
  : option (option error) :=
  match translations with
  | [] => Some lastErr
  | translation :: rest =>
      if is_blank translation then
        match texts with
        | [] => None
        | text :: _ =>
            validate rest (tail texts)
              (Some (errorString ("received empty translation for text: " ++ text)))
        end
      else validate rest (tail texts) lastErr
  end.

(** The part of the loop body after the call. *)
Definition batch_step (resp : list string * option error)
    (texts : list string) (attempt : Z) : step (list string) :=
  match resp with
  | (_, Some err) => on_error err attempt
  | (choice :: _, None) =>
      parse_translations (strings.TrimSpace choice) texts
  | ([], None) => Continue (errorString "no choices in response") []
  end.

Fixpoint BatchTranslate_loop (left : nat) (attempt : Z)
    (lastErr : option error) (texts : list string) (lang : string)
    (h : Handler) (w : list effect)
  : option ((list string * option error) * Handler * list effect) :=
  match left with
  | O =>
      Some (([], Some (Errorf_w "failed to batch translate after 3 attempts" lastErr)),
            h, w)
  | S left' =>
      match json_Marshal texts with
      | (_, Some err) =>
          Some (([], Some (wrapError "error marshalling texts" err)), h, w)
      | (textsJSON, None) =>
          match next_client h with
          | None => None
          | Some (client, h') =>
              let req := batch_request textsJSON lang in
              let resp := CreateChatCompletion w client req in
              let w' := (w ++ [Call client req])%list in
              match batch_step resp texts attempt with
              | Return translations =>
                  match validate translations texts lastErr with
                  | None => None
                  | Some _ => Some ((translations, None), h', w')
                  end
              | Continue e after =>
                  BatchTranslate_loop left' (attempt + 1) (Some e) texts lang h'
                    (w' ++ after)%list
              end
          end
      end
  end.

Definition BatchTranslate (texts : list string) (lang : string)
    (h : Handler) (w : list effect)
  : option ((list string * option error) * Handler * list effect) :=
  BatchTranslate_loop 3 0 None texts lang h w.

End Client.

Arguments Return {A} a.
Arguments Continue {A} lastErr after.

(** The clients the rotation hands out from the handler [h] on: the [i]-th
    call from now on is made with client [(h.index + i) mod len(h.clients)]. *)
Definition rotation (h : Handler) (n : nat) : list nat :=
  map (fun i => (index h + i) mod clients h) (seq 0 n).

(** The seconds slept among the effects. *)
Definition slept (w : list effect) : Z :=
  foldr (fun e total => match e with Sleep seconds => seconds + total | _ => total end)%Z
    0%Z w.

End gpt.

(** ** Package cmd: the translate command *)

Module cmd.

Local Open Scope list_scope.
Local Open Scope Z_scope.

(** [parser.LocaleFileContent], with the fields the command reads. *)
Record LocaleFileContent : Type :=
  { Path : string;
    Lang : string;
    LocaleItemsMap : gmap string string }.

(** The lines the command prints. *)
Inductive message : Type :=
| MsgFoundMissing (n : Z) (path : string)
| MsgArrayItemError (key : string) (err : error)
| MsgArrayItemEmpty (key : string)
| MsgMarshalError (key : string) (err : error)
| MsgKeyError (key : string) (err : error)
| MsgKeyEmpty (key : string)
| MsgBatchError (err : error)
| MsgBatchKeyFailed (key : string)
| MsgProgress (path : string) (count total translated : Z)
| MsgFailedCount (n : Z)
| MsgFailedKeys (keys : list string)
| MsgSavedTo (file : string)
| MsgDone (path : string) (count total translated failed : Z).

(** What a call does to the outside, in the order it does it.  A call of
    the client carries the key, or keys, it is made for. *)
Inductive event : Type :=
| CallTranslate (key text lang : string)
| CallBatchTranslate (keys texts : list string) (lang : string)
| LogTranslationError (key sourceText targetLang : string) (err : error)
| Print (m : message)
| WriteFile (name content : string).

(** The keys a client call is made for. *)
Definition call_keys (e : event) : list string :=
  match e with
  | CallTranslate key _ _ => [key]
  | CallBatchTranslate keys _ _ => keys
  | _ => []
  end.

Definition is_call (e : event) : bool :=
  match e with
  | CallTranslate _ _ _ | CallBatchTranslate _ _ _ => true
  | _ => false
  end.

(** The client calls among the events. *)
Definition client_calls (evs : list event) : list event :=
  List.filter is_call evs.

(** [logEmptyTranslation]. *)
Definition logEmptyTranslation (key sourceText targetLang : string) : event :=
  LogTranslationError key sourceText targetLang
    (errorString "Empty translation received").

Definition len (s : string) : Z := Z.of_nat (String.length s).

(** [s[0]]: panics on the empty string. *)
Definition index0 (s : string) : option ascii :=
  match s with
  | EmptyString => None
  | String c _ => Some c
  end.

(** [result == "" || result == " "]. *)
Definition is_blank (s : string) : bool :=
  String.eqb s "" || String.eqb s " ".

(** [findMissingKeys]; [order] is the order in which [range source]
    yields the entries. *)
Definition findMissingKeys_loop (order : list (string * string))
    (target : gmap string string) : gset string :=
  foldl (fun missing kv =>
           match target !! kv.1 with
           | None => {[ kv.1 ]} ∪ missing
           | Some _ => missing
           end) ∅ order.

Definition findMissingKeys (source target : gmap string string)
  : gset string :=
  findMissingKeys_loop (map_to_list source) target.

(** The loop that gives every missing key the empty string; [order] is
    the order in which [range missingKeys] yields the keys. *)
Definition init_missing (order : list string)
    (source target : gmap string string) : gmap string string :=
  foldl (fun t k =>
           match source !! k with
           | Some _ => <[k := ""]> t
           | None => t
           end) target order.

(** [range] over a map yields every entry once, in some order. *)
Definition ranges_over (m : gmap string string)
    (order : list (string * string)) : Prop :=
  order ≡ₚ map_to_list m.

(** The variables of one call: the handler, the items of the target
    document (mutated in place in the source), the local variables of the
    two functions and the events so far.  [batch] and [keys] belong to
    [batch_process]. *)
Record state {Handler : Type} : Type :=
  { handler : Handler;
    items : gmap string string;
    failedKeys : list string;
    translatedCount : Z;
    count : Z;
    batch : list string;
    keys : list string;
    events : list event }.
Arguments state : clear implicits.

(** What a call leaves: the returned error and the final variables. *)
Record outcome {Handler : Type} : Type :=
  { ret : option error;
    final : state Handler }.
Arguments outcome : clear implicits.

(** The keys for which the client was called, in the order of the calls. *)
Definition keys_called (evs : list event) : list string :=
  evs ≫= call_keys.

(** Every key of the source has an entry in [m]. *)
Definition covers (source m : gmap string string) : Prop :=
  forall k, is_Some (source !! k) -> is_Some (m !! k).

(** The state of a run that has not called the client: no call among the
    events, nothing pending, every key of the source in the target. *)
Definition silent {Handler : Type} (source : gmap string string)
    (s : state Handler) : Prop :=
  covers source (items s)
  /\ client_calls (events s) = []
  /\ batch s = [] /\ keys s = [].

(** What a visit does in a run that never calls the client: it keeps the
    run silent, leaves the other entries, and gives the visited key its
    override when the source value is not empty; an entry that holds its
    override keeps it. *)
Definition silent_visit {Handler : Type} (source : gmap string string)
    (indep : option LocaleFileContent)
    (body : state Handler -> string * string -> option (state Handler))
  : Prop :=
  forall s k v,
    silent source s -> is_Some (source !! k) ->
    exists s',
      body s (k, v) = Some s'
      /\ silent source s'
      /\ (forall k', k' ≠ k -> items s' !! k' = items s !! k')
      /\ (forall ov o, indep = Some ov -> LocaleItemsMap ov !! k = Some o ->
            v ≠ "" \/ items s !! k = Some o -> items s' !! k = Some o).

(** The contract of the client for [BatchTranslate], for the language of
    one target: a list returned without error has the length of the
    input. *)
Definition length_preserving {Handler : Type} (lang : string)
    (BatchTranslate :
       list string -> string -> Handler -> (list string * option error) * Handler)
  : Prop :=
  forall texts h,
    (BatchTranslate texts lang h).1.2 = None ->
    length (BatchTranslate texts lang h).1.1 = length texts.

(** The document handed to the method [JSON] at the end of a call. *)
Definition written (target : LocaleFileContent) (m : gmap string string)
  : LocaleFileContent :=
  {| Path := Path target; Lang := Lang target; LocaleItemsMap := m |}.

(** A deterministic translator, for the language of one target: the answer
    to a text is [f text], and the answer to a batch is the list of the
    answers to its texts. *)
Definition deterministic {Handler : Type} (lang : string)
    (f : string -> string)
    (Translate :
       string -> string -> Handler -> (string * option error) * Handler)
    (BatchTranslate :
       list string -> string -> Handler -> (list string * option error) * Handler)
  : Prop :=
  (forall text h, (Translate text lang h).1 = (f text, None))
  /\ (forall texts h,
        (BatchTranslate texts lang h).1 = (map f texts, None)).

(** The values the single-item strategy translates element by element. *)
Definition array_value (json_Unmarshal : string -> list string * option error)
    (v : string) : bool :=
  strings.HasPrefix v "[" && strings.HasSuffix v "]"
  && bool_decide ((json_Unmarshal v).2 = None).

(** The pending batch holds, for each pending key, its source value. *)
Definition aligned {Handler : Type} (source : gmap string string)
    (s : state Handler) : Prop :=
  length (keys s) = length (batch s)
  /\ forall i key text,
       keys s !! i = Some key -> batch s !! i = Some text ->
       source !! key = Some text.

(** A key the client was called for is recorded as failed or holds the
    value [r]. *)
Definition settled {Handler : Type} (k r : string) (s : state Handler)
  : Prop :=
  k ∈ keys_called (events s) ->
  k ∈ failedKeys s \/ items s !! k = Some r.

(** [s'] comes from [s] by writing entries and calling the client for the
    keys of [K] only; no entry is removed, nothing is taken back from the
    events or the failed keys. *)
Definition extends {Handler : Type} (K : list string)
    (s s' : state Handler) : Prop :=
  (forall k, k ∉ K -> items s' !! k = items s !! k)
  /\ (forall k, is_Some (items s !! k) -> is_Some (items s' !! k))
  /\ (exists new, events s' = events s ++ new
                  /\ forall k, k ∈ keys_called new -> k ∈ K)
  /\ (forall k, k ∈ failedKeys s -> k ∈ failedKeys s').

(** Keys and texts that go together: as many keys as texts, and every text
    is the source value, not empty, of the key at the same index. *)
Definition paired (source : gmap string string) (keys texts : list string)
  : Prop :=
  length keys = length texts
  /\ forall i key text,
       keys !! i = Some key -> texts !! i = Some text ->
       source !! key = Some text /\ text ≠ "".

(** What [batch_process] does to the outside: it never calls [Translate],
    and a call of [BatchTranslate] is for the language [lang] and carries at
    least one text and the keys that go with the texts. *)
Definition batch_call (source : gmap string string) (lang : string)
    (e : event) : Prop :=
  match e with
  | CallBatchTranslate keys texts l =>
      l = lang /\ texts ≠ [] /\ paired source keys texts
  | CallTranslate _ _ _ => False
  | _ => True
  end.

(** The calls of [os.WriteFile] among the events (the log that
    [logTranslationError] appends to is an event of its own). *)
Definition is_write (e : event) : bool :=
  match e with
  | WriteFile _ _ => true
  | _ => false
  end.

(** A client whose [BatchTranslate] returns no error for the language
    [lang]. *)
Definition never_fails {Handler : Type} (lang : string)
    (BatchTranslate :
       list string -> string -> Handler -> (list string * option error) * Handler)
  : Prop :=
  forall texts h, (BatchTranslate texts lang h).1.2 = None.

(** A call of [BatchTranslate] with at most [n] texts. *)
Definition at_most (n : Z) (e : event) : Prop :=
  match e with
  | CallBatchTranslate _ texts _ => Z.of_nat (length texts) <= n
  | _ => True
  end.

Section Scheduler.

Context {Handler : Type}.

(** The two methods of the handler the command calls. *)
Variable Translate :
  string -> string -> Handler -> (string * option error) * Handler.
Variable BatchTranslate :
  list string -> string -> Handler -> (list string * option error) * Handler.

(** Library functions: [strings.EqualFold], [json.Unmarshal] into a
    slice of strings, [json.Marshal] of one, [filepath.Base] and
    [os.WriteFile] (which sees what happened before). *)
Variable EqualFold : string -> string -> bool.
Variable json_Unmarshal : string -> list string * option error.
Variable json_Marshal : list string -> string * option error.
Variable filepath_Base : string -> string.
Variable os_WriteFile : list event -> string -> string -> option error.

(** The method [JSON] of the document (package parser). *)
Variable JSON : LocaleFileContent -> string * option error.

Abbreviation state := (state Handler).
Abbreviation outcome := (outcome Handler).

Definition emit (evs : list event) (s : state) : state :=
  {| handler := handler s; items := items s; failedKeys := failedKeys s;
     translatedCount := translatedCount s; count := count s;
     batch := batch s; keys := keys s;
     events := events s ++ evs |}.

Definition set_handler (h : Handler) (s : state) : state :=
  {| handler := h; items := items s; failedKeys := failedKeys s;
     translatedCount := translatedCount s; count := count s;
     batch := batch s; keys := keys s; events := events s |}.

(** [target.LocaleItemsMap[k] = v]. *)
Definition set_item (k v : string) (s : state) : state :=
  {| handler := handler s; items := <[k := v]> (items s);
     failedKeys := failedKeys s;
     translatedCount := translatedCount s; count := count s;
     batch := batch s; keys := keys s; events := events s |}.

Definition set_items (m : gmap string string) (s : state) : state :=
  {| handler := handler s; items := m; failedKeys := failedKeys s;
     translatedCount := translatedCount s; count := count s;
     batch := batch s; keys := keys s; events := events s |}.

(** [failedKeys = append(failedKeys, k)]. *)
Definition fail_key (k : string) (s : state) : state :=
  {| handler := handler s; items := items s;
     failedKeys := failedKeys s ++ [k];
     translatedCount := translatedCount s; count := count s;
     batch := batch s; keys := keys s; events := events s |}.

(** [translatedCount++]. *)
Definition incr_translated (s : state) : state :=
  {| handler := handler s; items := items s; failedKeys := failedKeys s;
     translatedCount := translatedCount s + 1; count := count s;
     batch := batch s; keys := keys s; events := events s |}.

(** [count += 1]. *)
Definition incr_count (s : state) : state :=
  {| handler := handler s; items := items s; failedKeys := failedKeys s;
     translatedCount := translatedCount s; count := count s + 1;
     batch := batch s; keys := keys s; events := events s |}.

Definition set_batch (b ks : list string) (s : state) : state :=
  {| handler := handler s; items := items s; failedKeys := failedKeys s;
     translatedCount := translatedCount s; count := count s;
     batch := b; keys := ks; events := events s |}.

(** The state when the key loop starts: missing keys found and
    initialised, [count := 1]. *)
Definition start (source target : LocaleFileContent) (h : Handler) : state :=
  let missingKeys :=
    findMissingKeys (LocaleItemsMap source) (LocaleItemsMap target) in
  {| handler := h;
     items :=
       if 0 <? Z.of_nat (size missingKeys)
       then init_missing (elements missingKeys)
              (LocaleItemsMap source) (LocaleItemsMap target)
       else LocaleItemsMap target;
     failedKeys := [];
     translatedCount := 0;
     count := 1;
     batch := []; keys := [];
     events :=
       if 0 <? Z.of_nat (size missingKeys)
       then [Print (MsgFoundMissing (Z.of_nat (size missingKeys)) (Path target))]
       else [] |}.

(** *** The decision for one key

    The body of [if len(v) != 0] up to [if needToTranslate]: the flag
    and the items of the target, which the override branch writes.
    [None] is the panic of [target.LocaleItemsMap[k][0]] on an empty
    string. *)

Definition needToTranslate_single (indep : option LocaleFileContent)
    (mode : string) (missingKeys : gset string)
    (target : gmap string string) (k : string)
  : option (bool * gmap string string) :=
  match target !! k with
  | None => Some (true, target)
  | Some cur =>
      match indep with
      | Some ov =>
          match LocaleItemsMap ov !! k with
          | Some v => Some (false, <[k := v]> target)
          | None => Some (false, target)
          end
      | None =>
          if String.eqb mode "full" then
            if len cur =? 0 then Some (true, target)
            else
              match index0 cur with
              | None => None
              | Some c =>
                  if Ascii.eqb c "!" then Some (true, target)
                  else Some (false, target)
              end
          else if String.eqb mode "missing" then
            Some (bool_decide (k ∈ missingKeys), target)
          else Some (false, target)
      end
  end.

Definition needToTranslate_batch (indep : option LocaleFileContent)
    (mode : string) (missingKeys : gset string)
    (target : gmap string string) (k v : string)
  : option (bool * gmap string string) :=
  match target !! k with
  | None => Some (true, target)
  | Some cur =>
      match indep with
      | Some ov =>
          match LocaleItemsMap ov !! k with
          | Some v => Some (false, <[k := v]> target)
          | None => Some (false, target)
          end
      | None =>
          if String.eqb mode "full" then
            if EqualFold cur v || (len cur =? 0) then Some (true, target)
            else
              match index0 cur with
              | None => None
              | Some c =>
                  if Ascii.eqb c "!" then Some (true, target)
                  else Some (false, target)
              end
          else if String.eqb mode "missing" then
            Some (bool_decide (k ∈ missingKeys), target)
          else Some (false, target)
      end
  end.

(** *** single_process *)

(** The loop over the elements of a JSON array value.  [None] in the first
    component: an element failed and the loop broke. *)
Fixpoint translate_array (k lang : string) (stringArray : list string)
    (s : state) : option (list string) * state :=
  match stringArray with
  | [] => (Some [], s)
  | str :: rest =>
      let '((translated, err), h1) := Translate str lang (handler s) in
      let s1 := emit [CallTranslate k str lang] (set_handler h1 s) in
      match err with
      | Some e =>
          (None,
           emit [Print (MsgArrayItemError k e); LogTranslationError k str lang e] s1)
      | None =>
          if is_blank translated then
            (None,
             emit [Print (MsgArrayItemEmpty k); logEmptyTranslation k str lang] s1)
          else
            let '(r, s2) := translate_array k lang rest s1 in
            (option_map (cons translated) r, s2)
      end
  end.

(** The block [if strings.HasPrefix(v, "[") && ...]: whether the value is a
    JSON array, whether its translation succeeded, and the new state. *)
Definition translate_as_array (k v lang : string) (s : state)
  : bool * bool * state :=
  if strings.HasPrefix v "[" && strings.HasSuffix v "]" then
    match json_Unmarshal v with
    | (stringArray, None) =>
        let '(r, s1) := translate_array k lang stringArray s in
        match r with
        | Some translatedArray =>
            match json_Marshal translatedArray with
            | (_, Some err) =>
                (true, false,
                 emit [Print (MsgMarshalError k err);
                       LogTranslationError k v lang err] s1)
            | (resultBytes, None) => (true, true, set_item k resultBytes s1)
            end
        | None => (true, false, s1)
        end
    | (_, Some _) => (false, true, s)
    end
  else (false, true, s).

(** The block [if !isValidJSONArray]. *)
Definition translate_as_string (k v lang : string) (s : state)
  : bool * state :=
  let '((result, err), h1) := Translate v lang (handler s) in
  let s1 := emit [CallTranslate k v lang] (set_handler h1 s) in
  match err with
  | Some e =>
      (false, emit [Print (MsgKeyError k e); LogTranslationError k v lang e] s1)
  | None =>
      if is_blank result then
        (false, emit [Print (MsgKeyEmpty k); logEmptyTranslation k v lang] s1)
      else (true, set_item k result s1)
  end.

(** The body of [if needToTranslate]. *)
Definition translate_key (k v lang : string) (s : state) : state :=
  let '(isValidJSONArray, success1, s1) := translate_as_array k v lang s in
  let '(translationSuccess, s2) :=
    if negb isValidJSONArray then translate_as_string k v lang s1
    else (success1, s1) in
  if translationSuccess then incr_translated s2 else fail_key k s2.

(** The body of the loop over the source. *)
Definition single_visit (target : LocaleFileContent)
    (indep : option LocaleFileContent) (mode : string)
    (missingKeys : gset string) (totalKeys : Z)
    (s : state) (kv : string * string) : option state :=
  let '(k, v) := kv in
  if negb (len v =? 0) then
    match needToTranslate_single indep mode missingKeys (items s) k with
    | None => None
    | Some (needToTranslate, items1) =>
        let s1 := set_items items1 s in
        let s2 := if needToTranslate then translate_key k v (Lang target) s1
                  else s1 in
        Some (incr_count
                (emit [Print (MsgProgress (Path target) (count s2) totalKeys
                                (translatedCount s2))] s2))
    end
  else Some s.

(** A loop whose body can panic. *)
Fixpoint loop {A} (body : state -> A -> option state) (s : state)
    (l : list A) : option state :=
  match l with
  | [] => Some s
  | a :: rest =>
      match body s a with
      | None => None
      | Some s1 => loop body s1 rest
      end
  end.

(** [strings.Join(failedKeys, "\n")]. *)
Definition join_lines (l : list string) : string :=
  String.concat strings.nl l.

(** The block [if len(failedKeys) > 0]; the error of writing the side file
    is dropped. *)
Definition report_failed (target : LocaleFileContent) (s : state) : state :=
  if 0 <? Z.of_nat (length (failedKeys s)) then
    let failedKeysFile :=
      String.append "failed_keys_"
        (String.append (filepath_Base (Path target)) ".txt") in
    emit
      ([Print (MsgFailedCount (Z.of_nat (length (failedKeys s))))]
       ++ (if Z.of_nat (length (failedKeys s)) <=? 10
           then [Print (MsgFailedKeys (failedKeys s))] else [])
       ++ [WriteFile failedKeysFile (join_lines (failedKeys s));
           Print (MsgSavedTo failedKeysFile)])
      s
  else s.

(** The end of both functions: the document is serialised and written, then
    the last line is printed with the number [translated]. *)
Definition persist (target : LocaleFileContent) (totalKeys translated : Z)
    (s : state) : outcome :=
  match JSON (written target (items s)) with
  | (_, Some err) => {| ret := Some err; final := s |}
  | (buf, None) =>
      let s1 := emit [WriteFile (Path target) buf] s in
      match os_WriteFile (events s) (Path target) buf with
      | Some err => {| ret := Some err; final := s1 |}
      | None =>
          {| ret := None;
             final :=
               emit [Print (MsgDone (Path target) totalKeys totalKeys translated
                              (Z.of_nat (length (failedKeys s))))] s1 |}
      end
  end.

(** [single_process]; [order] is the order in which [range] yields the
    entries of the source. *)
Definition single_process (order : list (string * string))
    (source target : LocaleFileContent) (indep : option LocaleFileContent)
    (mode : string) (h : Handler) : option outcome :=
  let missingKeys :=
    findMissingKeys (LocaleItemsMap source) (LocaleItemsMap target) in
  let totalKeys := Z.of_nat (size (LocaleItemsMap source)) in
  match loop (single_visit target indep mode missingKeys totalKeys)
          (start source target h) order with
  | None => None
  | Some s =>
      let s1 := report_failed target s in
      Some (persist target totalKeys (translatedCount s1) s1)
  end.

(** *** batch_process *)

(** A slice with the index of each element, as [range] yields them. *)
Definition enumerate {A} (l : list A) : list (nat * A) :=
  imap (fun i x => (i, x)) l.

(** The closure [sendBatch]: the new state and the returned error.
    [keys[i]] and [batch[i]] panic out of range. *)
Definition sendBatch (target : LocaleFileContent) (s : state)
  : option (state * option error) :=
  if Z.of_nat (length (batch s)) =? 0 then Some (s, None)
  else
    let '((results, err), h1) :=
      BatchTranslate (batch s) (Lang target) (handler s) in
    let s1 :=
      emit [CallBatchTranslate (keys s) (batch s) (Lang target)]
        (set_handler h1 s) in
    match err with
    | Some e =>
        match
          loop (fun s (ix : nat * string) =>
                  match keys s !! ix.1 with
                  | None => None
                  | Some key =>
                      Some (fail_key key
                              (emit [LogTranslationError key ix.2 (Lang target) e] s))
                  end)
            (emit [Print (MsgBatchError e)] s1) (enumerate (batch s1))
        with
        | None => None
        | Some s2 => Some (s2, Some e)
        end
    | None =>
        match
          loop (fun s (ix : nat * string) =>
                  match keys s !! ix.1 with
                  | None => None
                  | Some key =>
                      if is_blank ix.2 then
                        match batch s !! ix.1 with
                        | None => None
                        | Some src =>
                            Some (fail_key key
                                    (emit [Print (MsgBatchKeyFailed key);
                                           logEmptyTranslation key src (Lang target)]
                                       s))
                        end
                      else Some (set_item key ix.2 s)
                  end)
            s1 (enumerate results)
        with
        | None => None
        | Some s2 => Some (set_batch [] [] s2, None)
        end
    end.

(** The body of the loop over the source. *)
Definition batch_visit (target : LocaleFileContent)
    (indep : option LocaleFileContent) (batchSize : Z) (mode : string)
    (missingKeys : gset string) (totalKeys : Z)
    (s : state) (kv : string * string) : option state :=
  let '(k, v) := kv in
  if negb (len v =? 0) then
    match needToTranslate_batch indep mode missingKeys (items s) k v with
    | None => None
    | Some (needToTranslate, items1) =>
        let s1 := set_items items1 s in
        let r :=
          if needToTranslate then
            let s2 :=
              incr_translated (set_batch (batch s1 ++ [v]) (keys s1 ++ [k]) s1) in
            if Z.of_nat (length (batch s2)) >=? batchSize
            then fst <$> sendBatch target s2
            else Some s2
          else Some s1 in
        match r with
        | None => None
        | Some s3 =>
            Some (incr_count
                    (emit [Print (MsgProgress (Path target) (count s3) totalKeys
                                    (translatedCount s3))] s3))
        end
    end
  else Some s.

(** [batch_process]; [order] is the order in which [range] yields the
    entries of the source. *)
Definition batch_process (order : list (string * string))
    (source target : LocaleFileContent) (indep : option LocaleFileContent)
    (batchSize : Z) (mode : string) (h : Handler) : option outcome :=
  let missingKeys :=
    findMissingKeys (LocaleItemsMap source) (LocaleItemsMap target) in
  let totalKeys := Z.of_nat (size (LocaleItemsMap source)) in
  match loop (batch_visit target indep batchSize mode missingKeys totalKeys)
          (start source target h) order with
  | None => None
  | Some s =>
      match (if 0 <? Z.of_nat (length (batch s))
             then fst <$> sendBatch target s else Some s) with
      | None => None
      | Some s1 =>
          let s2 := report_failed target s1 in
          Some (persist target totalKeys
                  (translatedCount s2 - Z.of_nat (length (failedKeys s2))) s2)
      end
  end.

(** *** The keys a call selects *)

(** An entry of the source is selected on the items [m] when its value is
    not empty and the decision taken on [m] is to translate. *)
Definition selects_single (indep : option LocaleFileContent) (mode : string)
    (missingKeys : gset string) (m : gmap string string)
    (kv : string * string) : bool :=
  negb (len kv.2 =? 0)
  && match needToTranslate_single indep mode missingKeys m kv.1 with
     | Some (true, _) => true
     | _ => false
     end.

Definition selects_batch (indep : option LocaleFileContent) (mode : string)
    (missingKeys : gset string) (m : gmap string string)
    (kv : string * string) : bool :=
  negb (len kv.2 =? 0)
  && match needToTranslate_batch indep mode missingKeys m kv.1 kv.2 with
     | Some (true, _) => true
     | _ => false
     end.

(** The entries a call selects, in the order of the key loop: the decision
    is taken on the items as they stand when the key loop starts. *)
Definition selected_single (order : list (string * string))
    (source target : LocaleFileContent) (indep : option LocaleFileContent)
    (mode : string) (h : Handler) : list (string * string) :=
  List.filter
    (selects_single indep mode
       (findMissingKeys (LocaleItemsMap source) (LocaleItemsMap target))
       (items (start source target h)))
    order.

Definition selected_batch (order : list (string * string))
    (source target : LocaleFileContent) (indep : option LocaleFileContent)
    (mode : string) (h : Handler) : list (string * string) :=
  List.filter
    (selects_batch indep mode
       (findMissingKeys (LocaleItemsMap source) (LocaleItemsMap target))
       (items (start source target h)))
    order.

End Scheduler.

End cmd.

(** ** Package os, as far as the program looks at it *)

Module os.

(** What [os.Stat] answers: no error, an error for which [os.IsNotExist]
    holds, or another error. *)
Inductive StatResult : Type :=
| StatOk
| StatNotExist
| StatOther (err : error).

(** [os.IsNotExist(err)] for the error of [os.Stat]. *)
Definition IsNotExist (r : StatResult) : bool :=
  match r with
  | StatNotExist => true
  | _ => false
  end.

(** An entry of [os.ReadDir]. *)
Record DirEntry : Type := { Name : string; IsDir : bool }.

End os.

(** ** Package scanner: the directory model *)

Module scanner.

Module DirectoryStructure.
Record t : Type :=
  { RootDir : string;
    SourceLang : string;
    Languages : list string;
    FileTypes : list string;
    LanguageDirs : gmap string string;
    FilesByType : gmap string (list string);
    LanguageFiles : gmap string (list string) }.
End DirectoryStructure.

Module FilePair.
Record t : Type :=
  { SourceFile : string;
    TargetFile : string;
    SourceLang : string;
    TargetLang : string;
    FileType : string }.
End FilePair.

Import DirectoryStructure.

Local Open Scope list_scope.

(** [m[k]] for a map of strings: the empty string for a missing key. *)
Definition dir_of (m : gmap string string) (k : string) : string :=
  default "" (m !! k).

(** [m[k]] for a map of slices: nil for a missing key. *)
Definition files_of (m : gmap string (list string)) (k : string) : list string :=
  default [] (m !! k).

Section FileSystem.

(** The file system and [filepath.Join]; [range_dirs] is the order in which
    [range] yields the entries of the map of language directories. *)
Variable os_Stat : string -> os.StatResult.
Variable os_ReadDir : string -> list os.DirEntry * option error.
Variable filepath_Join : string -> string -> string.
Variable range_dirs : gmap string string -> list (string * string).

Definition is_json (file : os.DirEntry) : bool :=
  negb (os.IsDir file) && strings.HasSuffix (os.Name file) ".json".

(** The first loop of [ScanDirectory]: the language directories. *)
Definition scan_languages (rootDir : string) (entries : list os.DirEntry)
    (ds : t) : t :=
  foldl (fun ds entry =>
           if os.IsDir entry then
             let langCode := os.Name entry in
             let langPath := filepath_Join rootDir langCode in
             {| RootDir := RootDir ds; SourceLang := SourceLang ds;
                Languages := Languages ds ++ [langCode];
                FileTypes := FileTypes ds;
                LanguageDirs := <[langCode := langPath]> (LanguageDirs ds);
                FilesByType := FilesByType ds;
                LanguageFiles := <[langCode := []]> (LanguageFiles ds) |}
           else ds) ds entries.

(** The second loop: the file types of the source language. *)
Definition scan_file_types (sourceFiles : list os.DirEntry) (ds : t) : t :=
  foldl (fun ds file =>
           if is_json file then
             let fileType := os.Name file in
             {| RootDir := RootDir ds; SourceLang := SourceLang ds;
                Languages := Languages ds;
                FileTypes := FileTypes ds ++ [fileType];
                LanguageDirs := LanguageDirs ds;
                FilesByType := <[fileType := []]> (FilesByType ds);
                LanguageFiles := LanguageFiles ds |}
           else ds) ds sourceFiles.

(** The inner loop of the third loop: the files of one language. *)
Definition scan_files (lang langDir : string) (files : list os.DirEntry)
    (ds : t) : t :=
  foldl (fun ds file =>
           if is_json file then
             let filePath := filepath_Join langDir (os.Name file) in
             {| RootDir := RootDir ds; SourceLang := SourceLang ds;
                Languages := Languages ds;
                FileTypes := FileTypes ds;
                LanguageDirs := LanguageDirs ds;
                FilesByType :=
                  <[os.Name file := files_of (FilesByType ds) (os.Name file)
                                    ++ [filePath]]> (FilesByType ds);
                LanguageFiles :=
                  <[lang := files_of (LanguageFiles ds) lang ++ [filePath]]>
                    (LanguageFiles ds) |}
           else ds) ds files.

(** The third loop: every language directory, until one cannot be read. *)
Fixpoint scan_all (dirs : list (string * string)) (ds : t)
  : option t * option error :=
  match dirs with
  | [] => (Some ds, None)
  | (lang, langDir) :: rest =>
      match os_ReadDir langDir with
      | (_, Some err) => (None, Some err)
      | (files, None) => scan_all rest (scan_files lang langDir files ds)
      end
  end.

(** [ScanDirectory]. *)
Definition ScanDirectory (rootDir sourceLang : string)
  : option t * option error :=
  if os.IsNotExist (os_Stat rootDir) then
    (None,
     Some (errorString
             (String.append "directory "
                (String.append rootDir " does not exist"))))
  else
    let ds0 :=
      {| RootDir := rootDir; SourceLang := sourceLang;
         Languages := []; FileTypes := [];
         LanguageDirs := ∅; FilesByType := ∅; LanguageFiles := ∅ |} in
    match os_ReadDir rootDir with
    | (_, Some err) => (None, Some err)
    | (entries, None) =>
        let ds1 := scan_languages rootDir entries ds0 in
        match LanguageDirs ds1 !! sourceLang with
        | None =>
            (None,
             Some (errorString
                     (String.append "source language directory '"
                        (String.append sourceLang "' not found"))))
        | Some sourceDir =>
            match os_ReadDir sourceDir with
            | (_, Some err) => (None, Some err)
            | (sourceFiles, None) =>
                let ds2 := scan_file_types sourceFiles ds1 in
                scan_all (range_dirs (LanguageDirs ds2)) ds2
            end
        end
    end.

(** The body of the two loops of [GetPairs] and [FindMissingPairs]: the
    pair for a language and a file type. *)
Definition pair_of (ds : t) (lang fileType : string) : FilePair.t :=
  {| FilePair.SourceFile :=
       filepath_Join (dir_of (LanguageDirs ds) (SourceLang ds)) fileType;
     FilePair.TargetFile :=
       filepath_Join (dir_of (LanguageDirs ds) lang) fileType;
     FilePair.SourceLang := SourceLang ds;
     FilePair.TargetLang := lang;
     FilePair.FileType := fileType |}.

(** [GetPairs]. *)
Definition GetPairs (ds : t) : list FilePair.t * option error :=
  (foldl (fun pairs lang =>
            if String.eqb lang (SourceLang ds) then pairs
            else
              foldl (fun pairs fileType =>
                       let sourcePath :=
                         filepath_Join (dir_of (LanguageDirs ds) (SourceLang ds))
                           fileType in
                       if os.IsNotExist (os_Stat sourcePath) then pairs
                       else pairs ++ [pair_of ds lang fileType])
                pairs (FileTypes ds))
     [] (Languages ds),
   None).

(** [FindMissingPairs]. *)
Definition FindMissingPairs (ds : t) : list FilePair.t :=
  foldl (fun missing lang =>
           if String.eqb lang (SourceLang ds) then missing
           else
             foldl (fun missing fileType =>
                      let sourcePath :=
                        filepath_Join (dir_of (LanguageDirs ds) (SourceLang ds))
                          fileType in
                      let targetPath :=
                        filepath_Join (dir_of (LanguageDirs ds) lang) fileType in
                      if os.IsNotExist (os_Stat sourcePath) then missing
                      else if os.IsNotExist (os_Stat targetPath)
                           then missing ++ [pair_of ds lang fileType]
                           else missing)
               missing (FileTypes ds))
    [] (Languages ds).

End FileSystem.

End scanner.

(** ** Package cmd: the sync and status commands *)

Module sync.

Import cmd.

Local Open Scope list_scope.
Local Open Scope Z_scope.

(** The test [v, ok := target[k]; ok && v != ""] for an entry of the
    source. *)
Definition translated_in (target : gmap string string)
    (kv : string * string) : bool :=
  match target !! kv.1 with
  | Some v => negb (String.eqb v "")
  | None => false
  end.

(** [countTranslatedKeys]; [order] is the order in which [range source]
    yields the entries. *)
Definition countTranslatedKeys_loop (order : list (string * string))
    (target : gmap string string) : Z :=
  foldl (fun count kv => if translated_in target kv then count + 1 else count)
    0 order.

Definition countTranslatedKeys (source target : gmap string string) : Z :=
  countTranslatedKeys_loop (map_to_list source) target.

(** The inner loop that selects a language: it appends the language at the
    first match and breaks. *)
Fixpoint append_if_listed (lang : string) (TargetLangs : list string)
    (acc : list string) : list string :=
  match TargetLangs with
  | [] => acc
  | targetLang :: rest =>
      if String.eqb lang targetLang then acc ++ [lang]
      else append_if_listed lang rest acc
  end.

(** The target languages of both commands: the languages of the
    configuration that were found, or every language but the source. *)
Definition targetLanguages (Languages TargetLangs : list string)
    (sourceLang : string) : list string :=
  if 0 <? Z.of_nat (length TargetLangs) then
    foldl (fun acc lang => append_if_listed lang TargetLangs acc) [] Languages
  else
    foldl (fun acc lang =>
             if negb (String.eqb lang sourceLang) then acc ++ [lang] else acc)
      [] Languages.

(** The inner loop that keeps a pair: it appends the pair at the first
    language that is its target language and breaks. *)
Fixpoint append_pair_if_listed (pair : scanner.FilePair.t)
    (langs : list string) (acc : list scanner.FilePair.t)
  : list scanner.FilePair.t :=
  match langs with
  | [] => acc
  | lang :: rest =>
      if String.eqb (scanner.FilePair.TargetLang pair) lang then acc ++ [pair]
      else append_pair_if_listed pair rest acc
  end.

(** The pairs of both commands: the pairs whose target language is
    selected. *)
Definition filteredPairs (pairs : list scanner.FilePair.t)
    (targetLanguages : list string) : list scanner.FilePair.t :=
  foldl (fun acc pair => append_pair_if_listed pair targetLanguages acc) [] pairs.

(** The integer fields of [FileStats]. *)
Record FileStats : Type :=
  { SourceCount : Z;
    MissingCount : Z;
    EmptyCount : Z;
    Translated : Z;
    TargetExists : bool;
    TargetTooMany : bool }.

(** The test [_, ok := source[k]; ok && v == ""] for an entry of the
    target. *)
Definition empty_in (source : gmap string string)
    (kv : string * string) : bool :=
  match source !! kv.1 with
  | Some _ => String.eqb kv.2 ""
  | None => false
  end.

(** The loop of the status command that counts the empty values;
    [order] is the order in which [range target] yields the entries. *)
Definition emptyCount_loop (order : list (string * string))
    (source : gmap string string) : Z :=
  foldl (fun emptyCount kv =>
           if empty_in source kv then emptyCount + 1 else emptyCount)
    0 order.

(** The statistics the status command computes for one pair of documents
    (the percentage, a floating-point number, is left out). *)
Definition file_stats (target_order : list (string * string))
    (source target : gmap string string) : FileStats :=
  let missingCount := Z.of_nat (size (findMissingKeys source target)) in
  let emptyCount := emptyCount_loop target_order source in
  {| SourceCount := Z.of_nat (size source);
     MissingCount := missingCount;
     EmptyCount := emptyCount;
     Translated := Z.of_nat (size source) - missingCount - emptyCount;
     TargetExists := true;
     TargetTooMany := Z.of_nat (size source) <? Z.of_nat (size target) |}.

End sync.

(** ** Package config *)

Module config.

Local Open Scope list_scope.

Record Config : Type :=
  { SourceLang : string;
    TargetLangs : list string;
    IncludeFiles : list string;
    ExcludeFiles : list string;
    APIKey : string;
    BatchSize : Z;
    Mode : string }.

(** [DefaultConfig]. *)
Definition DefaultConfig : Config :=
  {| SourceLang := "en";
     TargetLangs := [];
     IncludeFiles := ["*.json"];
     ExcludeFiles := [];
     APIKey := "";
     BatchSize := 5;
     Mode := "missing" |}.

(** The three assignments of [LoadConfig] after the decoding. *)
Definition set_defaults (config : Config) : Config :=
  let config1 :=
    if String.eqb (SourceLang config) "" then
      {| SourceLang := "en"; TargetLangs := TargetLangs config;
         IncludeFiles := IncludeFiles config;
         ExcludeFiles := ExcludeFiles config; APIKey := APIKey config;
         BatchSize := BatchSize config; Mode := Mode config |}
    else config in
  let config2 :=
    if String.eqb (Mode config1) "" then
      {| SourceLang := SourceLang config1; TargetLangs := TargetLangs config1;
         IncludeFiles := IncludeFiles config1;
         ExcludeFiles := ExcludeFiles config1; APIKey := APIKey config1;
         BatchSize := BatchSize config1; Mode := "missing" |}
    else config1 in
  if (Z.of_nat (length (IncludeFiles config2)) =? 0)%Z then
    {| SourceLang := SourceLang config2; TargetLangs := TargetLangs config2;
       IncludeFiles := ["*.json"];
       ExcludeFiles := ExcludeFiles config2; APIKey := APIKey config2;
       BatchSize := BatchSize config2; Mode := Mode config2 |}
  else config2.

Section Files.

(** The file system, as a state the functions read and write, and the two
    functions of encoding/json; [json_Unmarshal] decodes into a zero
    [Config]. *)
Variable FS : Type.
Variable os_Stat : FS -> string -> os.StatResult.
Variable os_ReadFile : FS -> string -> string * option error.
Variable os_WriteFile : FS -> string -> string -> FS * option error.
Variable json_Unmarshal : string -> Config * option error.
Variable json_MarshalIndent : Config -> string * option error.

(** [LoadConfig]. *)
Definition LoadConfig (fs : FS) (path : string)
  : option Config * option error :=
  if os.IsNotExist (os_Stat fs path) then
    (None,
     Some (errorString
             (String.append "configuration file "
                (String.append path " does not exist"))))
  else
    match os_ReadFile fs path with
    | (_, Some err) => (None, Some err)
    | (data, None) =>
        match json_Unmarshal data with
        | (_, Some err) => (None, Some err)
        | (config, None) => (Some (set_defaults config), None)
        end
    end.

(** [SaveConfig]. *)
Definition SaveConfig (fs : FS) (config : Config) (path : string)
  : FS * option error :=
  match json_MarshalIndent config with
  | (_, Some err) => (fs, Some err)
  | (data, None) => os_WriteFile fs path data
  end.

(** [CreateDefaultConfig]. *)
Definition CreateDefaultConfig (fs : FS) (path : string) : FS * option error :=
  match os_Stat fs path with
  | os.StatOk => (fs, None)
  | _ => SaveConfig fs DefaultConfig path
  end.

End Files.

End config.

(** ** Stand-ins for the examples

    The translators of the test file, and library functions restricted to
    the inputs of the examples. *)

Module doubles.

Import cmd.

Local Open Scope list_scope.

(** [mockTranslate] of the test file. *)
Definition mockTranslate (expectedLang : string)
    (translations : gmap string string)
    (src lang : string) (h : unit) : (string * option error) * unit :=
  if negb (String.eqb lang expectedLang) then
    (("", Some (errorString (String.append "unexpected language: " lang))), h)
  else
    match translations !! src with
    | Some result => ((result, None), h)
    | None => ((String.append "TRANSLATED:" src, None), h)
    end.

(** [mockBatchTranslate] of the test file. *)
Definition mockBatchTranslate (expectedLang : string)
    (translations : gmap string string)
    (srcs : list string) (lang : string) (h : unit)
  : (list string * option error) * unit :=
  if negb (String.eqb lang expectedLang) then
    (([], Some (errorString (String.append "unexpected language: " lang))), h)
  else
    ((map (fun src =>
             match translations !! src with
             | Some result => result
             | None => String.append "TRANSLATED:" src
             end) srcs, None), h).

(** A batch translator whose first call fails: the handler counts the
    calls. *)
Definition failFirstBatch (srcs : list string) (lang : string) (h : nat)
  : (list string * option error) * nat :=
  match h with
  | O => (([], Some (errorString "too many requests")), S h)
  | S _ => ((map (String.append "TRANSLATED:") srcs, None), S h)
  end.

(** A single translator for the same handler. *)
Definition countingTranslate (src lang : string) (h : nat)
  : (string * option error) * nat :=
  ((String.append "TRANSLATED:" src, None), S h).

Definition lower (c : ascii) : ascii :=
  let n := nat_of_ascii c in
  if (65 <=? n)%nat && (n <=? 90)%nat then ascii_of_nat (n + 32) else c.

(** [strings.EqualFold] on ASCII texts. *)
Fixpoint EqualFold (s t : string) : bool :=
  match s, t with
  | EmptyString, EmptyString => true
  | String c s', String d t' => Ascii.eqb (lower c) (lower d) && EqualFold s' t'
  | _, _ => false
  end.

Definition quote : ascii := ascii_of_nat 34.

(** Reads a string literal of printable ASCII characters without escapes up
    to its closing quote. *)
Fixpoint read_literal (s : string) : option (string * string) :=
  match s with
  | EmptyString => None
  | String c r =>
      if Ascii.eqb c quote then Some (EmptyString, r)
      else if Ascii.eqb c "\" || (nat_of_ascii c <? 32)%nat
              || (126 <? nat_of_ascii c)%nat then None
      else
        match read_literal r with
        | Some (lit, rest) => Some (String c lit, rest)
        | None => None
        end
  end.

(** Reads the elements of an array after its opening bracket; [fuel] bounds
    the number of elements. *)
Fixpoint read_elements (fuel : nat) (s : string) : option (list string) :=
  match fuel, s with
  | S fuel', String c r =>
      if Ascii.eqb c quote then
        match read_literal r with
        | Some (lit, String d rest) =>
            if Ascii.eqb d "]" then
              match rest with
              | EmptyString => Some [lit]
              | _ => None
              end
            else if Ascii.eqb d "," then
              option_map (cons lit) (read_elements fuel' rest)
            else None
        | _ => None
        end
      else None
  | _, _ => None
  end.

(** [json.Unmarshal] into a slice of strings, for arrays of string literals
    of printable ASCII characters, without escapes and without white space
    between the tokens; on any other input it reports an error. *)
Definition json_Unmarshal (v : string) : list string * option error :=
  match v with
  | String c r =>
      if Ascii.eqb c "[" then
        match r with
        | String d EmptyString =>
            if Ascii.eqb d "]" then ([], None)
            else ([], Some (errorString "invalid character"))
        | _ =>
            match read_elements (String.length r) r with
            | Some l => (l, None)
            | None => ([], Some (errorString "invalid character"))
            end
        end
      else ([], Some (errorString "invalid character"))
  | EmptyString => ([], Some (errorString "unexpected end of JSON input"))
  end.

(** [json.Marshal] of a slice of strings that need no escape (printable
    ASCII without quote, backslash, ampersand or angle bracket). *)
Definition json_Marshal (l : list string) : string * option error :=
  (String.append "["
     (String.append
        (String.concat ","
           (map (fun x => String quote (String.append x (String quote EmptyString))) l))
        "]"),
   None).

(** [filepath.Base] for a path that does not end in a separator. *)
Fixpoint filepath_Base (name : string) : string :=
  match name with
  | EmptyString => EmptyString
  | String c r =>
      if (0 <=? strings.IndexByte r "/")%Z || Ascii.eqb c "/"
      then filepath_Base r
      else name
  end.

(** A file system on which every write succeeds. *)
Definition os_WriteFile (_ : list event) (_ _ : string) : option error := None.

(** A serialiser in place of the method [JSON]: one line per entry. *)
Definition JSON (doc : LocaleFileContent) : string * option error :=
  (String.concat strings.nl
     (map (fun kv : string * string =>
             String.append kv.1 (String.append "=" kv.2))
        (map_to_list (LocaleItemsMap doc))),
   None).

(** The answer of the two mock translators to one text. *)
Definition mockAnswer (translations : gmap string string) (src : string)
  : string :=
  match translations !! src with
  | Some result => result
  | None => String.append "TRANSLATED:" src
  end.

(** [json.Unmarshal] into the struct with the field Translations, for an
    object with that one field and an array as above. *)
Definition json_Unmarshal_result (content : string) (before : list string)
  : list string * option error :=
  let opening :=
    String "{" (String quote (String.append "translations" (String quote ":"))) in
  if strings.HasPrefix content opening && strings.HasSuffix content "}" then
    match json_Unmarshal
            (strings.slice content (strings.len opening)
               (strings.len content - 1)) with
    | (l, None) => (l, None)
    | (_, Some e) => (before, Some e)
    end
  else (before, Some (errorString "invalid character")).

(** A service that answers the first call with a blank text and every other
    call with the given text. *)
Definition blankFirst (answer : string) (w : list gpt.effect) (client : nat)
    (req : gpt.ChatCompletionRequest) : list string * option error :=
  match gpt.calls w with
  | [] => ([" "], None)
  | _ => ([answer], None)
  end.

(** A service that answers every call with the given text. *)
Definition always (answer : string) (w : list gpt.effect) (client : nat)
    (req : gpt.ChatCompletionRequest) : list string * option error :=
  ([answer], None).

Definition doc (path lang : string) (m : gmap string string)
  : LocaleFileContent :=
  {| Path := path; Lang := lang; LocaleItemsMap := m |}.

(** The documents of the test file. *)
Definition english (m : gmap string string) : LocaleFileContent :=
  doc "en-US.json" "English" m.
Definition french (m : gmap string string) : LocaleFileContent :=
  doc "fr-FR.json" "French" m.

(** The two functions with the stand-ins and the mock translators. *)
Definition single order source target indep mode :=
  single_process (mockTranslate "French" ∅) json_Unmarshal json_Marshal
    filepath_Base os_WriteFile JSON order source target indep mode tt.
Definition batched order source target indep batchSize mode :=
  batch_process (mockBatchTranslate "French" ∅) EqualFold filepath_Base
    os_WriteFile JSON order source target indep batchSize mode tt.

(** The object with the translations [Bonjour] and the empty string. *)
Definition two_translations : string :=
  String.concat EmptyString
    [ "{"; String quote "translations"; String quote ":[";
      String quote "Bonjour"; String quote ","; String quote EmptyString;
      String quote "]}" ].

(** Files in memory, in place of the file system of package config. *)
Definition memStat (fs : gmap string string) (path : string) : os.StatResult :=
  match fs !! path with
  | Some _ => os.StatOk
  | None => os.StatNotExist
  end.

Definition memReadFile (fs : gmap string string) (path : string)
  : string * option error :=
  match fs !! path with
  | Some data => (data, None)
  | None => ("", Some (errorString "no such file or directory"))
  end.

Definition memWriteFile (fs : gmap string string) (path data : string)
  : gmap string string * option error :=
  (<[path := data]> fs, None).

(** A codec for the one configuration the example saves: the default
    configuration and its text. *)
Definition default_config_text : string := "default configuration".

Definition config_MarshalIndent (c : config.Config) : string * option error :=
  (default_config_text, None).

Definition config_Unmarshal (data : string) : config.Config * option error :=
  if String.eqb data default_config_text then (config.DefaultConfig, None)
  else
    ({| config.SourceLang := ""; config.TargetLangs := [];
        config.IncludeFiles := []; config.ExcludeFiles := [];
        config.APIKey := ""; config.BatchSize := 0; config.Mode := "" |},
     Some (errorString "invalid character")).

End doubles.

(** * Properties *)

(** ** The client *)

Module gpt_facts.

Import gpt.

Lemma space2_lead c d :
  strings.space2 c d = true -> strings.asciiSpace c = false.
Proof.
  unfold strings.space2, strings.asciiSpace.
  intros H. apply andb_prop in H as [H _].
  apply N.eqb_eq in H. rewrite H. reflexivity.
Qed.

Lemma space3_lead c d e :
  strings.space3 c d e = true ->
  strings.asciiSpace c = false /\ strings.space2 c d = false.
Proof.
  unfold strings.space3, strings.space2, strings.asciiSpace.
  intros H.
  assert (Hc : strings.byte c = 225%N \/ strings.byte c = 226%N
               \/ strings.byte c = 227%N).
  { repeat (apply orb_prop in H as [H|H]);
      repeat (apply andb_prop in H as [H _]);
      apply N.eqb_eq in H; auto. }
  destruct Hc as [-> | [-> | ->]]; split; reflexivity.
Qed.

Lemma TrimLeft_whitespace l :
  strings.whitespace_bytes l -> strings.TrimLeft l = [].
Proof.
  induction 1 as [|t s Ht _ IH]; [reflexivity|].
  destruct Ht as [c Hc | c d Hcd | c d e Hcde]; simpl.
  - rewrite Hc. exact IH.
  - rewrite (space2_lead _ _ Hcd), Hcd. exact IH.
  - destruct (space3_lead _ _ _ Hcde) as [-> ->]. rewrite Hcde. exact IH.
Qed.

Lemma TrimSpace_whitespace s :
  strings.whitespace_only s -> strings.TrimSpace s = "".
Proof.
  intros H. unfold strings.TrimSpace.
  rewrite (TrimLeft_whitespace _ H). reflexivity.
Qed.

Lemma next_client_some h :
  (index h < clients h)%nat ->
  exists h', next_client h = Some (index h, h')
             /\ (index h' < clients h')%nat.
Proof.
  intros H. unfold next_client.
  destruct (Nat.ltb_spec (index h) (clients h)); [|lia].
  eexists; split; [reflexivity|]. simpl.
  apply Nat.mod_upper_bound. lia.
Qed.

Lemma calls_app w1 w2 : calls (w1 ++ w2) = (calls w1 ++ calls w2)%list.
Proof. unfold calls. apply omap_app. Qed.

Lemma on_error_continue {A} err attempt :
  exists e after, @on_error A err attempt = Continue e after
                  /\ calls after = [].
Proof.
  unfold on_error.
  destruct (As_APIError err) as [code|];
    repeat match goal with
           | |- context [if ?b then _ else _] => destruct b
           end; eauto.
Qed.

Lemma translate_step_calls resp attempt e after :
  translate_step resp attempt = Continue e after -> calls after = [].
Proof.
  destruct resp as [[|choice rest] [err|]]; simpl.
  - destruct (@on_error_continue string err attempt) as (e' & a' & -> & Hc).
    intros [= <- <-]. exact Hc.
  - intros [= <- <-]. reflexivity.
  - destruct (@on_error_continue string err attempt) as (e' & a' & -> & Hc).
    intros [= <- <-]. exact Hc.
  - destruct (_ || _); [|discriminate]. intros [= <- <-]. reflexivity.
Qed.

Section Translate.

Variable CreateChatCompletion :
  list effect -> nat -> ChatCompletionRequest -> list string * option error.

Abbreviation Translate_loop := (gpt.Translate_loop CreateChatCompletion).

(** A blank answer makes the iteration continue. *)
Lemma translate_step_blank choice rest attempt :
  strings.whitespace_only choice ->
  translate_step (choice :: rest, None) attempt
  = Continue (errorString "received empty translation") [].
Proof.
  intros H. simpl. rewrite (TrimSpace_whitespace _ H). reflexivity.
Qed.

(** The loop with [left] iterations to run issues at most [left] calls; when
    it ends in an error it has issued exactly [left] calls, the text is
    empty, and the error wraps [lastErr] as it stands after the last
    iteration. *)
Lemma Translate_loop_spec text lang left :
  forall attempt lastErr h w,
    (index h < clients h)%nat ->
    exists res h' w',
      Translate_loop left attempt lastErr text lang h w = Some (res, h', w')
      /\ (index h' < clients h')%nat
      /\ (length (calls w') <= length (calls w) + left)%nat
      /\ (forall e, res.2 = Some e ->
            res.1 = ""
            /\ length (calls w') = (length (calls w) + left)%nat
            /\ match left with
               | O => e = Errorf_w "failed to translate after 3 attempts" lastErr
               | S _ =>
                   exists cause w2 client after,
                     w' = (w2 ++ Call client (translate_request text lang) :: after)%list
                     /\ translate_step
                          (CreateChatCompletion w2 client (translate_request text lang))
                          (attempt + Z.of_nat left - 1)
                        = Continue cause after
                     /\ e = wrapError "failed to translate after 3 attempts" cause
               end).
Proof.
  induction left as [|left IH]; intros attempt lastErr h w Hh.
  - simpl. eexists _, _, _; split; [reflexivity|].
    split; [exact Hh|]. split; [lia|].
    intros e [= <-]. simpl. split; [reflexivity|]. split; [lia|reflexivity].
  - destruct (next_client_some h Hh) as (h1 & Hn & Hh1).
    cbn [gpt.Translate_loop]. rewrite Hn.
    destruct (translate_step _ attempt) as [result | e1 after] eqn:Hstep.
    + eexists _, _, _; split; [reflexivity|].
      split; [exact Hh1|].
      split; [rewrite calls_app; simpl; rewrite length_app; simpl; lia|].
      intros e; simpl; discriminate.
    + destruct (IH (attempt + 1)%Z (Some e1) h1
                  ((w ++ [Call (index h) (translate_request text lang)]) ++ after)%list
                  Hh1)
        as (res & h' & w' & Heq & Hh' & Hle & Herr).
      pose proof (translate_step_calls _ _ _ _ Hstep) as Hafter.
      assert (Hlen : length (calls ((w ++ [Call (index h) (translate_request text lang)]) ++ after))
                     = S (length (calls w))).
      { rewrite !calls_app, Hafter, !length_app. simpl. lia. }
      rewrite Hlen in Hle, Herr.
      exists res, h', w'. split; [exact Heq|]. split; [exact Hh'|].
      split; [lia|].
      intros e He. destruct (Herr e He) as (Hr & Hc & Hlast).
      split; [exact Hr|]. split; [lia|].
      destruct left as [|left'].
      * simpl in Heq. injection Heq as <- <- <-.
        exists e1, w, (index h), after.
        split; [rewrite <- app_assoc; reflexivity|].
        split; [|exact Hlast].
        replace (attempt + Z.of_nat 1 - 1)%Z with attempt by lia. exact Hstep.
      * destruct Hlast as (cause & w2 & client & after' & Hw & Hs & He').
        exists cause, w2, client, after'. split; [exact Hw|]. split; [|exact He'].
        replace (attempt + Z.of_nat (S (S left')) - 1)%Z
          with (attempt + 1 + Z.of_nat (S left') - 1)%Z by lia.
        exact Hs.
Qed.

(** The locked block on a pool that is not empty. *)
Lemma next_client_eq h :
  (index h < clients h)%nat ->
  next_client h
  = Some (index h,
          {| index := (index h + 1) mod clients h; clients := clients h |}).
Proof.
  intros H. unfold next_client.
  destruct (Nat.ltb_spec (index h) (clients h)); [reflexivity|lia].
Qed.

(** An iteration returns exactly when the answer has no error and a first
    choice whose text, trimmed, is neither empty nor one space. *)
Lemma translate_step_Return resp attempt r :
  translate_step resp attempt = Return r <->
  exists choice rest,
    resp = (choice :: rest, None)
    /\ r = strings.TrimSpace choice /\ r <> "" /\ r <> " ".
Proof.
  split.
  - destruct resp as [[|choice rest] [err|]]; simpl.
    + destruct (@on_error_continue string err attempt) as (e' & a' & -> & _).
      discriminate.
    + discriminate.
    + destruct (@on_error_continue string err attempt) as (e' & a' & -> & _).
      discriminate.
    + destruct (String.eqb_spec (strings.TrimSpace choice) "") as [|H1];
        [discriminate|].
      destruct (String.eqb_spec (strings.TrimSpace choice) " ") as [|H2];
        [discriminate|].
      simpl. intros [= <-]. exists choice, rest. auto.
  - intros (choice & rest & -> & -> & H1 & H2). simpl.
    destruct (String.eqb_spec (strings.TrimSpace choice) ""); [contradiction|].
    destruct (String.eqb_spec (strings.TrimSpace choice) " "); [contradiction|].
    reflexivity.
Qed.

(** One iteration of the loop on a pool that is not empty. *)
Lemma Translate_loop_S left attempt lastErr text lang h w :
  (index h < clients h)%nat ->
  Translate_loop (S left) attempt lastErr text lang h w
  = match translate_step
            (CreateChatCompletion w (index h) (translate_request text lang))
            attempt with
    | Return result =>
        Some ((result, None),
              {| index := (index h + 1) mod clients h; clients := clients h |},
              (w ++ [Call (index h) (translate_request text lang)])%list)
    | Continue e after =>
        Translate_loop left (attempt + 1) (Some e) text lang
          {| index := (index h + 1) mod clients h; clients := clients h |}
          ((w ++ [Call (index h) (translate_request text lang)]) ++ after)%list
    end.
Proof.
  intros H. cbn [gpt.Translate_loop]. rewrite (next_client_eq h H).
  reflexivity.
Qed.

(** The three iterations of [Translate], one after the other: the clients
    they use, the effects each one starts from, and what is returned. *)
Lemma Translate_attempts text lang h w :
  (index h < clients h)%nat ->
  gpt.Translate CreateChatCompletion text lang h w
  = let req := translate_request text lang in
    let c1 := ((index h + 1) mod clients h)%nat in
    let c2 := ((index h + 2) mod clients h)%nat in
    let c3 := ((index h + 3) mod clients h)%nat in
    match translate_step (CreateChatCompletion w (index h) req) 0 with
    | Return r =>
        Some ((r, None), {| index := c1; clients := clients h |},
              (w ++ [Call (index h) req])%list)
    | Continue e0 a0 =>
        let w1 := ((w ++ [Call (index h) req]) ++ a0)%list in
        match translate_step (CreateChatCompletion w1 c1 req) 1 with
        | Return r =>
            Some ((r, None), {| index := c2; clients := clients h |},
                  (w1 ++ [Call c1 req])%list)
        | Continue e1 a1 =>
            let w2 := ((w1 ++ [Call c1 req]) ++ a1)%list in
            match translate_step (CreateChatCompletion w2 c2 req) 2 with
            | Return r =>
                Some ((r, None), {| index := c3; clients := clients h |},
                      (w2 ++ [Call c2 req])%list)
            | Continue e2 a2 =>
                Some (("", Some (wrapError "failed to translate after 3 attempts" e2)),
                      {| index := c3; clients := clients h |},
                      ((w2 ++ [Call c2 req]) ++ a2)%list)
            end
        end
    end.
Proof.
  intros Hh. unfold gpt.Translate. cbv zeta.
  assert (Hpos : clients h <> 0%nat) by lia.
  assert (H1 : (index {| index := (index h + 1) mod clients h;
                         clients := clients h |}
                < clients {| index := (index h + 1) mod clients h;
                             clients := clients h |})%nat).
  { cbn [index clients]. apply Nat.mod_upper_bound. exact Hpos. }
  assert (H2 : (index {| index := (index h + 2) mod clients h;
                         clients := clients h |}
                < clients {| index := (index h + 2) mod clients h;
                             clients := clients h |})%nat).
  { cbn [index clients]. apply Nat.mod_upper_bound. exact Hpos. }
  assert (E2 : (((index h + 1) mod clients h + 1) mod clients h
                = (index h + 2) mod clients h)%nat).
  { rewrite Nat.Div0.add_mod_idemp_l. f_equal. lia. }
  assert (E3 : (((index h + 2) mod clients h + 1) mod clients h
                = (index h + 3) mod clients h)%nat).
  { rewrite Nat.Div0.add_mod_idemp_l. f_equal. lia. }
  rewrite (Translate_loop_S _ _ _ _ _ _ _ Hh).
  destruct (translate_step _ 0) as [r | e0 a0]; [reflexivity|].
  rewrite (Translate_loop_S _ _ _ _ _ _ _ H1). cbn [index clients].
  rewrite E2. change (0 + 1)%Z with 1%Z.
  destruct (translate_step _ 1) as [r | e1 a1]; [reflexivity|].
  rewrite (Translate_loop_S _ _ _ _ _ _ _ H2). cbn [index clients].
  rewrite E3. change (1 + 1)%Z with 2%Z.
  destruct (translate_step _ 2) as [r | e2 a2]; reflexivity.
Qed.

(** C6. [Translate] returns, having issued at most 3 calls of the service,
    one per attempt.  An attempt succeeds exactly when the answer has no
    error and a first choice whose text, trimmed of white space, is neither
    empty nor one space; every other answer, a text that is empty or white
    space only included, is a failed attempt.  The first attempt that
    succeeds ends the call with the trimmed text and a nil error.  After a
    failed first attempt a second call is issued, after a failed second
    attempt a third one, each with the next client of the pool.  When all
    3 attempts fail, the returned text is empty and the returned error
    wraps the cause recorded for the third answer; and a returned error
    that is not nil comes from nowhere else: then the returned text is
    empty, exactly 3 calls were issued, and the error wraps the cause
    recorded for the third answer. *)
Theorem Translate_three_attempts text lang h w :
  (index h < clients h)%nat ->
  exists res h' w',
    gpt.Translate CreateChatCompletion text lang h w = Some (res, h', w')
    /\ (length (calls w') <= length (calls w) + 3)%nat
    /\ (forall choice rest attempt,
          strings.whitespace_only choice ->
          translate_step (choice :: rest, None) attempt
          = Continue (errorString "received empty translation") [])
    /\ (forall choice rest,
          CreateChatCompletion w (index h) (translate_request text lang)
          = (choice :: rest, None) ->
          strings.whitespace_only choice ->
          (length (calls w) + 2 <= length (calls w'))%nat)
    /\ (forall e, res.2 = Some e ->
          res.1 = ""
          /\ length (calls w') = (length (calls w) + 3)%nat
          /\ exists cause w2 client after,
               w' = (w2 ++ Call client (translate_request text lang) :: after)%list
               /\ translate_step
                    (CreateChatCompletion w2 client (translate_request text lang)) 2
                  = Continue cause after
               /\ e = wrapError "failed to translate after 3 attempts" cause)
    /\ (forall resp attempt,
          (forall r,
              translate_step resp attempt = Return r <->
              exists choice rest,
                resp = (choice :: rest, None)
                /\ r = strings.TrimSpace choice /\ r <> "" /\ r <> " ")
          /\ ((exists e after, translate_step resp attempt = Continue e after) <->
              ~ exists choice rest,
                  resp = (choice :: rest, None)
                  /\ strings.TrimSpace choice <> ""
                  /\ strings.TrimSpace choice <> " "))
    /\ (let req := translate_request text lang in
        let c1 := ((index h + 1) mod clients h)%nat in
        let c2 := ((index h + 2) mod clients h)%nat in
        (forall r,
            translate_step (CreateChatCompletion w (index h) req) 0 = Return r ->
            res = (r, None) /\ w' = (w ++ [Call (index h) req])%list)
        /\ (forall e0 a0,
              translate_step (CreateChatCompletion w (index h) req) 0
              = Continue e0 a0 ->
              let w1 := ((w ++ [Call (index h) req]) ++ a0)%list in
              (length (calls w) + 2 <= length (calls w'))%nat
              /\ (forall r,
                    translate_step (CreateChatCompletion w1 c1 req) 1 = Return r ->
                    res = (r, None) /\ w' = (w1 ++ [Call c1 req])%list)
              /\ (forall e1 a1,
                    translate_step (CreateChatCompletion w1 c1 req) 1
                    = Continue e1 a1 ->
                    let w2 := ((w1 ++ [Call c1 req]) ++ a1)%list in
                    length (calls w') = (length (calls w) + 3)%nat
                    /\ (forall r,
                          translate_step (CreateChatCompletion w2 c2 req) 2
                          = Return r ->
                          res = (r, None) /\ w' = (w2 ++ [Call c2 req])%list)
                    /\ (forall e2 a2,
                          translate_step (CreateChatCompletion w2 c2 req) 2
                          = Continue e2 a2 ->
                          res = ("", Some (wrapError
                                             "failed to translate after 3 attempts"
                                             e2))
                          /\ w' = ((w2 ++ [Call c2 req]) ++ a2)%list)))).
Proof.
  intros Hh. unfold gpt.Translate.
  destruct (Translate_loop_spec text lang 3 0 None h w Hh)
    as (res & h' & w' & Heq & _ & Hle & Herr).
  exists res, h', w'. split; [exact Heq|]. split; [exact Hle|].
  split; [intros; apply translate_step_blank; assumption|].
  split; [|split; [exact Herr|split]].
  - intros choice rest Hresp Hblank.
    destruct (next_client_some h Hh) as (h1 & Hn & Hh1).
    cbn [gpt.Translate_loop] in Heq. rewrite Hn, Hresp in Heq.
    rewrite (translate_step_blank _ _ _ Hblank) in Heq.
    destruct (next_client_some h1 Hh1) as (h2 & Hn2 & Hh2).
    rewrite Hn2 in Heq.
    destruct (translate_step _ (0 + 1)) as [result | e1 after] eqn:Hstep.
    + injection Heq as <- <- <-. rewrite !calls_app, !length_app. simpl. lia.
    + destruct (next_client_some h2 Hh2) as (h3 & Hn3 & Hh3).
      rewrite Hn3 in Heq.
      destruct (translate_step _ (0 + 1 + 1)) as [result | e2 after2];
        injection Heq as <- <- <-;
        rewrite !calls_app, !length_app; simpl; lia.
  - intros resp attempt. split; [intros r; apply translate_step_Return|].
    split.
    + intros (e & after & Hc) (choice & rest & -> & H1 & H2).
      assert (Hr : translate_step (choice :: rest, None) attempt
                   = Return (strings.TrimSpace choice)).
      { apply translate_step_Return. exists choice, rest. auto. }
      congruence.
    + intros Hno.
      destruct (translate_step resp attempt) as [r | e after] eqn:Hs;
        [|eauto].
      exfalso. apply Hno.
      apply translate_step_Return in Hs.
      destruct Hs as (choice & rest & -> & -> & H1 & H2).
      exists choice, rest. auto.
  - change (gpt.Translate CreateChatCompletion text lang h w
            = Some (res, h', w')) in Heq.
    rewrite (Translate_attempts text lang h w Hh) in Heq.
    cbv zeta in Heq |- *.
    split.
    + intros r Hs. rewrite Hs in Heq. injection Heq as <- _ <-. auto.
    + intros e0 a0 Hs0. rewrite Hs0 in Heq.
      pose proof (translate_step_calls _ _ _ _ Hs0) as Ha0.
      split; [|split].
      * destruct (translate_step _ 1) as [r | e1 a1];
          [injection Heq as <- _ <-;
           rewrite !calls_app, !length_app; simpl; lia|].
        destruct (translate_step _ 2) as [r | e2 a2];
          injection Heq as <- _ <-;
          rewrite !calls_app, !length_app; simpl; lia.
      * intros r Hs. rewrite Hs in Heq. injection Heq as <- _ <-. auto.
      * intros e1 a1 Hs1. rewrite Hs1 in Heq.
        pose proof (translate_step_calls _ _ _ _ Hs1) as Ha1.
        split; [|split].
        -- destruct (translate_step _ 2) as [r | e2 a2] eqn:Hs2;
             injection Heq as <- _ <-;
             [|pose proof (translate_step_calls _ _ _ _ Hs2) as Ha2];
             rewrite !calls_app, ?Ha0, ?Ha1, ?Ha2, !length_app; simpl; lia.
        -- intros r Hs. rewrite Hs in Heq. injection Heq as <- _ <-. auto.
        -- intros e2 a2 Hs. rewrite Hs in Heq. injection Heq as <- _ <-. auto.
Qed.


End Translate.

Section BatchTranslate.

Variable CreateChatCompletion :
  list effect -> nat -> ChatCompletionRequest -> list string * option error.
Variable json_Marshal : list string -> string * option error.
Variable json_Unmarshal_result :
  string -> list string -> list string * option error.
Variable json_Unmarshal_slice : string -> list string * option error.

Abbreviation parse_translations :=
  (gpt.parse_translations json_Unmarshal_result json_Unmarshal_slice).
Abbreviation batch_step :=
  (gpt.batch_step json_Unmarshal_result json_Unmarshal_slice).
Abbreviation BatchTranslate_loop :=
  (gpt.BatchTranslate_loop CreateChatCompletion json_Marshal
     json_Unmarshal_result json_Unmarshal_slice).

Lemma slice_len_eq (l1 l2 : list string) :
  (slice_len l1 =? slice_len l2)%Z = true -> length l1 = length l2.
Proof. unfold slice_len. intros H. apply Z.eqb_eq in H. lia. Qed.

(** Each of the three approaches accepts an array of the length of the
    input only. *)
Lemma parse_translations_length content texts translations :
  parse_translations content texts = Return translations ->
  length translations = length texts.
Proof.
  unfold gpt.parse_translations.
  destruct (json_Unmarshal_result content []) as [result1 err1].
  destruct (bool_decide (err1 = None) && (slice_len result1 =? slice_len texts)%Z)
    eqn:H1.
  { intros [= <-]. apply andb_prop in H1 as [_ H1]. by apply slice_len_eq. }
  destruct (strings.HasPrefix content "[" && strings.HasSuffix content "]").
  { destruct (json_Unmarshal_slice content) as [ts err].
    destruct (negb (bool_decide (err = None))) eqn:He; simpl; [discriminate|].
    destruct (slice_len ts =? slice_len texts)%Z eqn:H2; simpl; [|discriminate].
    intros [= <-]. by apply slice_len_eq. }
  destruct ((0 <=? _)%Z && _); [|discriminate].
  destruct (json_Unmarshal_result _ result1) as [result3 err3].
  destruct (bool_decide (err3 = None) && (slice_len result3 =? slice_len texts)%Z)
    eqn:H3; [|discriminate].
  intros [= <-]. apply andb_prop in H3 as [_ H3]. by apply slice_len_eq.
Qed.

Lemma batch_step_length resp texts attempt translations :
  batch_step resp texts attempt = Return translations ->
  length translations = length texts.
Proof.
  destruct resp as [[|choice rest] [err|]]; simpl.
  - destruct (@on_error_continue (list string) err attempt) as (e & a & -> & _).
    discriminate.
  - discriminate.
  - destruct (@on_error_continue (list string) err attempt) as (e & a & -> & _).
    discriminate.
  - apply parse_translations_length.
Qed.

Lemma parse_translations_calls content texts e after :
  parse_translations content texts = Continue e after -> calls after = [].
Proof.
  unfold gpt.parse_translations.
  repeat match goal with
         | |- context [let '(_, _) := ?p in _] => destruct p
         | |- context [if ?b then _ else _] => destruct b
         end; intros [= <- <-] || discriminate; reflexivity.
Qed.

Lemma batch_step_calls resp texts attempt e after :
  batch_step resp texts attempt = Continue e after -> calls after = [].
Proof.
  destruct resp as [[|choice rest] [err|]]; simpl.
  - destruct (@on_error_continue (list string) err attempt) as (e' & a' & -> & Hc).
    intros [= <- <-]. exact Hc.
  - intros [= <- <-]. reflexivity.
  - destruct (@on_error_continue (list string) err attempt) as (e' & a' & -> & Hc).
    intros [= <- <-]. exact Hc.
  - apply parse_translations_calls.
Qed.

(** The validation loop does not panic on arrays of the same length. *)
Lemma validate_some translations :
  forall texts lastErr,
    length translations = length texts ->
    is_Some (validate translations texts lastErr).
Proof.
  induction translations as [|t ts IH]; intros texts lastErr Hlen; simpl.
  - eauto.
  - destruct texts as [|x xs]; [discriminate|]. simpl in Hlen.
    destruct (gpt.is_blank t); apply IH; simpl; lia.
Qed.

(** An accepted array is returned as it is, by the iteration that parsed
    it: blank elements are neither removed nor a reason to call again. *)
Lemma BatchTranslate_loop_accept left attempt lastErr texts lang h w
    textsJSON client h1 translations :
  json_Marshal texts = (textsJSON, None) ->
  next_client h = Some (client, h1) ->
  batch_step (CreateChatCompletion w client (batch_request textsJSON lang))
    texts attempt = Return translations ->
  BatchTranslate_loop (S left) attempt lastErr texts lang h w
  = Some ((translations, None), h1,
          (w ++ [Call client (batch_request textsJSON lang)])%list).
Proof.
  intros Hm Hn Hs. cbn [gpt.BatchTranslate_loop]. rewrite Hm, Hn, Hs.
  destruct (validate_some translations texts lastErr
              (batch_step_length _ _ _ _ Hs)) as [e ->].
  reflexivity.
Qed.

Lemma BatchTranslate_loop_spec texts lang left :
  forall attempt lastErr h w,
    (index h < clients h)%nat ->
    exists res h' w',
      BatchTranslate_loop left attempt lastErr texts lang h w
      = Some (res, h', w')
      /\ (length (calls w') <= length (calls w) + left)%nat
      /\ (res.2 = None -> length res.1 = length texts).
Proof.
  induction left as [|left IH]; intros attempt lastErr h w Hh.
  - simpl. eexists _, _, _; split; [reflexivity|]. split; [lia|]. discriminate.
  - cbn [gpt.BatchTranslate_loop].
    destruct (json_Marshal texts) as [textsJSON [err|]].
    { eexists _, _, _; split; [reflexivity|]. split; [lia|]. discriminate. }
    destruct (next_client_some h Hh) as (h1 & Hn & Hh1). rewrite Hn.
    destruct (batch_step _ texts attempt) as [translations | e1 after] eqn:Hstep.
    + pose proof (batch_step_length _ _ _ _ Hstep) as Hlen.
      destruct (validate_some translations texts lastErr Hlen) as [e ->].
      eexists _, _, _; split; [reflexivity|].
      split; [rewrite calls_app, length_app; simpl; lia|].
      intros _. exact Hlen.
    + destruct (IH (attempt + 1)%Z (Some e1) h1
                  ((w ++ [Call (index h) (batch_request textsJSON lang)]) ++ after)%list
                  Hh1)
        as (res & h' & w' & Heq & Hle & Hres).
      pose proof (batch_step_calls _ _ _ _ _ Hstep) as Hafter.
      rewrite !calls_app, Hafter, !length_app in Hle. simpl in Hle.
      exists res, h', w'. split; [exact Heq|]. split; [lia|exact Hres].
Qed.

(** C7. [BatchTranslate] returns, and when its error is nil the returned
    list has the length of the input.  Each parsing approach accepts an
    array of that length only, and an accepted array is returned unchanged
    by the iteration that parsed it, whatever its elements are: blank
    elements are not removed and cause no further call. *)
Theorem BatchTranslate_same_length texts lang h w :
  (index h < clients h)%nat ->
  (exists res h' w',
     gpt.BatchTranslate CreateChatCompletion json_Marshal
       json_Unmarshal_result json_Unmarshal_slice texts lang h w
     = Some (res, h', w')
     /\ (length (calls w') <= length (calls w) + 3)%nat
     /\ (res.2 = None -> length res.1 = length texts))
  /\ (forall content translations,
        parse_translations content texts = Return translations ->
        length translations = length texts)
  /\ (forall left attempt lastErr h0 w0 textsJSON client h1 translations,
        json_Marshal texts = (textsJSON, None) ->
        next_client h0 = Some (client, h1) ->
        batch_step (CreateChatCompletion w0 client (batch_request textsJSON lang))
          texts attempt = Return translations ->
        BatchTranslate_loop (S left) attempt lastErr texts lang h0 w0
        = Some ((translations, None), h1,
                (w0 ++ [Call client (batch_request textsJSON lang)])%list)).
Proof.
  intros Hh. split; [|split].
  - apply BatchTranslate_loop_spec. exact Hh.
  - intros content translations. apply parse_translations_length.
  - intros. by apply BatchTranslate_loop_accept.
Qed.

End BatchTranslate.

(** *** The text cut out of an answer *)

Lemma IndexByte_spec s c :
  strings.IndexByte s c = (-1)%Z
  \/ ((0 <= strings.IndexByte s c < strings.len s)%Z
      /\ String.get (Z.to_nat (strings.IndexByte s c)) s = Some c).
Proof.
  unfold strings.len. induction s as [|d r IH]; [by left|].
  cbn [strings.IndexByte].
  destruct (Ascii.eqb d c) eqn:Hd.
  { right. apply Ascii.eqb_eq in Hd as ->. simpl. split; [lia|reflexivity]. }
  destruct (Z.ltb_spec (strings.IndexByte r c) 0); [by left|].
  right. destruct IH as [IH|[IH1 IH2]]; [lia|].
  split; [simpl String.length; lia|].
  replace (Z.to_nat (1 + strings.IndexByte r c))
    with (S (Z.to_nat (strings.IndexByte r c))) by lia.
  exact IH2.
Qed.

Lemma LastIndexByte_spec s c :
  strings.LastIndexByte s c = (-1)%Z
  \/ ((0 <= strings.LastIndexByte s c < strings.len s)%Z
      /\ String.get (Z.to_nat (strings.LastIndexByte s c)) s = Some c).
Proof.
  unfold strings.len. induction s as [|d r IH]; [by left|].
  cbn [strings.LastIndexByte].
  destruct (Z.leb_spec 0 (strings.LastIndexByte r c)).
  { right. destruct IH as [IH|[IH1 IH2]]; [lia|].
    split; [simpl String.length; lia|].
    replace (Z.to_nat (1 + strings.LastIndexByte r c))
      with (S (Z.to_nat (strings.LastIndexByte r c))) by lia.
    exact IH2. }
  destruct (Ascii.eqb d c) eqn:Hd; [|by left].
  right. apply Ascii.eqb_eq in Hd as ->. simpl. split; [lia|reflexivity].
Qed.

Lemma length_substring s :
  forall n m,
    (n + m <= String.length s)%nat ->
    String.length (String.substring n m s) = m.
Proof.
  induction s as [|c s IH]; intros [|n] [|m]; simpl; intros H;
    try reflexivity; try lia.
  - f_equal. apply (IH 0%nat). simpl. lia.
  - apply IH. lia.
  - apply IH. lia.
Qed.

Lemma substring_one s :
  forall n c, String.get n s = Some c ->
              String.substring n 1 s = String c EmptyString.
Proof.
  induction s as [|d s IH]; intros [|n] c; simpl; try discriminate.
  - intros [= ->]. by destruct s.
  - apply IH.
Qed.

Lemma HasPrefix_get s c :
  String.get 0 s = Some c -> strings.HasPrefix s (String c EmptyString) = true.
Proof.
  unfold strings.HasPrefix. destruct s as [|d s]; simpl; [discriminate|].
  intros [= ->]. destruct (ascii_dec c c); [by destruct s|congruence].
Qed.

Lemma HasSuffix_get s c :
  (1 <= String.length s)%nat ->
  String.get (String.length s - 1) s = Some c ->
  strings.HasSuffix s (String c EmptyString) = true.
Proof.
  intros Hl Hg. unfold strings.HasSuffix. simpl String.length.
  rewrite (substring_one _ _ _ Hg), String.eqb_refl, andb_true_r.
  by apply Nat.leb_le.
Qed.

(** X4. The third way [BatchTranslate] reads an answer cuts the text from
    the first opening brace to the last closing brace.  Under the test the
    code makes ([startIdx >= 0 && endIdx > startIdx]) the slice expression
    [content[startIdx : endIdx+1]] is within the bounds of the text, and the
    text cut out has [endIdx + 1 - startIdx] bytes, starts with an opening
    brace and ends with a closing brace. *)
Theorem extracted_json_is_in_bounds content :
  let startIdx := strings.IndexByte content "{" in
  let endIdx := strings.LastIndexByte content "}" in
  ((0 <=? startIdx) && (startIdx <? endIdx))%Z = true ->
  (0 <= startIdx)%Z
  /\ (endIdx + 1 <= strings.len content)%Z
  /\ strings.len (strings.slice content startIdx (endIdx + 1))
     = (endIdx + 1 - startIdx)%Z
  /\ strings.HasPrefix (strings.slice content startIdx (endIdx + 1)) "{" = true
  /\ strings.HasSuffix (strings.slice content startIdx (endIdx + 1)) "}" = true.
Proof.
  intros startIdx endIdx H.
  apply andb_prop in H as [H1 H2].
  apply Z.leb_le in H1. apply Z.ltb_lt in H2.
  destruct (IndexByte_spec content "{") as [Hs|[Hs1 Hs2]];
    fold startIdx in Hs || fold startIdx in Hs1, Hs2; [lia|].
  destruct (LastIndexByte_spec content "}") as [He|[He1 He2]];
    fold endIdx in He || fold endIdx in He1, He2; [lia|].
  unfold strings.len in *.
  assert (Hlen : String.length (strings.slice content startIdx (endIdx + 1))
                 = Z.to_nat (endIdx + 1 - startIdx)).
  { unfold strings.slice. apply length_substring. lia. }
  split; [exact H1|]. split; [lia|]. split; [rewrite Hlen; lia|].
  split.
  - apply HasPrefix_get. unfold strings.slice.
    rewrite String.substring_correct1 by lia. exact Hs2.
  - apply HasSuffix_get; [rewrite Hlen; lia|].
    rewrite Hlen. unfold strings.slice.
    rewrite String.substring_correct1 by lia.
    replace (Z.to_nat (endIdx + 1 - startIdx) - 1 + Z.to_nat startIdx)%nat
      with (Z.to_nat endIdx) by lia.
    exact He2.
Qed.


(** *** The rotation of the clients and the waiting times *)

Lemma next_client_inv h client h' :
  next_client h = Some (client, h') ->
  (index h < clients h)%nat
  /\ client = index h
  /\ clients h' = clients h
  /\ index h' = ((index h + 1) mod clients h)%nat.
Proof.
  unfold next_client.
  destruct (Nat.ltb_spec (index h) (clients h)); [|discriminate].
  intros [= <- <-]. auto.
Qed.

Lemma rotation_S h client h' n :
  next_client h = Some (client, h') ->
  rotation h (S n) = client :: rotation h' n.
Proof.
  intros H. apply next_client_inv in H as (Hlt & -> & Hc & Hi).
  unfold rotation. rewrite <- cons_seq, <- seq_shift. simpl.
  rewrite Nat.add_0_r, Nat.mod_small by exact Hlt. f_equal.
  rewrite List.map_map. apply List.map_ext. intros i.
  rewrite Hc, Hi, Nat.Div0.add_mod_idemp_l. f_equal. lia.
Qed.

Lemma rotation_index h client h' n :
  next_client h = Some (client, h') ->
  ((index h' + n) mod clients h' = (index h + S n) mod clients h)%nat.
Proof.
  intros H. apply next_client_inv in H as (Hlt & -> & Hc & Hi).
  rewrite Hc, Hi, Nat.Div0.add_mod_idemp_l. f_equal. lia.
Qed.

Lemma slept_app w1 w2 : slept (w1 ++ w2) = (slept w1 + slept w2)%Z.
Proof.
  unfold slept. induction w1 as [|e w1 IH]; simpl; [reflexivity|].
  rewrite IH. destruct e; lia.
Qed.

(** The waiting time after a failed attempt: nothing, or one or two seconds
    more than the number of the attempt. *)
Lemma on_error_slept {A} err attempt :
  exists e after,
    @on_error A err attempt = Continue e after
    /\ (slept after = 0 \/ slept after = 1 + attempt
        \/ slept after = 2 + attempt)%Z.
Proof.
  unfold on_error.
  destruct (As_APIError err) as [code|];
    repeat match goal with
           | |- context [if ?b then _ else _] => destruct b
           end;
    eexists _, _; (split; [reflexivity|]); simpl; lia.
Qed.

Lemma translate_step_slept resp attempt e after :
  translate_step resp attempt = Continue e after ->
  (slept after = 0 \/ slept after = 1 + attempt \/ slept after = 2 + attempt)%Z.
Proof.
  destruct resp as [[|choice rest] [err|]]; simpl.
  - destruct (@on_error_slept string err attempt) as (e' & a' & -> & Hc).
    intros [= <- <-]. exact Hc.
  - intros [= <- <-]. by left.
  - destruct (@on_error_slept string err attempt) as (e' & a' & -> & Hc).
    intros [= <- <-]. exact Hc.
  - destruct (_ || _); [|discriminate]. intros [= <- <-]. by left.
Qed.

Section Rotation.

Variable CreateChatCompletion :
  list effect -> nat -> ChatCompletionRequest -> list string * option error.
Variable json_Marshal : list string -> string * option error.
Variable json_Unmarshal_result :
  string -> list string -> list string * option error.
Variable json_Unmarshal_slice : string -> list string * option error.

Abbreviation Translate_loop := (gpt.Translate_loop CreateChatCompletion).
Abbreviation batch_step :=
  (gpt.batch_step json_Unmarshal_result json_Unmarshal_slice).
Abbreviation BatchTranslate_loop :=
  (gpt.BatchTranslate_loop CreateChatCompletion json_Marshal
     json_Unmarshal_result json_Unmarshal_slice).

Lemma batch_step_slept resp texts attempt e after :
  batch_step resp texts attempt = Continue e after ->
  (slept after = 0 \/ slept after = 1 + attempt \/ slept after = 2 + attempt)%Z.
Proof.
  destruct resp as [[|choice rest] [err|]]; simpl.
  - destruct (@on_error_slept (list string) err attempt) as (e' & a' & -> & Hc).
    intros [= <- <-]. exact Hc.
  - intros [= <- <-]. by left.
  - destruct (@on_error_slept (list string) err attempt) as (e' & a' & -> & Hc).
    intros [= <- <-]. exact Hc.
  - unfold gpt.parse_translations.
    repeat match goal with
           | |- context [let '(_, _) := ?p in _] => destruct p
           | |- context [if ?b then _ else _] => destruct b
           end; intros [= <- <-] || discriminate; by left.
Qed.

(** What the retry loop of [Translate] does to the outside: it appends to
    what was done, every call carries the same request, the [i]-th call goes
    to the [i]-th client of the rotation, the handler ends [n] clients
    further, and twice the seconds slept are at most
    [left * (2 * attempt + left + 3)]. *)
Lemma Translate_loop_effects text lang left :
  forall attempt lastErr h w res h' w',
    (0 <= attempt)%Z ->
    Translate_loop left attempt lastErr text lang h w = Some (res, h', w') ->
    exists n d,
      w' = (w ++ d)%list
      /\ (n <= left)%nat
      /\ calls d = map (fun c => (c, translate_request text lang)) (rotation h n)
      /\ clients h' = clients h
      /\ (index h' + 0) mod clients h' = (index h + n) mod clients h
      /\ (0 <= slept d)%Z
      /\ (2 * slept d <= Z.of_nat left * (2 * attempt + Z.of_nat left + 3))%Z
      /\ (left <> O -> n <> O).
Proof.
  induction left as [|left IH]; intros attempt lastErr h w res h' w' Ha.
  - simpl. intros [= <- <- <-]. exists O, []%list.
    rewrite app_nil_r. simpl. repeat split; try lia; try reflexivity.
  - cbn [gpt.Translate_loop].
    destruct (next_client h) as [[client h1]|] eqn:Hn; [|discriminate].
    destruct (translate_step _ attempt) as [result | e1 after] eqn:Hstep.
    + intros [= <- <- <-]. exists 1%nat, [Call client (translate_request text lang)].
      rewrite (rotation_S _ _ _ _ Hn). simpl.
      pose proof (rotation_index _ _ _ 0 Hn) as Hi.
      apply next_client_inv in Hn as (_ & _ & Hc & _).
      repeat split; try lia; try assumption; try reflexivity.
    + intros Heq.
      apply IH in Heq as (n & d & -> & Hle & Hcalls & Hc & Hi & H0 & Hs & _);
        [|lia].
      pose proof (translate_step_calls _ _ _ _ Hstep) as Hafter.
      pose proof (translate_step_slept _ _ _ _ Hstep) as Hsl.
      exists (S n), (Call client (translate_request text lang) :: after ++ d)%list.
      split; [by rewrite <- !app_assoc|].
      split; [lia|].
      split.
      { rewrite (rotation_S _ _ _ _ Hn). simpl. f_equal.
        rewrite calls_app, Hafter. exact Hcalls. }
      pose proof (rotation_index _ _ _ n Hn) as Hi'.
      apply next_client_inv in Hn as (_ & _ & Hc1 & _).
      split; [congruence|].
      split; [rewrite Hi; exact Hi'|].
      change (Call client (translate_request text lang) :: after ++ d)%list
        with ([Call client (translate_request text lang)] ++ after ++ d)%list.
      rewrite !slept_app. simpl.
      split; [lia|]. split; [nia|lia].
Qed.

Lemma BatchTranslate_loop_effects texts lang left :
  forall attempt lastErr h w res h' w',
    (0 <= attempt)%Z ->
    BatchTranslate_loop left attempt lastErr texts lang h w
    = Some (res, h', w') ->
    exists n d,
      w' = (w ++ d)%list
      /\ (n <= left)%nat
      /\ calls d
         = map (fun c => (c, batch_request (json_Marshal texts).1 lang))
             (rotation h n)
      /\ clients h' = clients h
      /\ (index h' + 0) mod clients h' = (index h + n) mod clients h
      /\ (0 <= slept d)%Z
      /\ (2 * slept d <= Z.of_nat left * (2 * attempt + Z.of_nat left + 3))%Z
      /\ (left <> O -> (json_Marshal texts).2 = None -> n <> O).
Proof.
  induction left as [|left IH]; intros attempt lastErr h w res h' w' Ha.
  - simpl. intros [= <- <- <-]. exists O, []%list.
    rewrite app_nil_r. simpl. repeat split; try lia; try reflexivity.
  - cbn [gpt.BatchTranslate_loop].
    destruct (json_Marshal texts) as [textsJSON [err|]] eqn:Hm.
    { intros [= <- <- <-]. exists O, []%list.
      rewrite app_nil_r. simpl.
      repeat split; try lia; try reflexivity; try (intros _ [=]). }
    destruct (next_client h) as [[client h1]|] eqn:Hn; [|discriminate].
    destruct (batch_step _ texts attempt) as [translations | e1 after] eqn:Hstep.
    + destruct (validate _ _ _); [|discriminate].
      intros [= <- <- <-]. exists 1%nat, [Call client (batch_request textsJSON lang)].
      rewrite (rotation_S _ _ _ _ Hn). simpl.
      pose proof (rotation_index _ _ _ 0 Hn) as Hi.
      apply next_client_inv in Hn as (_ & _ & Hc & _).
      repeat split; try lia; try assumption; try reflexivity.
    + intros Heq.
      apply IH in Heq as (n & d & -> & Hle & Hcalls & Hc & Hi & H0 & Hs & _);
        [|lia].
      pose proof (batch_step_calls _ _ _ _ _ _ _ Hstep) as Hafter.
      pose proof (batch_step_slept _ _ _ _ _ Hstep) as Hsl.
      exists (S n), (Call client (batch_request textsJSON lang) :: after ++ d)%list.
      split; [by rewrite <- !app_assoc|].
      split; [lia|].
      split.
      { rewrite (rotation_S _ _ _ _ Hn). simpl. f_equal.
        rewrite calls_app, Hafter. exact Hcalls. }
      pose proof (rotation_index _ _ _ n Hn) as Hi'.
      apply next_client_inv in Hn as (_ & _ & Hc1 & _).
      split; [congruence|].
      split; [rewrite Hi; exact Hi'|].
      change (Call client (batch_request textsJSON lang) :: after ++ d)%list
        with ([Call client (batch_request textsJSON lang)] ++ after ++ d)%list.
      rewrite !slept_app. simpl.
      split; [lia|]. split; [nia|lia].
Qed.

(** A text returned without an error is the trimmed first choice of the
    answer to the last call, and it is not blank. *)
Lemma Translate_loop_success text lang left :
  forall attempt lastErr h w res h' w',
    Translate_loop left attempt lastErr text lang h w = Some (res, h', w') ->
    res.2 = None ->
    exists w2 client choice rest,
      w' = (w2 ++ [Call client (translate_request text lang)])%list
      /\ CreateChatCompletion w2 client (translate_request text lang)
         = (choice :: rest, None)
      /\ res.1 = strings.TrimSpace choice
      /\ res.1 <> "" /\ res.1 <> " ".
Proof.
  induction left as [|left IH]; intros attempt lastErr h w res h' w'.
  - simpl. intros [= <- <- <-]. discriminate.
  - cbn [gpt.Translate_loop].
    destruct (next_client h) as [[client h1]|] eqn:Hn; [|discriminate].
    destruct (translate_step _ attempt) as [result | e1 after] eqn:Hstep.
    + intros [= <- <- <-] _.
      destruct (CreateChatCompletion w client (translate_request text lang))
        as [[|choice rest] [err|]] eqn:Hresp; simpl in Hstep.
      * destruct (@on_error_continue string err attempt) as (e & a & He & _).
        congruence.
      * discriminate.
      * destruct (@on_error_continue string err attempt) as (e & a & He & _).
        congruence.
      * exists w, client, choice, rest.
        destruct (String.eqb (strings.TrimSpace choice) "") eqn:H1;
          [discriminate|].
        destruct (String.eqb (strings.TrimSpace choice) " ") eqn:H2;
          [discriminate|].
        simpl in Hstep. injection Hstep as <-.
        apply String.eqb_neq in H1, H2. simpl. auto.
    + apply IH.
Qed.

(** X1. Both methods take the clients in turn.  A call of [Translate] on a
    handler with at least one client returns after [n] calls of the service,
    with [n] between 1 and 3; all of them carry the same request, the [i]-th
    goes to client [(index + i) mod clients], and the handler is left [n]
    clients further, so that the next call goes on where this one stopped.
    The same holds for [BatchTranslate], which issues no call when the texts
    cannot be encoded. *)
Theorem clients_take_turns text texts lang h w :
  (index h < clients h)%nat ->
  (exists res h' d n,
     gpt.Translate CreateChatCompletion text lang h w
     = Some (res, h', (w ++ d)%list)
     /\ (1 <= n <= 3)%nat
     /\ calls d = map (fun c => (c, translate_request text lang)) (rotation h n)
     /\ clients h' = clients h
     /\ index h' = ((index h + n) mod clients h)%nat)
  /\ (exists res h' d n,
        gpt.BatchTranslate CreateChatCompletion json_Marshal
          json_Unmarshal_result json_Unmarshal_slice texts lang h w
        = Some (res, h', (w ++ d)%list)
        /\ (n <= 3)%nat
        /\ ((json_Marshal texts).2 = None -> (1 <= n)%nat)
        /\ calls d
           = map (fun c => (c, batch_request (json_Marshal texts).1 lang))
               (rotation h n)
        /\ clients h' = clients h
        /\ index h' = ((index h + n) mod clients h)%nat).
Proof.
  intros Hh. split.
  - unfold gpt.Translate.
    destruct (Translate_loop_spec CreateChatCompletion text lang 3 0 None h w Hh)
      as (res & h' & w' & Heq & Hh' & _).
    destruct (Translate_loop_effects _ _ _ _ _ _ _ _ _ _ (Z.le_refl 0) Heq)
      as (n & d & -> & Hle & Hcalls & Hc & Hi & _ & _ & Hn).
    exists res, h', d, n. split; [exact Heq|].
    split; [split; [|exact Hle]|].
    { assert (n <> O) by (apply Hn; discriminate). lia. }
    split; [exact Hcalls|]. split; [exact Hc|].
    rewrite <- Hi, Nat.add_0_r. symmetry. by apply Nat.mod_small.
  - unfold gpt.BatchTranslate.
    assert (Hlt : forall left attempt lastErr h0 w0 res h' w',
               (index h0 < clients h0)%nat ->
               BatchTranslate_loop left attempt lastErr texts lang h0 w0
               = Some (res, h', w') ->
               (index h' < clients h')%nat).
    { induction left as [|left IH]; intros attempt lastErr h0 w0 res h' w' Hh0.
      - simpl. by intros [= <- <- <-].
      - cbn [gpt.BatchTranslate_loop].
        destruct (json_Marshal texts) as [textsJSON [err|]];
          [by intros [= <- <- <-]|].
        destruct (next_client_some h0 Hh0) as (h1 & -> & Hh1).
        destruct (batch_step _ texts attempt) as [translations | e1 after].
        + destruct (validate _ _ _); [|discriminate]. by intros [= <- <- <-].
        + by apply IH. }
    destruct (BatchTranslate_loop_spec CreateChatCompletion json_Marshal
                json_Unmarshal_result json_Unmarshal_slice texts lang 3 0 None
                h w Hh)
      as (res & h' & w' & Heq & _).
    pose proof (Hlt _ _ _ _ _ _ _ _ Hh Heq) as Hh'.
    destruct (BatchTranslate_loop_effects _ _ _ _ _ _ _ _ _ _ (Z.le_refl 0) Heq)
      as (n & d & -> & Hle & Hcalls & Hc & Hi & _ & _ & Hn).
    exists res, h', d, n. split; [exact Heq|].
    split; [exact Hle|].
    split.
    { intros Hm. assert (n <> O) by (apply Hn; [discriminate|exact Hm]). lia. }
    split; [exact Hcalls|]. split; [exact Hc|].
    rewrite <- Hi, Nat.add_0_r. symmetry. by apply Nat.mod_small.
Qed.

(** X2. The waiting between the attempts is bounded.  A call of either
    method on a handler with at least one client returns, it only adds to
    what was done before, and the seconds it sleeps add up to 9 at most:
    2, 3 and 4 seconds after three answers of status 429. *)
Theorem waiting_time_is_bounded text texts lang h w :
  (index h < clients h)%nat ->
  (exists res h' d,
     gpt.Translate CreateChatCompletion text lang h w
     = Some (res, h', (w ++ d)%list)
     /\ (0 <= slept d <= 9)%Z)
  /\ (exists res h' d,
        gpt.BatchTranslate CreateChatCompletion json_Marshal
          json_Unmarshal_result json_Unmarshal_slice texts lang h w
        = Some (res, h', (w ++ d)%list)
        /\ (0 <= slept d <= 9)%Z).
Proof.
  intros Hh. split.
  - unfold gpt.Translate.
    destruct (Translate_loop_spec CreateChatCompletion text lang 3 0 None h w Hh)
      as (res & h' & w' & Heq & _).
    destruct (Translate_loop_effects _ _ _ _ _ _ _ _ _ _ (Z.le_refl 0) Heq)
      as (n & d & -> & _ & _ & _ & _ & H0 & Hs & _).
    exists res, h', d. split; [exact Heq|]. simpl in Hs. lia.
  - unfold gpt.BatchTranslate.
    destruct (BatchTranslate_loop_spec CreateChatCompletion json_Marshal
                json_Unmarshal_result json_Unmarshal_slice texts lang 3 0 None
                h w Hh)
      as (res & h' & w' & Heq & _).
    destruct (BatchTranslate_loop_effects _ _ _ _ _ _ _ _ _ _ (Z.le_refl 0) Heq)
      as (n & d & -> & _ & _ & _ & _ & H0 & Hs & _).
    exists res, h', d. split; [exact Heq|]. simpl in Hs. lia.
Qed.

(** X3. [Translate] never returns a blank text as a success.  When the
    returned error is nil, the text is neither empty nor a single space; it
    is the first choice of the answer to the last call issued, with the
    white space at both ends removed, and nothing is done after that
    call. *)
Theorem Translate_success_is_not_blank text lang h w :
  (index h < clients h)%nat ->
  exists res h' w',
    gpt.Translate CreateChatCompletion text lang h w = Some (res, h', w')
    /\ (res.2 = None ->
        res.1 <> "" /\ res.1 <> " "
        /\ exists w2 client choice rest,
             w' = (w2 ++ [Call client (translate_request text lang)])%list
             /\ CreateChatCompletion w2 client (translate_request text lang)
                = (choice :: rest, None)
             /\ res.1 = strings.TrimSpace choice).
Proof.
  intros Hh. unfold gpt.Translate.
  destruct (Translate_loop_spec CreateChatCompletion text lang 3 0 None h w Hh)
    as (res & h' & w' & Heq & _).
  exists res, h', w'. split; [exact Heq|]. intros Hres.
  destruct (Translate_loop_success _ _ _ _ _ _ _ _ _ _ Heq Hres)
    as (w2 & client & choice & rest & Hw & Hresp & Hr & H1 & H2).
  split; [exact H1|]. split; [exact H2|]. eauto 10.
Qed.


End Rotation.

End gpt_facts.


(** ** The command *)

Module cmd_facts.

Import cmd.

Local Open Scope list_scope.

(** *** Missing keys and their initialisation *)

Lemma elem_of_findMissingKeys_loop order (target : gmap string string) k :
  forall acc,
    k ∈ foldl (fun (missing : gset string) (kv : string * string) =>
                 match target !! kv.1 with
                 | None => {[ kv.1 ]} ∪ missing
                 | Some _ => missing
                 end) acc order
    <-> k ∈ acc \/ ((exists v, (k, v) ∈ order) /\ target !! k = None).
Proof.
  induction order as [|[k' v'] order IH]; intros acc; simpl.
  - split; [auto|]. intros [H|[[v H] _]]; [exact H|]. by apply elem_of_nil in H.
  - rewrite IH. destruct (target !! k') as [t|] eqn:Ht.
    + split.
      * intros [H|[[v H] Hn]]; [auto|]. right. split; [|exact Hn].
        exists v. by right.
      * intros [H|[[v H] Hn]]; [auto|]. right. split; [|exact Hn].
        apply elem_of_cons in H as [[= -> ->]|H]; [congruence|]. eauto.
    + rewrite elem_of_union, elem_of_singleton. split.
      * intros [[->|H]|[[v H] Hn]]; [right|auto|right].
        -- split; [|exact Ht]. exists v'. by left.
        -- split; [|exact Hn]. exists v. by right.
      * intros [H|[[v H] Hn]]; [auto|].
        apply elem_of_cons in H as [[= -> ->]|H]; [auto|]. right. eauto.
Qed.

Lemma elem_of_findMissingKeys (source target : gmap string string) k :
  k ∈ findMissingKeys source target
  <-> is_Some (source !! k) /\ target !! k = None.
Proof.
  unfold findMissingKeys, findMissingKeys_loop.
  rewrite elem_of_findMissingKeys_loop. split.
  - intros [H|[[v H] Hn]]; [by apply not_elem_of_empty in H|].
    apply elem_of_map_to_list in H. eauto.
  - intros [[v H] Hn]. right. split; [|exact Hn].
    exists v. by apply elem_of_map_to_list.
Qed.

Lemma init_missing_lookup (order : list string)
    (source : gmap string string) (k : string) :
  forall target : gmap string string,
    init_missing order source target !! k
    = if decide (k ∈ order /\ is_Some (source !! k)) then Some ""
      else target !! k.
Proof.
  unfold init_missing.
  induction order as [|k' order IH]; intros target; cbn [foldl].
  - case_decide as Hd; [|reflexivity].
    destruct Hd as [H _]. by apply elem_of_nil in H.
  - rewrite IH.
    destruct (decide (k ∈ order /\ is_Some (source !! k))) as [[Hin Hs]|Hn].
    + rewrite decide_True; [reflexivity|]. split; [by right|exact Hs].
    + destruct (decide (k = k')) as [->|Hne].
      * destruct (source !! k') as [v|] eqn:Hsrc.
        -- rewrite lookup_insert_eq. rewrite decide_True; [reflexivity|].
           split; [by left|eauto].
        -- rewrite decide_False; [reflexivity|]. intros [_ [? ?]]. congruence.
      * assert (Hk : match source !! k' with
                     | Some _ => <[k' := ""]> target
                     | None => target
                     end !! k = target !! k).
        { destruct (source !! k'); [by rewrite lookup_insert_ne|reflexivity]. }
        rewrite Hk. rewrite decide_False; [reflexivity|].
        intros [Hin Hs]. apply Hn. split; [|exact Hs].
        apply elem_of_cons in Hin as [?|?]; [congruence|assumption].
Qed.

(** Both loops give the same result in any order. *)
Lemma findMissingKeys_order (source target : gmap string string) order :
  ranges_over source order ->
  findMissingKeys_loop order target = findMissingKeys source target.
Proof.
  intros Ho. apply leibniz_equiv. intros k.
  unfold findMissingKeys, findMissingKeys_loop.
  rewrite !elem_of_findMissingKeys_loop.
  unfold ranges_over in Ho. by setoid_rewrite Ho.
Qed.

Lemma init_missing_order (order1 order2 : list string)
    (source target : gmap string string) :
  order1 ≡ₚ order2 ->
  init_missing order1 source target = init_missing order2 source target.
Proof.
  intros Ho. apply map_eq. intros k. rewrite !init_missing_lookup.
  repeat case_decide; try reflexivity; exfalso.
  - rewrite Ho in *. tauto.
  - rewrite <- Ho in *. tauto.
Qed.

(** The entries of the target when the key loop starts: the entries it had,
    and the empty string for every key of the source it had not. *)
Lemma start_items {Handler} source target (h : Handler) k :
  items (start source target h) !! k
  = match LocaleItemsMap target !! k with
    | Some t => Some t
    | None =>
        match LocaleItemsMap source !! k with
        | Some _ => Some ""
        | None => None
        end
    end.
Proof.
  unfold start; simpl.
  set (missing := findMissingKeys _ _).
  assert (Hm : k ∈ missing
               <-> is_Some (LocaleItemsMap source !! k)
                   /\ LocaleItemsMap target !! k = None)
    by apply elem_of_findMissingKeys.
  destruct (0 <? Z.of_nat (size missing))%Z eqn:Hsz.
  - rewrite init_missing_lookup.
    case_decide as Hn.
    + destruct Hn as [Hin Hs].
      apply elem_of_elements, Hm in Hin as [[v Hv] Ht]. by rewrite Ht, Hv.
    + destruct (LocaleItemsMap target !! k) as [t|] eqn:Ht; [reflexivity|].
      destruct (LocaleItemsMap source !! k) as [v|] eqn:Hv; [|reflexivity].
      exfalso. apply Hn. split; [|eauto]. apply elem_of_elements, Hm. eauto.
  - apply Z.ltb_ge in Hsz.
    assert (missing = ∅) as Hempty
      by (apply leibniz_equiv, size_empty_inv; lia).
    rewrite Hempty in Hm.
    destruct (LocaleItemsMap target !! k) as [t|] eqn:Ht; [reflexivity|].
    destruct (LocaleItemsMap source !! k) as [v|] eqn:Hv; [|reflexivity].
    exfalso. eapply (not_elem_of_empty (C:=gset string)), Hm. eauto.
Qed.

Lemma start_covers {Handler} source target (h : Handler) :
  covers (LocaleItemsMap source) (items (start source target h)).
Proof.
  intros k [v Hv]. rewrite start_items, Hv.
  destruct (LocaleItemsMap target !! k); eauto.
Qed.

Lemma start_keys_called {Handler} source target (h : Handler) :
  keys_called (events (start source target h)) = [].
Proof. unfold start; simpl. by destruct (0 <? _)%Z. Qed.

(** The entries of a map in the order [range] yields them. *)
Lemma ranges_over_lookup (m : gmap string string) order k v :
  ranges_over m order -> (k, v) ∈ order -> m !! k = Some v.
Proof.
  unfold ranges_over. intros H Hin. rewrite H in Hin.
  by apply elem_of_map_to_list.
Qed.

Lemma ranges_over_elem (m : gmap string string) order k v :
  ranges_over m order -> m !! k = Some v -> (k, v) ∈ order.
Proof.
  unfold ranges_over. intros H Hin. rewrite H.
  by apply elem_of_map_to_list.
Qed.

Lemma ranges_over_NoDup (m : gmap string string) order :
  ranges_over m order -> NoDup order.*1 /\ length order = size m.
Proof.
  unfold ranges_over. intros ->. split.
  - apply NoDup_fst_map_to_list.
  - apply length_map_to_list.
Qed.

(** *** Steps that touch the keys of a set only *)

#[local] Arguments emit : simpl never.
#[local] Arguments set_handler : simpl never.
#[local] Arguments set_item : simpl never.
#[local] Arguments set_items : simpl never.
#[local] Arguments fail_key : simpl never.
#[local] Arguments incr_translated : simpl never.
#[local] Arguments incr_count : simpl never.
#[local] Arguments set_batch : simpl never.

Lemma keys_called_app evs1 evs2 :
  keys_called (evs1 ++ evs2) = keys_called evs1 ++ keys_called evs2.
Proof. apply bind_app. Qed.

Ltac split4 := split; [|split; [|split]].

Section Extends.

Context {Handler : Type}.
Implicit Types (s : state Handler) (K : list string).

Lemma extends_refl K s : extends K s s.
Proof.
  split4; auto.
  exists []. split; [by rewrite app_nil_r|].
  intros k Hk. by apply elem_of_nil in Hk.
Qed.

Lemma extends_trans K s1 s2 s3 :
  extends K s1 s2 -> extends K s2 s3 -> extends K s1 s3.
Proof.
  intros (Ha1 & Hb1 & (n1 & He1 & Hc1) & Hd1) (Ha2 & Hb2 & (n2 & He2 & Hc2) & Hd2).
  split4.
  - intros k Hk. by rewrite Ha2, Ha1.
  - auto.
  - exists (n1 ++ n2). split; [by rewrite He2, He1, app_assoc|].
    intros k. rewrite keys_called_app, elem_of_app. intros [?|?]; auto.
  - auto.
Qed.

Lemma extends_mono K K' s s' :
  (forall k, k ∈ K -> k ∈ K') -> extends K s s' -> extends K' s s'.
Proof.
  intros HK (Ha & Hb & (n & He & Hc) & Hd). split4; [| exact Hb | | exact Hd].
  - intros k Hk. apply Ha. intros Hin. apply Hk, HK, Hin.
  - exists n. split; auto.
Qed.

Lemma extends_emit K evs s :
  (forall k, k ∈ keys_called evs -> k ∈ K) -> extends K s (emit evs s).
Proof. intros H. split4; auto. exists evs. split; auto. Qed.

Lemma extends_quiet K s s' :
  items s' = items s -> events s' = events s ->
  failedKeys s' = failedKeys s -> extends K s s'.
Proof.
  intros Hi He Hf. split4.
  - intros. by rewrite Hi.
  - intros. by rewrite Hi.
  - exists []. split; [by rewrite He, app_nil_r|].
    intros k Hk. by apply elem_of_nil in Hk.
  - intros. by rewrite Hf.
Qed.

Lemma extends_set_item K k v s : k ∈ K -> extends K s (set_item k v s).
Proof.
  intros Hk. split4; simpl.
  - intros k' Hk'. apply lookup_insert_ne. congruence.
  - intros k' Hs. destruct (decide (k = k')) as [->|Hne].
    + rewrite lookup_insert_eq. eauto.
    + by rewrite lookup_insert_ne.
  - exists []. split; [by rewrite app_nil_r|].
    intros k' Hk'. by apply elem_of_nil in Hk'.
  - auto.
Qed.

Lemma extends_fail_key K k s : extends K s (fail_key k s).
Proof.
  split4; simpl; auto.
  - exists []. split; [by rewrite app_nil_r|].
    intros k' Hk'. by apply elem_of_nil in Hk'.
  - intros k' Hk'. apply elem_of_app. by left.
Qed.

(** What a step that does not touch [k] leaves as it was. *)
Lemma extends_frame K s s' k :
  extends K s s' -> k ∉ K ->
  items s' !! k = items s !! k
  /\ (k ∉ keys_called (events s) -> k ∉ keys_called (events s')).
Proof.
  intros (Ha & _ & (n & He & Hc) & _) Hk. split; [by apply Ha|].
  intros Hn. rewrite He, keys_called_app, elem_of_app.
  intros [?|?]; [by apply Hn|]. by apply Hk, Hc.
Qed.

Lemma extends_covers K s s' source :
  extends K s s' -> covers source (items s) -> covers source (items s').
Proof. intros (_ & Hb & _) Hc k Hk. apply Hb, Hc, Hk. Qed.

(** The rule for a loop whose body keeps an invariant and does not panic
    under it. *)
Lemma loop_invariant {A} (P : state Handler -> Prop)
    (body : state Handler -> A -> option (state Handler)) l :
  forall s,
    P s ->
    (forall s a, a ∈ l -> P s -> exists s', body s a = Some s' /\ P s') ->
    exists s', loop body s l = Some s' /\ P s'.
Proof.
  induction l as [|a l IH]; intros s Hs Hbody; simpl.
  - eauto.
  - destruct (Hbody s a) as (s1 & -> & Hs1); [by left|exact Hs|].
    apply IH; [exact Hs1|]. intros s2 b Hb. apply Hbody. by right.
Qed.

End Extends.

(** Exposes the fields of a state under a stack of updates. *)
Ltac unfold_state :=
  unfold emit, set_handler, set_item, set_items, fail_key, incr_translated,
    incr_count, set_batch in *;
  simpl in *.

(** Closes the side condition of [extends_emit] for explicit events. *)
Ltac called_side :=
  let k := fresh "k" in
  let H := fresh "H" in
  intros k H; cbn in H;
  first [ by apply elem_of_nil in H
        | exact H
        | by (rewrite ?app_nil_r in H; try apply elem_of_app; auto)
        | set_solver ].

(** Proves [extends K s s'] when [s'] is [s] under a stack of updates. *)
Ltac ext :=
  lazymatch goal with
  | |- extends _ ?s ?s => apply extends_refl
  | |- extends _ ?s (emit _ ?s') =>
      apply (extends_trans _ s s'); [ext | apply extends_emit; called_side]
  | |- extends _ ?s (set_item _ _ ?s') =>
      apply (extends_trans _ s s');
        [ext | apply extends_set_item; first [by left | set_solver]]
  | |- extends _ ?s (fail_key _ ?s') =>
      apply (extends_trans _ s s'); [ext | apply extends_fail_key]
  | |- extends _ ?s (_ ?s') =>
      apply (extends_trans _ s s'); [ext | apply extends_quiet; reflexivity]
  | |- extends _ ?s (_ _ ?s') =>
      apply (extends_trans _ s s'); [ext | apply extends_quiet; reflexivity]
  | |- extends _ ?s (_ _ _ ?s') =>
      apply (extends_trans _ s s'); [ext | apply extends_quiet; reflexivity]
  end.

Section Scheduler.

Context {Handler : Type}.

Variable Translate :
  string -> string -> Handler -> (string * option error) * Handler.
Variable BatchTranslate :
  list string -> string -> Handler -> (list string * option error) * Handler.
Variable EqualFold : string -> string -> bool.
Variable json_Unmarshal : string -> list string * option error.
Variable json_Marshal : list string -> string * option error.
Variable filepath_Base : string -> string.
Variable os_WriteFile : list event -> string -> string -> option error.
Variable JSON : LocaleFileContent -> string * option error.

Implicit Types (s : state Handler) (h : Handler) (k v lang mode : string)
  (target source : LocaleFileContent) (indep : option LocaleFileContent)
  (missingKeys : gset string) (m : gmap string string).

Abbreviation translate_array := (cmd.translate_array Translate).
Abbreviation translate_as_array :=
  (cmd.translate_as_array Translate json_Unmarshal json_Marshal).
Abbreviation translate_as_string := (cmd.translate_as_string Translate).
Abbreviation translate_key :=
  (cmd.translate_key Translate json_Unmarshal json_Marshal).
Abbreviation single_visit :=
  (cmd.single_visit Translate json_Unmarshal json_Marshal).
Abbreviation single_process :=
  (cmd.single_process Translate json_Unmarshal json_Marshal filepath_Base
     os_WriteFile JSON).
Abbreviation sendBatch := (cmd.sendBatch BatchTranslate).
Abbreviation batch_visit := (cmd.batch_visit BatchTranslate EqualFold).
Abbreviation batch_process :=
  (cmd.batch_process BatchTranslate EqualFold filepath_Base os_WriteFile JSON).
Abbreviation needToTranslate_batch := (cmd.needToTranslate_batch EqualFold).
Abbreviation selects_batch := (cmd.selects_batch EqualFold).
Abbreviation selected_batch := (cmd.selected_batch EqualFold).
Abbreviation report_failed := (cmd.report_failed (Handler:=Handler) filepath_Base).
Abbreviation persist := (cmd.persist (Handler:=Handler) os_WriteFile JSON).

(** *** The decision for one key *)

(** The decision of the single-item strategy never panics: the first byte
    of the value is read after the test for the empty string.  It writes at
    most the entry of [k], and only under an override. *)
Lemma needToTranslate_single_spec indep mode missingKeys m k :
  exists b m',
    needToTranslate_single indep mode missingKeys m k = Some (b, m')
    /\ (m' = m
        \/ exists ov o, indep = Some ov /\ LocaleItemsMap ov !! k = Some o
                        /\ is_Some (m !! k) /\ b = false /\ m' = <[k := o]> m).
Proof.
  unfold needToTranslate_single.
  destruct (m !! k) as [cur|] eqn:Hcur; [|eauto].
  destruct indep as [ov|].
  { destruct (LocaleItemsMap ov !! k) as [o|] eqn:Ho; [|eauto].
    eexists _, _. split; [reflexivity|]. right. eauto 10. }
  destruct (String.eqb mode "full").
  - destruct cur as [|c cur]; simpl; [eauto|].
    destruct (Ascii.eqb c "!"); eauto.
  - destruct (String.eqb mode "missing"); eauto.
Qed.

Lemma needToTranslate_batch_spec indep mode missingKeys m k v :
  exists b m',
    needToTranslate_batch indep mode missingKeys m k v = Some (b, m')
    /\ (m' = m
        \/ exists ov o, indep = Some ov /\ LocaleItemsMap ov !! k = Some o
                        /\ is_Some (m !! k) /\ b = false /\ m' = <[k := o]> m).
Proof.
  unfold cmd.needToTranslate_batch.
  destruct (m !! k) as [cur|] eqn:Hcur; [|eauto].
  destruct indep as [ov|].
  { destruct (LocaleItemsMap ov !! k) as [o|] eqn:Ho; [|eauto].
    eexists _, _. split; [reflexivity|]. right. eauto 10. }
  destruct (String.eqb mode "full").
  - destruct (EqualFold cur v); simpl; [eauto|].
    destruct cur as [|c cur]; simpl; [eauto|].
    destruct (Ascii.eqb c "!"); eauto.
  - destruct (String.eqb mode "missing"); eauto.
Qed.

(** Writing the decided items is a step on [k]. *)
Lemma extends_set_items s k m' :
  (m' = items s \/ exists o, is_Some (items s !! k) /\ m' = <[k := o]> (items s)) ->
  extends [k] s (set_items m' s).
Proof.
  intros [->|(o & _ & ->)].
  - apply extends_quiet; reflexivity.
  - change (set_items (<[k:=o]> (items s)) s) with (set_item k o s).
    apply extends_set_item. by left.
Qed.

(** *** The single-item strategy *)

Lemma translate_array_spec k lang stringArray :
  forall s,
    extends [k] s (translate_array k lang stringArray s).2
    /\ items (translate_array k lang stringArray s).2 = items s
    /\ failedKeys (translate_array k lang stringArray s).2 = failedKeys s
    /\ batch (translate_array k lang stringArray s).2 = batch s
    /\ keys (translate_array k lang stringArray s).2 = keys s.
Proof.
  induction stringArray as [|str rest IH]; intros s; simpl.
  - split; [ext|auto].
  - destruct (Translate str lang (handler s)) as [[translated err] h1].
    destruct err as [e|]; simpl.
    { split; [ext|auto]. }
    destruct (is_blank translated); simpl.
    { split; [ext|auto]. }
    specialize (IH (emit [CallTranslate k str lang] (set_handler h1 s))).
    destruct (cmd.translate_array _ _ _ rest _) as [r s2]; simpl in *.
    destruct IH as (He & Hi & Hf & Hb & Hk).
    split; [|auto].
    eapply extends_trans; [|exact He]. ext.
Qed.

Lemma translate_key_spec k v lang s :
  extends [k] s (translate_key k v lang s)
  /\ batch (translate_key k v lang s) = batch s
  /\ keys (translate_key k v lang s) = keys s.
Proof.
  unfold cmd.translate_key.
  assert (Ha : extends [k] s (translate_as_array k v lang s).2
               /\ batch (translate_as_array k v lang s).2 = batch s
               /\ keys (translate_as_array k v lang s).2 = keys s).
  { unfold cmd.translate_as_array.
    destruct (_ && _); [|simpl; split; [ext|auto]].
    destruct (json_Unmarshal v) as [stringArray [err|]];
      [simpl; split; [ext|auto]|].
    pose proof (translate_array_spec k lang stringArray s) as H.
    destruct (cmd.translate_array _ _ _ _ _) as [r s1]; simpl in H.
    destruct H as (He & _ & _ & Hb & Hk).
    destruct r as [translatedArray|]; simpl; [|auto].
    destruct (json_Marshal translatedArray) as [resultBytes [err|]]; simpl.
    - split; [|auto]. eapply extends_trans; [exact He|]. ext.
    - split; [|auto]. eapply extends_trans; [exact He|]. ext. }
  destruct (cmd.translate_as_array _ _ _ k v lang s) as [[isArr ok1] s1].
  simpl in Ha. destruct Ha as (He1 & Hb1 & Hk1).
  assert (Hs : extends [k] s1 (translate_as_string k v lang s1).2
               /\ batch (translate_as_string k v lang s1).2 = batch s1
               /\ keys (translate_as_string k v lang s1).2 = keys s1).
  { unfold cmd.translate_as_string.
    destruct (Translate v lang (handler s1)) as [[result err] h1].
    destruct err as [e|]; simpl; [split; [ext|auto]|].
    destruct (is_blank result); simpl; split; [ext|auto|ext|auto]. }
  destruct isArr; simpl.
  - destruct ok1; simpl; (split; [|auto]);
      (eapply extends_trans; [exact He1|ext]).
  - destruct (cmd.translate_as_string _ k v lang s1) as [ok2 s2].
    simpl in Hs. destruct Hs as (He2 & Hb2 & Hk2).
    destruct ok2; simpl; (split; [|split; congruence]);
      (eapply extends_trans; [exact He1|]);
      (eapply extends_trans; [exact He2|ext]).
Qed.

(** A visit of the single-item strategy does not panic and is a step on the
    visited key. *)
Lemma single_visit_spec target indep mode missingKeys totalKeys s k v :
  exists s',
    single_visit target indep mode missingKeys totalKeys s (k, v) = Some s'
    /\ extends [k] s s'
    /\ batch s' = batch s /\ keys s' = keys s.
Proof.
  unfold cmd.single_visit.
  destruct (negb (len v =? 0)%Z); [|eexists; split; [reflexivity|split; [ext|auto]]].
  destruct (needToTranslate_single_spec indep mode missingKeys (items s) k)
    as (b & m' & -> & Hm').
  assert (He : extends [k] s (set_items m' s)).
  { apply extends_set_items. destruct Hm' as [->|(ov & o & _ & _ & Hs & _ & ->)]; eauto. }
  eexists; split; [reflexivity|].
  destruct b.
  - destruct (translate_key_spec k v (Lang target) (set_items m' s))
      as (Hk & Hb & Hks).
    split; [|simpl; auto].
    eapply extends_trans; [exact He|].
    eapply extends_trans; [exact Hk|]. ext.
  - split; [|auto]. eapply extends_trans; [exact He|]. ext.
Qed.

Lemma len_zero v : (len v =? 0)%Z = true <-> v = "".
Proof.
  unfold len. destruct v; simpl; split; done.
Qed.

Lemma single_visit_empty target indep mode missingKeys totalKeys s k :
  single_visit target indep mode missingKeys totalKeys s (k, "") = Some s.
Proof. reflexivity. Qed.

Lemma report_failed_spec target s :
  extends [] s (report_failed target s)
  /\ items (report_failed target s) = items s
  /\ failedKeys (report_failed target s) = failedKeys s
  /\ translatedCount (report_failed target s) = translatedCount s.
Proof.
  unfold cmd.report_failed. destruct (0 <? _)%Z; [|split; [ext|auto]].
  split; [|auto]. apply extends_emit.
  destruct (_ <=? 10)%Z; called_side.
Qed.

Lemma persist_spec target totalKeys translated s :
  extends [] s (final (persist target totalKeys translated s))
  /\ items (final (persist target totalKeys translated s)) = items s
  /\ failedKeys (final (persist target totalKeys translated s)) = failedKeys s
  /\ translatedCount (final (persist target totalKeys translated s))
     = translatedCount s.
Proof.
  unfold cmd.persist.
  destruct (JSON _) as [buf [err|]]; simpl; [split; [ext|auto]|].
  destruct (os_WriteFile _ _ _); simpl; split; [ext|auto|ext|auto].
Qed.

(** The key loop of the single-item strategy does not panic; it touches the
    keys whose source value is not empty. *)
Lemma single_loop_spec K target indep mode missingKeys totalKeys order :
  (forall k v, (k, v) ∈ order -> v ≠ "" -> k ∈ K) ->
  forall s,
    exists s',
      loop (single_visit target indep mode missingKeys totalKeys) s order
      = Some s'
      /\ extends K s s' /\ batch s' = batch s /\ keys s' = keys s.
Proof.
  intros HK s.
  apply (loop_invariant
           (fun s' => extends K s s' /\ batch s' = batch s /\ keys s' = keys s)).
  { split; [ext|auto]. }
  intros s1 [k v] Hin (He & Hb & Hk).
  destruct (decide (v = "")) as [->|Hv].
  { exists s1. split; [apply single_visit_empty|auto]. }
  destruct (single_visit_spec target indep mode missingKeys totalKeys s1 k v)
    as (s2 & -> & He2 & Hb2 & Hk2).
  exists s2. split; [reflexivity|]. split; [|split; congruence].
  eapply extends_trans; [exact He|].
  eapply extends_mono; [|exact He2].
  intros k' Hk'. apply list_elem_of_singleton in Hk' as ->. eauto.
Qed.

Lemma single_process_spec K order source target indep mode h :
  (forall k v, (k, v) ∈ order -> v ≠ "" -> k ∈ K) ->
  exists out,
    single_process order source target indep mode h = Some out
    /\ extends K (start source target h) (final out).
Proof.
  intros HK. unfold cmd.single_process.
  destruct (single_loop_spec K target indep mode
              (findMissingKeys (LocaleItemsMap source) (LocaleItemsMap target))
              (Z.of_nat (size (LocaleItemsMap source))) order HK
              (start source target h))
    as (s' & -> & He & _).
  eexists; split; [reflexivity|].
  eapply extends_trans; [exact He|].
  eapply extends_mono; [|eapply extends_trans;
                          [apply report_failed_spec|apply persist_spec]].
  intros k Hk. by apply elem_of_nil in Hk.
Qed.

(** *** Runs that never call the client

    With an override document, or in missing mode with no missing key, the
    decision is negative for every key that has an entry in the target. *)

Lemma client_calls_app evs1 evs2 :
  client_calls (evs1 ++ evs2) = client_calls evs1 ++ client_calls evs2.
Proof. apply List.filter_app. Qed.

Lemma client_calls_keys evs : client_calls evs = [] -> keys_called evs = [].
Proof.
  induction evs as [|e evs IH]; [reflexivity|].
  destruct e; simpl; try discriminate; exact IH.
Qed.

Lemma client_calls_emit evs s :
  client_calls (events (emit evs s))
  = client_calls (events s) ++ client_calls evs.
Proof. unfold emit; simpl. apply client_calls_app. Qed.

Section Silent.

Variables (source : gmap string string) (indep : option LocaleFileContent)
  (mode : string) (missingKeys : gset string).

(** The condition under which no key is selected. *)
Hypothesis no_selection :
  is_Some indep \/ (mode = "missing" /\ missingKeys = ∅).

Lemma needToTranslate_single_silent m k :
  is_Some (m !! k) ->
  exists m',
    needToTranslate_single indep mode missingKeys m k = Some (false, m')
    /\ (forall k', is_Some (m !! k') -> is_Some (m' !! k'))
    /\ (forall k', k' ≠ k -> m' !! k' = m !! k')
    /\ (forall ov o, indep = Some ov -> LocaleItemsMap ov !! k = Some o ->
          m' !! k = Some o).
Proof.
  intros [cur Hcur]. unfold needToTranslate_single. rewrite Hcur.
  destruct indep as [ov|].
  - destruct (LocaleItemsMap ov !! k) as [o|] eqn:Ho.
    + eexists; split; [reflexivity|]. split; [|split].
      * intros k' Hk'. destruct (decide (k = k')) as [->|?].
        -- rewrite lookup_insert_eq; eauto.
        -- by rewrite lookup_insert_ne.
      * intros k' Hk'. by rewrite lookup_insert_ne.
      * intros ov' o' [= <-] Ho'. rewrite lookup_insert_eq. congruence.
    + eexists; split; [reflexivity|]. split; [auto|]. split; [auto|].
      intros ov' o' [= <-] Ho'. congruence.
  - destruct no_selection as [[? [=]]|[-> ->]]. simpl.
    eexists; split; [reflexivity|]. split; [auto|]. split; [auto|]. discriminate.
Qed.

Lemma needToTranslate_batch_silent m k v :
  is_Some (m !! k) ->
  exists m',
    needToTranslate_batch indep mode missingKeys m k v = Some (false, m')
    /\ (forall k', is_Some (m !! k') -> is_Some (m' !! k'))
    /\ (forall k', k' ≠ k -> m' !! k' = m !! k')
    /\ (forall ov o, indep = Some ov -> LocaleItemsMap ov !! k = Some o ->
          m' !! k = Some o).
Proof.
  intros [cur Hcur]. unfold cmd.needToTranslate_batch. rewrite Hcur.
  destruct indep as [ov|].
  - destruct (LocaleItemsMap ov !! k) as [o|] eqn:Ho.
    + eexists; split; [reflexivity|]. split; [|split].
      * intros k' Hk'. destruct (decide (k = k')) as [->|?].
        -- rewrite lookup_insert_eq; eauto.
        -- by rewrite lookup_insert_ne.
      * intros k' Hk'. by rewrite lookup_insert_ne.
      * intros ov' o' [= <-] Ho'. rewrite lookup_insert_eq. congruence.
    + eexists; split; [reflexivity|]. split; [auto|]. split; [auto|].
      intros ov' o' [= <-] Ho'. congruence.
  - destruct no_selection as [[? [=]]|[-> ->]]. simpl.
    eexists; split; [reflexivity|]. split; [auto|]. split; [auto|]. discriminate.
Qed.

Lemma single_visit_silent target totalKeys :
  silent_visit source indep
    (single_visit target indep mode missingKeys totalKeys).
Proof.
  intros s k v (Hc & Hcalls & Hb & Hk) Hsrc. unfold cmd.single_visit.
  destruct (len v =? 0)%Z eqn:Hv; simpl.
  { apply len_zero in Hv as ->. exists s. split; [reflexivity|].
    split; [by split4|]. split; [auto|]. intros ov o _ _ [?|?]; done. }
  destruct (needToTranslate_single_silent (items s) k (Hc k Hsrc))
    as (m' & -> & Hmono & Hother & Hov).
  eexists; split; [reflexivity|]. split; [|split].
  - split4; unfold_state; auto.
    + intros k' Hk'. apply Hmono, Hc, Hk'.
    + by rewrite client_calls_app, Hcalls.
  - intros k' Hk'. unfold_state. by apply Hother.
  - intros ov o Hi Ho _. unfold_state. eapply Hov; eauto.
Qed.

Lemma batch_visit_silent target batchSize totalKeys :
  silent_visit source indep
    (batch_visit target indep batchSize mode missingKeys totalKeys).
Proof.
  intros s k v (Hc & Hcalls & Hb & Hk) Hsrc. unfold cmd.batch_visit.
  destruct (len v =? 0)%Z eqn:Hv; simpl.
  { apply len_zero in Hv as ->. exists s. split; [reflexivity|].
    split; [by split4|]. split; [auto|]. intros ov o _ _ [?|?]; done. }
  destruct (needToTranslate_batch_silent (items s) k v (Hc k Hsrc))
    as (m' & -> & Hmono & Hother & Hov).
  eexists; split; [reflexivity|]. split; [|split].
  - split4; unfold_state; auto.
    + intros k' Hk'. apply Hmono, Hc, Hk'.
    + by rewrite client_calls_app, Hcalls.
  - intros k' Hk'. unfold_state. by apply Hother.
  - intros ov o Hi Ho _. unfold_state. eapply Hov; eauto.
Qed.

Lemma loop_silent body order :
  silent_visit source indep body ->
  (forall k v, (k, v) ∈ order -> is_Some (source !! k)) ->
  forall s,
    silent source s ->
    exists s',
      loop body s order = Some s'
      /\ silent source s'
      /\ (forall k ov o,
            indep = Some ov -> LocaleItemsMap ov !! k = Some o ->
            (exists v, (k, v) ∈ order /\ v ≠ "") \/ items s !! k = Some o ->
            items s' !! k = Some o).
Proof.
  intros Hbody. induction order as [|[k v] order IH]; intros Hsrc s Hs; simpl.
  - exists s. split; [reflexivity|]. split; [exact Hs|].
    intros k ov o _ _ [(v & Hin & _)|?]; [by apply elem_of_nil in Hin|done].
  - destruct (Hbody s k v Hs) as (s1 & -> & Hs1 & Hother & Hov).
    { eapply Hsrc. by left. }
    destruct (IH (fun k' v' H => Hsrc k' v' (list_elem_of_further _ _ _ H)) s1 Hs1)
      as (s' & -> & Hs' & Hfin).
    exists s'. split; [reflexivity|]. split; [exact Hs'|].
    intros k0 ov o Hi Ho Hcase. apply (Hfin k0 ov o Hi Ho).
    destruct Hcase as [(v0 & Hin & Hv0)|Hold].
    + apply elem_of_cons in Hin as [[= -> ->]|Hin]; [|left; eauto].
      right. eapply Hov; eauto.
    + right. destruct (decide (k0 = k)) as [->|Hne].
      * eapply Hov; eauto.
      * by rewrite Hother.
Qed.

End Silent.

(** *** The batch strategy *)

Section Batch.

(** The contract of the client: a list returned without error has the
    length of the input. *)
Variable target : LocaleFileContent.

Hypothesis BatchTranslate_length :
  length_preserving (Lang target) BatchTranslate.

Lemma elem_of_enumerate {A} (l : list A) i x :
  (i, x) ∈ enumerate l -> l !! i = Some x.
Proof.
  unfold enumerate. intros H.
  apply elem_of_lookup_imap in H as (j & y & [= -> ->] & Hl). exact Hl.
Qed.

(** A flush does not panic; it touches the pending keys only and leaves
    pending keys among those it found. *)
Lemma sendBatch_spec s :
  length (keys s) = length (batch s) ->
  exists s' err,
    sendBatch target s = Some (s', err)
    /\ extends (keys s) s s'
    /\ length (keys s') = length (batch s')
    /\ (forall k, k ∈ keys s' -> k ∈ keys s).
Proof.
  intros Hlen. unfold cmd.sendBatch.
  destruct (Z.of_nat (length (batch s)) =? 0)%Z.
  { eexists _, _. split; [reflexivity|]. split; [ext|auto]. }
  pose proof (BatchTranslate_length (batch s) (handler s)) as HB.
  destruct (BatchTranslate (batch s) (Lang target) (handler s))
    as [[results err] h1]. simpl in HB.
  set (s1 := emit [CallBatchTranslate (keys s) (batch s) (Lang target)]
               (set_handler h1 s)).
  assert (He1 : extends (keys s) s s1) by (subst s1; ext).
  destruct err as [e|].
  - match goal with
    | |- context [loop ?body ?s0 ?l] =>
        destruct (loop_invariant
                    (fun s' => extends (keys s) s s' /\ keys s' = keys s
                               /\ batch s' = batch s) body l s0)
          as (s2 & -> & He2 & Hk2 & Hb2)
    end.
    + split; [|auto]. eapply extends_trans; [exact He1|ext].
    + intros s' [i src] Hin (He' & Hk' & Hb'). simpl.
      apply elem_of_enumerate in Hin.
      destruct (lookup_lt_is_Some_2 (keys s') i) as [key Hkey].
      { rewrite Hk', Hlen. eapply lookup_lt_Some, Hin. }
      rewrite Hkey. eexists; split; [reflexivity|].
      split; [|auto]. eapply extends_trans; [exact He'|ext].
    + eexists _, _. split; [reflexivity|].
      split; [exact He2|]. split; [congruence|]. intros k. by rewrite Hk2.
  - specialize (HB eq_refl).
    match goal with
    | |- context [loop ?body ?s0 ?l] =>
        destruct (loop_invariant
                    (fun s' => extends (keys s) s s' /\ keys s' = keys s
                               /\ batch s' = batch s) body l s0)
          as (s2 & -> & He2 & Hk2 & Hb2)
    end.
    + split; [exact He1|auto].
    + intros s' [i result] Hin (He' & Hk' & Hb'). simpl.
      apply elem_of_enumerate in Hin.
      pose proof (lookup_lt_Some _ _ _ Hin) as Hi.
      destruct (lookup_lt_is_Some_2 (keys s') i) as [key Hkey].
      { rewrite Hk', Hlen. lia. }
      destruct (lookup_lt_is_Some_2 (batch s') i) as [src Hsrc].
      { rewrite Hb'. lia. }
      rewrite Hkey, Hsrc.
      assert (key ∈ keys s).
      { rewrite <- Hk'. eapply list_elem_of_lookup_2, Hkey. }
      destruct (is_blank result); (eexists; split; [reflexivity|]);
        (split; [|auto]); (eapply extends_trans; [exact He'|ext]).
    + eexists _, _. split; [reflexivity|].
      split; [eapply extends_trans; [exact He2|ext]|].
      split; [reflexivity|]. intros k Hk. by apply elem_of_nil in Hk.
Qed.

(** A visit of the batch strategy does not panic; it touches the pending
    keys and the visited key. *)
Lemma batch_visit_spec indep batchSize mode missingKeys totalKeys s k v :
  length (keys s) = length (batch s) ->
  exists s',
    batch_visit target indep batchSize mode missingKeys totalKeys s (k, v)
    = Some s'
    /\ extends (keys s ++ [k]) s s'
    /\ length (keys s') = length (batch s')
    /\ (forall k', k' ∈ keys s' -> k' ∈ keys s ++ [k]).
Proof.
  intros Hlen. unfold cmd.batch_visit.
  destruct (negb (len v =? 0)%Z);
    [|eexists; split; [reflexivity|split; [ext|split; [auto|]]];
      intros k' Hk'; apply elem_of_app; by left].
  destruct (needToTranslate_batch_spec indep mode missingKeys (items s) k v)
    as (b & m' & -> & Hm').
  assert (He : extends (keys s ++ [k]) s (set_items m' s)).
  { eapply extends_mono; [|apply (extends_set_items s k)].
    - intros k' Hk'. apply elem_of_app. by right.
    - destruct Hm' as [->|(ov & o & _ & _ & Hs & _ & ->)]; eauto. }
  destruct b.
  - set (s2 := incr_translated
                 (set_batch (batch (set_items m' s) ++ [v])
                    (keys (set_items m' s) ++ [k]) (set_items m' s))).
    assert (He2 : extends (keys s ++ [k]) s s2).
    { eapply extends_trans; [exact He|]. subst s2. ext. }
    assert (Hl2 : length (keys s2) = length (batch s2)).
    { subst s2. unfold_state. rewrite !length_app. simpl. lia. }
    destruct (Z.of_nat (length (batch s2)) >=? batchSize)%Z.
    + destruct (sendBatch_spec s2 Hl2) as (s3 & err & -> & He3 & Hl3 & Hk3).
      simpl. eexists; split; [reflexivity|].
      split; [|split; [exact Hl3|exact Hk3]].
      eapply extends_trans; [exact He2|].
      eapply extends_trans; [exact He3|ext].
    + eexists; split; [reflexivity|].
      split; [|split; [exact Hl2|auto]].
      eapply extends_trans; [exact He2|ext].
  - eexists; split; [reflexivity|].
    split; [eapply extends_trans; [exact He|ext]|].
    split; [exact Hlen|]. intros k' Hk'. apply elem_of_app. by left.
Qed.

Lemma batch_visit_empty indep batchSize mode missingKeys totalKeys s k :
  batch_visit target indep batchSize mode missingKeys totalKeys s (k, "")
  = Some s.
Proof. reflexivity. Qed.

(** The key loop of the batch strategy does not panic; it touches the keys
    whose source value is not empty, and so are the pending keys. *)
Lemma batch_loop_spec K indep batchSize mode missingKeys totalKeys order :
  (forall k v, (k, v) ∈ order -> v ≠ "" -> k ∈ K) ->
  forall s,
    length (keys s) = length (batch s) ->
    (forall k, k ∈ keys s -> k ∈ K) ->
    exists s',
      loop (batch_visit target indep batchSize mode missingKeys totalKeys) s order
      = Some s'
      /\ extends K s s'
      /\ length (keys s') = length (batch s')
      /\ (forall k, k ∈ keys s' -> k ∈ K).
Proof.
  intros HK s Hlen Hkeys.
  apply (loop_invariant
           (fun s' => extends K s s'
                      /\ length (keys s') = length (batch s')
                      /\ (forall k, k ∈ keys s' -> k ∈ K))).
  { split; [ext|auto]. }
  intros s1 [k v] Hin (He & Hl & Hk).
  destruct (decide (v = "")) as [->|Hv].
  { exists s1. split; [apply batch_visit_empty|auto]. }
  destruct (batch_visit_spec indep batchSize mode missingKeys totalKeys
              s1 k v Hl) as (s2 & -> & He2 & Hl2 & Hk2).
  assert (HK' : forall k', k' ∈ keys s1 ++ [k] -> k' ∈ K).
  { intros k' Hk'. apply elem_of_app in Hk' as [?|Hk']; [auto|].
    apply list_elem_of_singleton in Hk' as ->. eauto. }
  exists s2. split; [reflexivity|]. split; [|split; [exact Hl2|auto]].
  eapply extends_trans; [exact He|]. eapply extends_mono; [exact HK'|exact He2].
Qed.

Lemma batch_process_spec K order source indep batchSize mode h :
  (forall k v, (k, v) ∈ order -> v ≠ "" -> k ∈ K) ->
  exists out,
    batch_process order source target indep batchSize mode h = Some out
    /\ extends K (start source target h) (final out).
Proof.
  intros HK. unfold cmd.batch_process.
  destruct (batch_loop_spec K indep batchSize mode
              (findMissingKeys (LocaleItemsMap source) (LocaleItemsMap target))
              (Z.of_nat (size (LocaleItemsMap source))) order HK
              (start source target h))
    as (s' & -> & He & Hl & Hk); [reflexivity| |].
  { intros k Hk. by apply elem_of_nil in Hk. }
  assert (exists s1,
            (if (0 <? Z.of_nat (length (batch s')))%Z
             then fst <$> sendBatch target s' else Some s') = Some s1
            /\ extends K s' s1) as (s1 & -> & He1).
  { destruct (0 <? _)%Z; [|eexists; split; [reflexivity|ext]].
    destruct (sendBatch_spec s' Hl) as (s1 & err & -> & He1 & _).
    eexists; split; [reflexivity|]. eapply extends_mono; [exact Hk|exact He1]. }
  eexists; split; [reflexivity|].
  eapply extends_trans; [exact He|].
  eapply extends_trans; [exact He1|].
  eapply extends_mono; [|eapply extends_trans;
                          [apply report_failed_spec|apply persist_spec]].
  intros k Hk'. by apply elem_of_nil in Hk'.
Qed.

End Batch.

Lemma findMissingKeys_covers (source target : gmap string string) :
  covers source target -> findMissingKeys source target = ∅.
Proof.
  intros Hc. apply leibniz_equiv. intros k. split.
  - intros Hk. apply elem_of_findMissingKeys in Hk as [Hs Ht].
    apply Hc in Hs as [t Hs]. congruence.
  - intros Hk. by apply not_elem_of_empty in Hk.
Qed.

Lemma start_silent source target h :
  silent (LocaleItemsMap source) (start source target h).
Proof.
  split4; [apply start_covers| |reflexivity|reflexivity].
  unfold start; simpl. by destruct (0 <? _)%Z.
Qed.

Lemma report_failed_calls target s :
  client_calls (events (report_failed target s)) = client_calls (events s).
Proof.
  unfold cmd.report_failed. destruct (0 <? _)%Z; [|reflexivity].
  rewrite client_calls_emit. destruct (_ <=? 10)%Z; simpl; apply app_nil_r.
Qed.

Lemma persist_calls target totalKeys translated s :
  client_calls (events (final (persist target totalKeys translated s)))
  = client_calls (events s).
Proof.
  unfold cmd.persist. destruct (JSON _) as [buf [err|]]; simpl; [reflexivity|].
  destruct (os_WriteFile _ _ _); unfold_state;
    rewrite ?client_calls_app; simpl; by rewrite ?app_nil_r.
Qed.

(** A run under an override document, or in missing mode on a target that
    has every key of the source, calls the client for no key; it ends with
    the override in every entry whose key was visited with a source value
    that is not empty. *)
Lemma single_process_silent order source target indep mode h :
  is_Some indep
  \/ (mode = "missing"
      /\ covers (LocaleItemsMap source) (LocaleItemsMap target)) ->
  (forall k v, (k, v) ∈ order -> is_Some (LocaleItemsMap source !! k)) ->
  exists out,
    single_process order source target indep mode h = Some out
    /\ client_calls (events (final out)) = []
    /\ (forall k ov o,
          indep = Some ov -> LocaleItemsMap ov !! k = Some o ->
          (exists v, (k, v) ∈ order /\ v ≠ "") ->
          items (final out) !! k = Some o).
Proof.
  intros Hsel Horder. unfold cmd.single_process.
  set (missingKeys := findMissingKeys _ _).
  assert (Hno : is_Some indep \/ (mode = "missing" /\ missingKeys = ∅)).
  { destruct Hsel as [?|[? Hc]]; [by left|right].
    split; [done|]. by apply findMissingKeys_covers. }
  destruct (loop_silent (LocaleItemsMap source) indep _ order
              (single_visit_silent (LocaleItemsMap source) indep mode missingKeys
                 Hno target (Z.of_nat (size (LocaleItemsMap source))))
              Horder (start source target h) (start_silent source target h))
    as (s' & -> & (Hc & Hcalls & _) & Hov).
  eexists; split; [reflexivity|]. split.
  - by rewrite persist_calls, report_failed_calls.
  - intros k ov o Hi Ho Hk.
    destruct (persist_spec target (Z.of_nat (size (LocaleItemsMap source)))
                (translatedCount (report_failed target s'))
                (report_failed target s')) as (_ & -> & _).
    destruct (report_failed_spec target s') as (_ & -> & _).
    eapply Hov; eauto.
Qed.

Lemma batch_process_silent order source target indep batchSize mode h :
  is_Some indep
  \/ (mode = "missing"
      /\ covers (LocaleItemsMap source) (LocaleItemsMap target)) ->
  (forall k v, (k, v) ∈ order -> is_Some (LocaleItemsMap source !! k)) ->
  exists out,
    batch_process order source target indep batchSize mode h = Some out
    /\ client_calls (events (final out)) = []
    /\ (forall k ov o,
          indep = Some ov -> LocaleItemsMap ov !! k = Some o ->
          (exists v, (k, v) ∈ order /\ v ≠ "") ->
          items (final out) !! k = Some o).
Proof.
  intros Hsel Horder. unfold cmd.batch_process.
  set (missingKeys := findMissingKeys _ _).
  assert (Hno : is_Some indep \/ (mode = "missing" /\ missingKeys = ∅)).
  { destruct Hsel as [?|[? Hc]]; [by left|right].
    split; [done|]. by apply findMissingKeys_covers. }
  destruct (loop_silent (LocaleItemsMap source) indep _ order
              (batch_visit_silent (LocaleItemsMap source) indep mode missingKeys
                 Hno target batchSize (Z.of_nat (size (LocaleItemsMap source))))
              Horder (start source target h) (start_silent source target h))
    as (s' & -> & (Hc & Hcalls & Hb & _) & Hov).
  rewrite Hb. simpl.
  eexists; split; [reflexivity|]. split.
  - by rewrite persist_calls, report_failed_calls.
  - intros k ov o Hi Ho Hk.
    match goal with
    | |- items (final (cmd.persist _ _ _ ?a ?b ?c)) !! _ = _ =>
        destruct (persist_spec target a b c) as (_ & -> & _)
    end.
    destruct (report_failed_spec target s') as (_ & -> & _).
    eapply Hov; eauto.
Qed.

(** *** What a run that returns leaves in the target *)

Lemma loop_partial {A} (P : state Handler -> Prop)
    (body : state Handler -> A -> option (state Handler)) l :
  (forall s a s', P s -> body s a = Some s' -> P s') ->
  forall s s', P s -> loop body s l = Some s' -> P s'.
Proof.
  intros Hbody. induction l as [|a l IH]; intros s s' Hs; simpl.
  - by intros [= <-].
  - destruct (body s a) as [s1|] eqn:Hb; [|discriminate].
    apply IH. eapply Hbody; eauto.
Qed.

Lemma covers_insert (src m : gmap string string) k v :
  covers src m -> covers src (<[k := v]> m).
Proof.
  intros Hc k' Hk'. destruct (decide (k = k')) as [->|?].
  - rewrite lookup_insert_eq. eauto.
  - rewrite lookup_insert_ne by done. by apply Hc.
Qed.

Lemma sendBatch_covers (src : gmap string string) target s s' err :
  covers src (items s) ->
  sendBatch target s = Some (s', err) ->
  covers src (items s').
Proof.
  intros Hc. unfold cmd.sendBatch.
  destruct (_ =? 0)%Z; [by intros [= <- _]|].
  destruct (BatchTranslate _ _ _) as [[results [e|]] h1].
  - match goal with
    | |- context [loop ?body ?s0 ?l] =>
        destruct (loop body s0 l) as [s2|] eqn:Hloop; [|discriminate];
        apply (loop_partial (fun s => covers src (items s)) body l) in Hloop
    end.
    + by intros [= <- _].
    + intros s1 [i text] s2' H1. simpl.
      destruct (keys s1 !! i); [|discriminate]. by intros [= <-].
    + exact Hc.
  - match goal with
    | |- context [loop ?body ?s0 ?l] =>
        destruct (loop body s0 l) as [s2|] eqn:Hloop; [|discriminate];
        apply (loop_partial (fun s => covers src (items s)) body l) in Hloop
    end.
    + by intros [= <- _].
    + intros s1 [i result] s2' H1. simpl.
      destruct (keys s1 !! i); [|discriminate].
      destruct (is_blank result).
      * destruct (batch s1 !! i); [|discriminate]. by intros [= <-].
      * intros [= <-]. by apply covers_insert.
    + exact Hc.
Qed.

(** After a call of either function that returns, every key of the source
    has an entry in the target. *)
Lemma single_process_covers order source target indep mode h out :
  single_process order source target indep mode h = Some out ->
  covers (LocaleItemsMap source) (items (final out)).
Proof.
  destruct (single_process_spec ((filter (fun kv => kv.2 ≠ "") order).*1)
              order source target indep mode h) as (out' & -> & He).
  - intros k v Hin Hv. apply list_elem_of_fmap. exists (k, v).
    split; [reflexivity|]. by apply list_elem_of_filter.
  - intros [= <-]. eapply extends_covers; [exact He|apply start_covers].
Qed.

Lemma batch_process_covers order source target indep batchSize mode h out :
  batch_process order source target indep batchSize mode h = Some out ->
  covers (LocaleItemsMap source) (items (final out)).
Proof.
  unfold cmd.batch_process.
  match goal with
  | |- context [loop ?body ?s0 ?l] =>
      destruct (loop body s0 l) as [s|] eqn:Hloop; [|discriminate];
      apply (loop_partial (fun s => covers (LocaleItemsMap source) (items s))
               body l) in Hloop
  end.
  - assert (forall s1,
              (if (0 <? Z.of_nat (length (batch s)))%Z
               then fst <$> sendBatch target s else Some s) = Some s1 ->
              covers (LocaleItemsMap source) (items s1)) as Hflush.
    { intros s1. destruct (0 <? _)%Z; [|by intros [= <-]].
      destruct (sendBatch target s) as [[s2 err]|] eqn:Hsend; [|discriminate].
      intros [= <-]. eapply sendBatch_covers; eauto. }
    destruct (if (0 <? _)%Z then _ else _) as [s1|]; [|discriminate].
    intros [= <-].
    match goal with
    | |- covers _ (items (final (cmd.persist _ _ _ ?a ?b ?c))) =>
        destruct (persist_spec target a b c) as (_ & -> & _)
    end.
    destruct (report_failed_spec target s1) as (_ & -> & _). by apply Hflush.
  - intros s1 [k v] s2 H1. unfold cmd.batch_visit.
    destruct (negb _); [|by intros [= <-]].
    destruct (needToTranslate_batch_spec indep mode
                (findMissingKeys (LocaleItemsMap source) (LocaleItemsMap target))
                (items s1) k v) as (b & m' & -> & Hm').
    assert (Hc' : covers (LocaleItemsMap source) m').
    { destruct Hm' as [->|(ov & o & _ & _ & _ & _ & ->)];
        [done|by apply covers_insert]. }
    destruct b.
    + destruct (_ >=? _)%Z.
      * match goal with
        | |- context [sendBatch target ?s0] =>
            destruct (sendBatch target s0) as [[s3 err]|] eqn:Hsend;
              [|discriminate];
            apply (sendBatch_covers (LocaleItemsMap source)) in Hsend;
              [|exact Hc']
        end.
        by intros [= <-].
      * by intros [= <-].
    + by intros [= <-].
  - apply start_covers.
Qed.

(** *** The document that is written *)

Lemma persist_writes target totalKeys translated s buf :
  JSON (written target (items s)) = (buf, None) ->
  WriteFile (Path target) buf
  ∈ events (final (persist target totalKeys translated s)).
Proof.
  unfold cmd.persist, written. intros ->.
  destruct (os_WriteFile _ _ _); unfold_state;
    rewrite ?elem_of_app, ?list_elem_of_singleton; auto.
Qed.

Lemma single_process_writes order source target indep mode h out buf :
  single_process order source target indep mode h = Some out ->
  JSON (written target (items (final out))) = (buf, None) ->
  WriteFile (Path target) buf ∈ events (final out).
Proof.
  unfold cmd.single_process. destruct (loop _ _ _) as [s|]; [|discriminate].
  intros [= <-].
  match goal with
  | |- context [cmd.persist _ _ _ ?a ?b ?c] =>
      destruct (persist_spec target a b c) as (_ & -> & _)
  end.
  apply persist_writes.
Qed.

Lemma batch_process_writes order source target indep batchSize mode h out buf :
  batch_process order source target indep batchSize mode h = Some out ->
  JSON (written target (items (final out))) = (buf, None) ->
  WriteFile (Path target) buf ∈ events (final out).
Proof.
  unfold cmd.batch_process. destruct (loop _ _ _) as [s|]; [|discriminate].
  destruct (if (0 <? _)%Z then _ else _) as [s1|]; [|discriminate].
  intros [= <-].
  match goal with
  | |- context [cmd.persist _ _ _ ?a ?b ?c] =>
      destruct (persist_spec target a b c) as (_ & -> & _)
  end.
  apply persist_writes.
Qed.

(** *** The claims on the key loop *)

(** C10. The decision of either strategy never panics: the branch that
    reads the first byte of the target value comes after the branch that
    takes the empty value, so the index is in bounds whatever the documents
    are.  The single-item strategy as a whole has no other index
    expression, and always returns. *)
Theorem sentinel_index_in_bounds indep mode missingKeys m k v :
  is_Some (needToTranslate_single indep mode missingKeys m k)
  /\ is_Some (needToTranslate_batch indep mode missingKeys m k v)
  /\ (forall order source target h,
        is_Some (single_process order source target indep mode h)).
Proof.
  split; [|split].
  - destruct (needToTranslate_single_spec indep mode missingKeys m k)
      as (b & m' & -> & _). eauto.
  - destruct (needToTranslate_batch_spec indep mode missingKeys m k v)
      as (b & m' & -> & _). eauto.
  - intros order source target h.
    destruct (single_process_spec (order.*1) order source target indep mode h)
      as (out & -> & _); [|eauto].
    intros k' v' Hin _. apply list_elem_of_fmap. by exists (k', v').
Qed.

(** C5. A key of the override document whose source value is not empty and
    which has an entry in the target ends with the value of the override
    document, in any mode and under both strategies, and the client is not
    called (for that key or any other). *)
Theorem override_wins order source target ov mode batchSize h k v o :
  ranges_over (LocaleItemsMap source) order ->
  LocaleItemsMap source !! k = Some v ->
  v ≠ "" ->
  is_Some (LocaleItemsMap target !! k) ->
  LocaleItemsMap ov !! k = Some o ->
  (exists out,
     single_process order source target (Some ov) mode h = Some out
     /\ items (final out) !! k = Some o
     /\ client_calls (events (final out)) = []
     /\ (k ∉ keys_called (events (final out))))
  /\ (exists out,
        batch_process order source target (Some ov) batchSize mode h = Some out
        /\ items (final out) !! k = Some o
        /\ client_calls (events (final out)) = []
        /\ (k ∉ keys_called (events (final out)))).
Proof.
  intros Horder Hv Hne _ Ho.
  assert (Hsrc : forall k' v', (k', v') ∈ order ->
                               is_Some (LocaleItemsMap source !! k')).
  { intros k' v' Hin. rewrite (ranges_over_lookup _ _ _ _ Horder Hin). eauto. }
  assert (Hin : exists v0, (k, v0) ∈ order /\ v0 ≠ "").
  { exists v. split; [|exact Hne]. by apply (ranges_over_elem _ _ _ _ Horder). }
  split.
  - destruct (single_process_silent order source target (Some ov) mode h)
      as (out & Hout & Hcalls & Hov); [left; eauto|exact Hsrc|].
    exists out. split; [exact Hout|]. split; [eapply Hov; eauto|].
    split; [exact Hcalls|]. rewrite (client_calls_keys _ Hcalls).
    apply not_elem_of_nil.
  - destruct (batch_process_silent order source target (Some ov) batchSize mode h)
      as (out & Hout & Hcalls & Hov); [left; eauto|exact Hsrc|].
    exists out. split; [exact Hout|]. split; [eapply Hov; eauto|].
    split; [exact Hcalls|]. rewrite (client_calls_keys _ Hcalls).
    apply not_elem_of_nil.
Qed.

(** C8. After a run in missing mode that returned, under either strategy, a
    second run in missing mode on the same source and on the target the
    first run left calls the client not once, under either strategy: the
    first run left an entry for every key of the source, so no key is
    missing. *)
Theorem missing_mode_idempotent order1 order2 source target indep1 indep2
    batchSize1 batchSize2 h1 h2 out1 :
  single_process order1 source target indep1 "missing" h1 = Some out1
  \/ batch_process order1 source target indep1 batchSize1 "missing" h1
     = Some out1 ->
  ranges_over (LocaleItemsMap source) order2 ->
  (exists out2,
     single_process order2 source (written target (items (final out1)))
       indep2 "missing" h2 = Some out2
     /\ client_calls (events (final out2)) = [])
  /\ (exists out2,
        batch_process order2 source (written target (items (final out1)))
          indep2 batchSize2 "missing" h2 = Some out2
        /\ client_calls (events (final out2)) = []).
Proof.
  intros Hfirst Horder.
  assert (Hc : covers (LocaleItemsMap source) (items (final out1))).
  { destruct Hfirst as [H|H].
    - eapply single_process_covers, H.
    - eapply batch_process_covers, H. }
  assert (Hsrc : forall k' v', (k', v') ∈ order2 ->
                               is_Some (LocaleItemsMap source !! k')).
  { intros k' v' Hin. rewrite (ranges_over_lookup _ _ _ _ Horder Hin). eauto. }
  split.
  - destruct (single_process_silent order2 source
                (written target (items (final out1))) indep2 "missing" h2)
      as (out & Hout & Hcalls & _); [right; split; [reflexivity|exact Hc]|exact Hsrc|].
    eauto.
  - destruct (batch_process_silent order2 source
                (written target (items (final out1))) indep2 batchSize2
                "missing" h2)
      as (out & Hout & Hcalls & _); [right; split; [reflexivity|exact Hc]|exact Hsrc|].
    eauto.
Qed.

(** What both functions do with a key of the source whose value is the
    empty string: the client is not called for the key; an entry the target
    had for the key is unchanged; a key the target had no entry for ends
    with the empty string as its entry, and the document that is written
    holds that entry. *)
Lemma empty_source_value_frame order source target indep mode batchSize h k :
  length_preserving (Lang target) BatchTranslate ->
  ranges_over (LocaleItemsMap source) order ->
  LocaleItemsMap source !! k = Some "" ->
  (exists out,
     single_process order source target indep mode h = Some out
     /\ (k ∉ keys_called (events (final out)))
     /\ items (final out) !! k
        = Some (default "" (LocaleItemsMap target !! k))
     /\ (forall buf,
           JSON (written target (items (final out))) = (buf, None) ->
           WriteFile (Path target) buf ∈ events (final out)))
  /\ (exists out,
        batch_process order source target indep batchSize mode h = Some out
        /\ (k ∉ keys_called (events (final out)))
        /\ items (final out) !! k
           = Some (default "" (LocaleItemsMap target !! k))
        /\ (forall buf,
              JSON (written target (items (final out))) = (buf, None) ->
              WriteFile (Path target) buf ∈ events (final out))).
Proof.
  intros Hlen Horder Hk.
  set (K := (filter (fun kv : string * string => kv.2 ≠ "") order).*1).
  assert (HK : forall k' v', (k', v') ∈ order -> v' ≠ "" -> k' ∈ K).
  { intros k' v' Hin Hv. apply list_elem_of_fmap. exists (k', v').
    split; [reflexivity|]. by apply list_elem_of_filter. }
  assert (HkK : k ∉ K).
  { intros Hin. apply list_elem_of_fmap in Hin as ([k' v'] & -> & Hin).
    apply list_elem_of_filter in Hin as [Hv Hin]. simpl in *.
    rewrite (ranges_over_lookup _ _ _ _ Horder Hin) in Hk. congruence. }
  assert (Hstart : forall out : outcome Handler,
             extends K (start source target h) (final out) ->
             (k ∉ keys_called (events (final out)))
             /\ items (final out) !! k
                = Some (default "" (LocaleItemsMap target !! k))).
  { intros out He. destruct (extends_frame _ _ _ k He HkK) as [Hi Hc].
    split.
    - apply Hc. rewrite start_keys_called. apply not_elem_of_nil.
    - rewrite Hi, start_items, Hk. by destruct (LocaleItemsMap target !! k). }
  split.
  - destruct (single_process_spec K order source target indep mode h HK)
      as (out & Hout & He).
    exists out. split; [exact Hout|]. destruct (Hstart out He) as [Hc Hi].
    split; [exact Hc|]. split; [exact Hi|].
    intros buf. by apply single_process_writes with (1 := Hout).
  - destruct (batch_process_spec target Hlen K order source indep batchSize
                mode h HK) as (out & Hout & He).
    exists out. split; [exact Hout|]. destruct (Hstart out He) as [Hc Hi].
    split; [exact Hc|]. split; [exact Hi|].
    intros buf. by apply batch_process_writes with (1 := Hout).
Qed.

(** A key with the empty source value and no entry in the target is given
    the empty string as its entry. *)
Lemma empty_source_value_absent order source target indep mode batchSize h k :
  length_preserving (Lang target) BatchTranslate ->
  ranges_over (LocaleItemsMap source) order ->
  LocaleItemsMap source !! k = Some "" ->
  LocaleItemsMap target !! k = None ->
  (exists out,
     single_process order source target indep mode h = Some out
     /\ items (final out) !! k = Some "")
  /\ (exists out,
        batch_process order source target indep batchSize mode h = Some out
        /\ items (final out) !! k = Some "").
Proof.
  intros Hlen Horder Hk Ht.
  destruct (empty_source_value_frame order source target indep mode batchSize
              h k Hlen Horder Hk)
    as [(out1 & Ho1 & _ & Hi1 & _) (out2 & Ho2 & _ & Hi2 & _)].
  rewrite Ht in Hi1, Hi2.
  split; [exists out1|exists out2]; (split; [assumption|]);
    [exact Hi1|exact Hi2].
Qed.

(** C2, as amended.  For a key of the source whose value is the empty
    string, under both strategies, in any mode, with or without an override
    document: the client is not called for the key, and the entry the
    target has for the key when the call starts is unchanged when it
    ends. *)
Theorem empty_source_value order source target indep mode batchSize h k :
  length_preserving (Lang target) BatchTranslate ->
  ranges_over (LocaleItemsMap source) order ->
  LocaleItemsMap source !! k = Some "" ->
  (exists out,
     single_process order source target indep mode h = Some out
     /\ (k ∉ keys_called (events (final out)))
     /\ (forall t, LocaleItemsMap target !! k = Some t ->
                   items (final out) !! k = Some t))
  /\ (exists out,
        batch_process order source target indep batchSize mode h = Some out
        /\ (k ∉ keys_called (events (final out)))
        /\ (forall t, LocaleItemsMap target !! k = Some t ->
                      items (final out) !! k = Some t)).
Proof.
  intros Hlen Horder Hk.
  destruct (empty_source_value_frame order source target indep mode batchSize
              h k Hlen Horder Hk)
    as [(out1 & Ho1 & Hc1 & Hi1 & _) (out2 & Ho2 & Hc2 & Hi2 & _)].
  split.
  - exists out1. split; [exact Ho1|]. split; [exact Hc1|].
    intros t Ht. by rewrite Hi1, Ht.
  - exists out2. split; [exact Ho2|]. split; [exact Hc2|].
    intros t Ht. by rewrite Hi2, Ht.
Qed.

(** *** A deterministic translator *)

Lemma loop_partial_in {A} (P : state Handler -> Prop)
    (body : state Handler -> A -> option (state Handler)) l :
  (forall s a s', a ∈ l -> P s -> body s a = Some s' -> P s') ->
  forall s s', P s -> loop body s l = Some s' -> P s'.
Proof.
  induction l as [|a l IH]; intros Hbody s s' Hs; simpl.
  - by intros [= <-].
  - destruct (body s a) as [s1|] eqn:Hb; [|discriminate].
    apply IH.
    + intros s2 b s3 Hin. apply Hbody. by right.
    + apply (Hbody s a s1); [by left|exact Hs|exact Hb].
Qed.

(** The rule for a loop one of whose elements establishes [Q], which the
    other elements keep, under an invariant [I] of the loop. *)
Lemma loop_establish {A} (I Q : state Handler -> Prop)
    (body : state Handler -> A -> option (state Handler)) l a0 :
  a0 ∈ l ->
  (forall s a s', a ∈ l -> I s -> body s a = Some s' -> I s') ->
  (forall s s', I s -> body s a0 = Some s' -> Q s') ->
  (forall s a s', a ∈ l -> I s -> Q s -> body s a = Some s' -> Q s') ->
  forall s s', I s -> loop body s l = Some s' -> Q s'.
Proof.
  induction l as [|a l IH]; intros Hin HI Hest Hkeep s s' Hs;
    [by apply elem_of_nil in Hin|].
  simpl. destruct (body s a) as [s1|] eqn:Hb; [|discriminate].
  assert (Hs1 : I s1) by (apply (HI s a s1); [by left|exact Hs|exact Hb]).
  apply elem_of_cons in Hin as [->|Hin].
  - intros Hloop.
    apply (loop_partial_in (fun s => I s /\ Q s) body l) in Hloop as [_ HQ];
      [exact HQ| |split; eauto].
    intros s2 b s3 Hb2 [HI2 HQ2] Hstep. split.
    + apply (HI s2 b s3); [by right|exact HI2|exact Hstep].
    + apply (Hkeep s2 b s3); [by right|exact HI2|exact HQ2|exact Hstep].
  - apply IH; auto.
    + intros s2 b s3 Hb2. apply HI. by right.
    + intros s2 b s3 Hb2. apply Hkeep. by right.
Qed.

Section Deterministic.

Variable target : LocaleFileContent.
Variable f : string -> string.
Hypothesis Hdet : deterministic (Lang target) f Translate BatchTranslate.

Lemma deterministic_length : length_preserving (Lang target) BatchTranslate.
Proof.
  intros texts h _. destruct Hdet as [_ HB]. rewrite HB. simpl.
  apply List.length_map.
Qed.

Lemma settled_quiet k r s s' :
  items s' = items s -> failedKeys s' = failedKeys s ->
  keys_called (events s') = keys_called (events s) ->
  settled k r s -> settled k r s'.
Proof. unfold settled. intros -> -> ->. auto. Qed.

Lemma settled_extends K k r s s' :
  extends K s s' -> k ∉ K -> settled k r s -> settled k r s'.
Proof.
  intros (Ha & _ & (new & He & Hc) & Hd) Hk Hs Hcalled.
  rewrite He, keys_called_app, elem_of_app in Hcalled.
  destruct Hcalled as [Hcalled|Hnew]; [|by apply Hc in Hnew].
  destruct (Hs Hcalled) as [?|Hi]; [left; auto|right].
  by rewrite Ha.
Qed.

(** The translation of a value that is not an array: the key fails or
    receives the answer of the translator. *)
Lemma translate_key_plain k v s :
  array_value json_Unmarshal v = false ->
  k ∈ failedKeys (translate_key k v (Lang target) s)
  \/ items (translate_key k v (Lang target) s) !! k = Some (f v).
Proof.
  intros Harr. unfold cmd.translate_key.
  assert (Ha : translate_as_array k v (Lang target) s = (false, true, s)).
  { unfold cmd.translate_as_array. unfold array_value in Harr.
    destruct (strings.HasPrefix v "[" && strings.HasSuffix v "]");
      [|reflexivity].
    destruct (json_Unmarshal v) as [stringArray [err|]]; [reflexivity|].
    simpl in Harr. first [discriminate|by rewrite bool_decide_eq_true_2 in Harr]. }
  rewrite Ha. simpl. unfold cmd.translate_as_string.
  destruct Hdet as [HT _]. specialize (HT v (handler s)).
  destruct (Translate v (Lang target) (handler s)) as [[result err] h1].
  simpl in HT. injection HT as -> ->.
  destruct (is_blank (f v)).
  - left. unfold_state. apply elem_of_app. right. by left.
  - right. unfold_state. apply lookup_insert_eq.
Qed.

Lemma single_visit_settles mode missingKeys totalKeys s k v :
  array_value json_Unmarshal v = false ->
  settled k (f v) s ->
  exists s',
    single_visit target None mode missingKeys totalKeys s (k, v) = Some s'
    /\ settled k (f v) s'.
Proof.
  intros Harr Hs. unfold cmd.single_visit.
  destruct (negb (len v =? 0)%Z); [|eauto].
  destruct (needToTranslate_single_spec None mode missingKeys (items s) k)
    as (b & m' & -> & Hm').
  assert (m' = items s) as ->.
  { destruct Hm' as [->|(ov & o & [=] & _)]. reflexivity. }
  eexists; split; [reflexivity|]. destruct b.
  - intros _.
    destruct (translate_key_plain k v (set_items (items s) s) Harr)
      as [?|?]; [left|right]; assumption.
  - revert Hs. apply settled_quiet; unfold_state; try reflexivity.
    by rewrite keys_called_app, app_nil_r.
Qed.

Lemma single_process_settles order source mode h k v :
  ranges_over (LocaleItemsMap source) order ->
  LocaleItemsMap source !! k = Some v ->
  array_value json_Unmarshal v = false ->
  exists out,
    single_process order source target None mode h = Some out
    /\ settled k (f v) (final out).
Proof.
  intros Horder Hk Harr. unfold cmd.single_process.
  match goal with
  | |- context [loop ?body ?s0 ?l] =>
      destruct (loop_invariant (settled k (f v)) body l s0)
        as (s' & -> & Hs')
  end.
  - intros Hc. rewrite start_keys_called in Hc. by apply elem_of_nil in Hc.
  - intros s [k' v'] Hin Hs.
    destruct (decide (k' = k)) as [->|Hne].
    + rewrite (ranges_over_lookup _ _ _ _ Horder Hin) in Hk.
      injection Hk as ->. by apply single_visit_settles.
    + match goal with
      | |- context [cmd.single_visit _ _ _ ?tg ?i ?md ?mk ?tk s (k', v')] =>
          destruct (single_visit_spec tg i md mk tk s k' v')
            as (s1 & -> & He & _)
      end.
      exists s1. split; [reflexivity|].
      eapply settled_extends; [exact He| |exact Hs].
      intros Hin'. apply list_elem_of_singleton in Hin'. congruence.
  - eexists; split; [reflexivity|].
    eapply settled_extends; [apply persist_spec|apply not_elem_of_nil|].
    eapply settled_extends; [apply report_failed_spec|apply not_elem_of_nil|].
    exact Hs'.
Qed.

Lemma elem_of_enumerate_map (g : string -> string) (l : list string) i r :
  (i, r) ∈ enumerate (map g l) <-> exists text, l !! i = Some text /\ r = g text.
Proof.
  unfold enumerate. change (map g l) with (g <$> l). split.
  - intros H. apply elem_of_lookup_imap in H as (j & y & [= -> ->] & Hl).
    rewrite list_lookup_fmap in Hl.
    destruct (l !! j) as [text|]; [|discriminate].
    injection Hl as <-. eauto.
  - intros (text & Hl & ->).
    apply (elem_of_lookup_imap_2 (fun i x => (i, x)) (g <$> l) (g text) i).
    by rewrite list_lookup_fmap, Hl.
Qed.

(** A flush under a deterministic translator: it returns without error,
    nothing is left pending, and every pending key is settled. *)
Lemma flush_settles (src : gmap string string) s k v :
  aligned src s ->
  src !! k = Some v ->
  settled k (f v) s ->
  exists s',
    sendBatch target s = Some (s', None)
    /\ batch s' = [] /\ keys s' = []
    /\ settled k (f v) s'.
Proof.
  intros [Hlen Hal] Hk Hs.
  destruct (sendBatch_spec target deterministic_length s Hlen)
    as (s' & err & Heq & He & _ & _).
  pose proof Heq as Heq0. unfold cmd.sendBatch in Heq.
  destruct (Z.of_nat (length (batch s)) =? 0)%Z eqn:Hz.
  { injection Heq as <- <-. exists s. split; [exact Heq0|].
    apply Z.eqb_eq in Hz.
    assert (batch s = []) as Hb by (apply nil_length_inv; lia).
    split; [exact Hb|]. split; [|exact Hs].
    apply nil_length_inv. rewrite Hlen, Hb. reflexivity. }
  destruct Hdet as [_ HB]. specialize (HB (batch s) (handler s)).
  destruct (BatchTranslate (batch s) (Lang target) (handler s))
    as [[results err0] h1].
  simpl in HB. injection HB as -> ->.
  match type of Heq with
  | context [loop ?body ?s0 ?l] =>
      destruct (loop body s0 l) as [s2|] eqn:Hloop; [|discriminate];
      pose proof (fun a0 Q =>
                    loop_establish
                      (fun s' => keys s' = keys s /\ batch s' = batch s)
                      Q body l a0) as Hrule
  end.
  injection Heq as <- <-.
  exists (set_batch [] [] s2). split; [exact Heq0|].
  split; [reflexivity|]. split; [reflexivity|].
  intros Hcalled. destruct (decide (k ∈ keys s)) as [Hin|Hnin].
  2:{ by apply (settled_extends _ _ _ _ _ He Hnin Hs). }
  apply list_elem_of_lookup_1 in Hin as [i Hi].
  destruct (lookup_lt_is_Some_2 (batch s) i) as [text Htext].
  { rewrite <- Hlen. eapply lookup_lt_Some, Hi. }
  assert (text = v) as -> by (specialize (Hal i k text Hi Htext); congruence).
  change (k ∈ failedKeys s2 \/ items s2 !! k = Some (f v)).
  eapply (Hrule (i, f v)
            (fun s' => k ∈ failedKeys s'
                       \/ items s' !! k = Some (f v)));
    [| | | | |exact Hloop].
  - apply elem_of_enumerate_map. eauto.
  - intros s0 [j r] s0' _ [Hk0 Hb0]. simpl. rewrite Hk0.
    destruct (keys s !! j); [|discriminate].
    destruct (is_blank r).
    + rewrite Hb0. destruct (batch s !! j); [|discriminate].
      by intros [= <-].
    + by intros [= <-].
  - intros s0 s0' [Hk0 Hb0]. simpl. rewrite Hk0, Hi, Hb0, Htext.
    destruct (is_blank (f v)); intros [= <-].
    + left. unfold_state. apply elem_of_app. right. by left.
    + right. unfold_state. apply lookup_insert_eq.
  - intros s0 [j r] s0' Hj [Hk0 Hb0] HQ. simpl. rewrite Hk0, Hb0.
    apply elem_of_enumerate_map in Hj as (text & Hj & ->).
    destruct (keys s !! j) as [key|] eqn:Hkey; [|discriminate].
    rewrite Hj.
    destruct (is_blank (f text)); intros [= <-].
    + destruct HQ as [?|?]; [left|right; assumption].
      unfold_state. apply elem_of_app. by left.
    + destruct (decide (key = k)) as [->|Hne].
      * right. unfold_state. rewrite lookup_insert_eq.
        specialize (Hal j k text Hkey Hj). congruence.
      * destruct HQ as [?|?]; [left; assumption|right].
        unfold_state. by rewrite lookup_insert_ne.
  - split; reflexivity.
Qed.

Lemma batch_visit_settles (src : gmap string string) batchSize mode
    missingKeys totalKeys s k v k' v' :
  src !! k = Some v -> src !! k' = Some v' ->
  aligned src s ->
  settled k (f v) s ->
  exists s',
    batch_visit target None batchSize mode missingKeys totalKeys s (k', v')
    = Some s'
    /\ aligned src s'
    /\ settled k (f v) s'.
Proof.
  intros Hk Hk' Hal Hs. unfold cmd.batch_visit.
  destruct (negb (len v' =? 0)%Z); [|eauto].
  destruct (needToTranslate_batch_spec None mode missingKeys (items s) k' v')
    as (b & m' & -> & Hm').
  assert (m' = items s) as ->.
  { destruct Hm' as [->|(ov & o & [=] & _)]. reflexivity. }
  assert (Hq : forall s0 : state Handler,
             settled k (f v) s0 ->
             settled k (f v)
               (incr_count
                  (emit [Print (MsgProgress (Path target) (count s0) totalKeys
                                  (translatedCount s0))] s0))).
  { intros s0. apply settled_quiet; unfold_state; try reflexivity.
    by rewrite keys_called_app, app_nil_r. }
  destruct b.
  - set (s2 := incr_translated
                 (set_batch (batch (set_items (items s) s) ++ [v'])
                    (keys (set_items (items s) s) ++ [k'])
                    (set_items (items s) s))).
    assert (Hal2 : aligned src s2).
    { destruct Hal as [Hlen Hal]. subst s2. split; unfold_state.
      - rewrite !length_app. simpl. lia.
      - intros i key text Hi Ht.
        destruct (decide (i < length (keys s))%nat) as [Hlt|Hge].
        + rewrite lookup_app_l in Hi by done.
          rewrite lookup_app_l in Ht by lia. eauto.
        + rewrite lookup_app_r in Hi by lia.
          rewrite lookup_app_r in Ht by lia.
          rewrite Hlen in Hi.
          destruct (i - length (batch s))%nat; [|done].
          simpl in *. congruence. }
    assert (Hs2 : settled k (f v) s2).
    { revert Hs. subst s2. apply settled_quiet; reflexivity. }
    destruct (Z.of_nat (length (batch s2)) >=? batchSize)%Z.
    + destruct (flush_settles src s2 k v Hal2 Hk Hs2)
        as (s3 & -> & Hb3 & Hk3 & Hs3).
      simpl. eexists; split; [reflexivity|]. split; [|by apply Hq].
      split; unfold_state; rewrite Hb3, Hk3; [reflexivity|].
      intros i key text Hi. by rewrite lookup_nil in Hi.
    + eexists; split; [reflexivity|]. split; [exact Hal2|by apply Hq].
  - eexists; split; [reflexivity|]. split; [exact Hal|].
    apply Hq. revert Hs. apply settled_quiet; reflexivity.
Qed.

Lemma batch_process_settles order source batchSize mode h k v :
  ranges_over (LocaleItemsMap source) order ->
  LocaleItemsMap source !! k = Some v ->
  exists out,
    batch_process order source target None batchSize mode h = Some out
    /\ settled k (f v) (final out).
Proof.
  intros Horder Hk. unfold cmd.batch_process.
  match goal with
  | |- context [loop ?body ?s0 ?l] =>
      destruct (loop_invariant
                  (fun s => aligned (LocaleItemsMap source) s
                            /\ settled k (f v) s) body l s0)
        as (s' & -> & Hal & Hs')
  end.
  - split.
    + split; [reflexivity|]. intros i key text Hi. by destruct i.
    + intros Hc. rewrite start_keys_called in Hc. by apply elem_of_nil in Hc.
  - intros s [k' v'] Hin [Hal Hs].
    eapply batch_visit_settles; eauto.
    eapply ranges_over_lookup; eauto.
  - assert (exists s1,
              (if (0 <? Z.of_nat (length (batch s')))%Z
               then fst <$> sendBatch target s' else Some s') = Some s1
              /\ settled k (f v) s1) as (s1 & -> & Hs1).
    { destruct (0 <? _)%Z; [|eauto].
      destruct (flush_settles _ s' k v Hal Hk Hs')
        as (s1 & -> & _ & _ & Hs1). simpl. eauto. }
    eexists; split; [reflexivity|].
    eapply settled_extends; [apply persist_spec|apply not_elem_of_nil|].
    eapply settled_extends; [apply report_failed_spec|apply not_elem_of_nil|].
    exact Hs1.
Qed.

(** C4, as amended.  Under a deterministic translator, for the same source,
    target, override document and mode, any two visiting orders and any
    batch size, both strategies return, and a key whose source value the
    single-item strategy does not translate as a JSON array, for which the
    client was called under both strategies and which neither recorded as
    failed, has the same final value under both: the answer of the
    translator to the source value. *)
Theorem strategies_agree order1 order2 source indep mode batchSize
    h1 h2 k v :
  ranges_over (LocaleItemsMap source) order1 ->
  ranges_over (LocaleItemsMap source) order2 ->
  LocaleItemsMap source !! k = Some v ->
  array_value json_Unmarshal v = false ->
  exists out1 out2,
    single_process order1 source target indep mode h1 = Some out1
    /\ batch_process order2 source target indep batchSize mode h2 = Some out2
    /\ (k ∈ keys_called (events (final out1)) ->
        k ∉ failedKeys (final out1) ->
        k ∈ keys_called (events (final out2)) ->
        k ∉ failedKeys (final out2) ->
        items (final out1) !! k = items (final out2) !! k
        /\ items (final out2) !! k = Some (f v)).
Proof.
  intros Ho1 Ho2 Hk Harr. destruct indep as [ov|].
  - destruct (single_process_silent order1 source target (Some ov) mode h1)
      as (out1 & -> & Hc1 & _); [left; eauto| |].
    { intros k' v' Hin. rewrite (ranges_over_lookup _ _ _ _ Ho1 Hin). eauto. }
    destruct (batch_process_silent order2 source target (Some ov) batchSize
                mode h2) as (out2 & -> & Hc2 & _); [left; eauto| |].
    { intros k' v' Hin. rewrite (ranges_over_lookup _ _ _ _ Ho2 Hin). eauto. }
    exists out1, out2. split; [reflexivity|]. split; [reflexivity|].
    intros Hin. rewrite (client_calls_keys _ Hc1) in Hin.
    by apply elem_of_nil in Hin.
  - destruct (single_process_settles order1 source mode h1 k v Ho1 Hk Harr)
      as (out1 & -> & Hs1).
    destruct (batch_process_settles order2 source batchSize mode h2 k v
                Ho2 Hk) as (out2 & -> & Hs2).
    exists out1, out2. split; [reflexivity|]. split; [reflexivity|].
    intros Hc1 Hf1 Hc2 Hf2.
    destruct (Hs1 Hc1) as [?|Hi1]; [done|].
    destruct (Hs2 Hc2) as [?|Hi2]; [done|].
    split; [by rewrite Hi1, Hi2|exact Hi2].
Qed.

End Deterministic.

(** *** The count summary *)

Lemma persist_summary target totalKeys translated s :
  ret (persist target totalKeys translated s) = None ->
  last (events (final (persist target totalKeys translated s)))
  = Some (Print (MsgDone (Path target) totalKeys totalKeys translated
                   (Z.of_nat (length (failedKeys s))))).
Proof.
  unfold cmd.persist. destruct (JSON _) as [buf [err|]]; [discriminate|].
  destruct (os_WriteFile _ _ _); [discriminate|]. intros _.
  unfold_state. apply last_snoc.
Qed.

(** *** The keys of the target after a call *)

(** X5. [findMissingKeys] gives the keys of the source that the target does
    not have, whatever the order in which [range] yields the entries of the
    source; there are at most as many as the source has keys. *)
Theorem findMissingKeys_is_difference (source target : gmap string string)
    order :
  ranges_over source order ->
  findMissingKeys_loop order target = dom source ∖ dom target
  /\ findMissingKeys source target = dom source ∖ dom target
  /\ size (findMissingKeys source target) <= size source.
Proof.
  intros Horder.
  assert (Heq : findMissingKeys source target = dom source ∖ dom target).
  { apply leibniz_equiv. intros k.
    rewrite elem_of_findMissingKeys, elem_of_difference, !elem_of_dom.
    rewrite eq_None_not_Some. reflexivity. }
  split; [by rewrite (findMissingKeys_order _ _ _ Horder)|].
  split; [exact Heq|].
  rewrite Heq, <- size_dom. apply subseteq_size.
  intros k Hk. by apply elem_of_difference in Hk as [Hk _].
Qed.

(** What a state that comes from the start by steps on the keys of the
    source holds. *)
Lemma final_keys_from_start K source target h s k :
  (forall k', k' ∈ K -> is_Some (LocaleItemsMap source !! k')) ->
  extends K (start source target h) s ->
  (k ∈ dom (items s)
   <-> k ∈ dom (LocaleItemsMap source) ∪ dom (LocaleItemsMap target))
  /\ (LocaleItemsMap source !! k = None ->
      items s !! k = LocaleItemsMap target !! k
      /\ (k ∉ keys_called (events s))).
Proof.
  intros HK He.
  assert (Hout : LocaleItemsMap source !! k = None ->
                 items s !! k = LocaleItemsMap target !! k
                 /\ (k ∉ keys_called (events s))).
  { intros Hk.
    assert (HkK : k ∉ K).
    { intros Hin. apply HK in Hin as [v Hv]. congruence. }
    destruct (extends_frame _ _ _ k He HkK) as [Hi Hc]. split.
    - rewrite Hi, start_items, Hk. by destruct (LocaleItemsMap target !! k).
    - apply Hc. rewrite start_keys_called. apply not_elem_of_nil. }
  split; [|exact Hout].
  rewrite elem_of_union, !elem_of_dom. split.
  - intros Hs. destruct (LocaleItemsMap source !! k) as [v|] eqn:Hv; [left; eauto|].
    right. destruct (Hout eq_refl) as [<- _]. exact Hs.
  - intros [Hs|Ht].
    + eapply extends_covers; [exact He|apply start_covers|exact Hs].
    + destruct He as (_ & Hb & _). apply Hb.
      rewrite start_items. destruct Ht as [t ->]. eauto.
Qed.

(** X6. The keys of the target after a call are the keys it had and the
    keys of the source: no entry is lost, no key of the source is left
    without an entry, and nothing else is added.  An entry whose key the
    source does not have is left as it was, and the client is never called
    for such a key.  This holds for both functions, in any mode, with or
    without an override document. *)
Theorem keys_after_a_call order source target indep mode batchSize h :
  length_preserving (Lang target) BatchTranslate ->
  ranges_over (LocaleItemsMap source) order ->
  (exists out,
     single_process order source target indep mode h = Some out
     /\ dom (items (final out))
        = dom (LocaleItemsMap source) ∪ dom (LocaleItemsMap target)
     /\ (forall k, LocaleItemsMap source !! k = None ->
           items (final out) !! k = LocaleItemsMap target !! k
           /\ (k ∉ keys_called (events (final out)))))
  /\ (exists out,
        batch_process order source target indep batchSize mode h = Some out
        /\ dom (items (final out))
           = dom (LocaleItemsMap source) ∪ dom (LocaleItemsMap target)
        /\ (forall k, LocaleItemsMap source !! k = None ->
              items (final out) !! k = LocaleItemsMap target !! k
              /\ (k ∉ keys_called (events (final out))))).
Proof.
  intros Hlen Horder.
  assert (HK : forall k v, (k, v) ∈ order -> v ≠ "" -> k ∈ order.*1).
  { intros k v Hin _. apply list_elem_of_fmap. by exists (k, v). }
  assert (Hsrc : forall k, k ∈ order.*1 -> is_Some (LocaleItemsMap source !! k)).
  { intros k Hin. apply list_elem_of_fmap in Hin as ([k' v] & -> & Hin).
    simpl. rewrite (ranges_over_lookup _ _ _ _ Horder Hin). eauto. }
  split.
  - destruct (single_process_spec (order.*1) order source target indep mode h HK)
      as (out & Hout & He).
    exists out. split; [exact Hout|]. split.
    + apply leibniz_equiv. intros k.
      apply (final_keys_from_start _ _ _ _ _ k Hsrc He).
    + intros k. apply (final_keys_from_start _ _ _ _ _ k Hsrc He).
  - destruct (batch_process_spec target Hlen (order.*1) order source indep
                batchSize mode h HK) as (out & Hout & He).
    exists out. split; [exact Hout|]. split.
    + apply leibniz_equiv. intros k.
      apply (final_keys_from_start _ _ _ _ _ k Hsrc He).
    + intros k. apply (final_keys_from_start _ _ _ _ _ k Hsrc He).
Qed.


(** *** Keys the decision rejects *)

(** A key that has the entry [t], and that the decision of the single-item
    strategy rejects whenever it has that entry, keeps the entry through the
    key loop and is never sent. *)
Lemma single_process_keeps order source target mode h k t :
  items (start source target h) !! k = Some t ->
  (forall m,
     m !! k = Some t ->
     needToTranslate_single None mode
       (findMissingKeys (LocaleItemsMap source) (LocaleItemsMap target)) m k
     = Some (false, m)) ->
  exists out,
    single_process order source target None mode h = Some out
    /\ items (final out) !! k = Some t
    /\ (k ∉ keys_called (events (final out))).
Proof.
  intros Hstart Hrej. unfold cmd.single_process.
  match goal with
  | |- context [loop ?body ?s0 ?l] =>
      destruct (loop_invariant
                  (fun s => items s !! k = Some t
                            /\ (k ∉ keys_called (events s))) body l s0)
        as (s' & -> & Hi & Hc)
  end.
  - split; [exact Hstart|]. rewrite start_keys_called. apply not_elem_of_nil.
  - intros s [k' v'] _ [Hi Hc].
    destruct (decide (k' = k)) as [->|Hne].
    + unfold cmd.single_visit.
      destruct (negb (len v' =? 0)%Z); [|eauto].
      rewrite (Hrej _ Hi). eexists; split; [reflexivity|].
      unfold_state. split; [exact Hi|].
      by rewrite keys_called_app, app_nil_r.
    + match goal with
      | |- context [cmd.single_visit _ _ _ ?tg ?i ?md ?mk ?tk s (k', v')] =>
          destruct (single_visit_spec tg i md mk tk s k' v')
            as (s1 & -> & He & _)
      end.
      exists s1. split; [reflexivity|].
      assert (Hk : k ∉ [k']).
      { intros Hin. apply list_elem_of_singleton in Hin. congruence. }
      destruct (extends_frame _ _ _ k He Hk) as [Hi1 Hc1].
      split; [by rewrite Hi1|by apply Hc1].
  - eexists; split; [reflexivity|].
    match goal with
    | |- context [cmd.persist _ _ _ ?a ?b ?c] =>
        destruct (extends_frame _ _ _ k (proj1 (persist_spec target a b c))
                    (not_elem_of_nil k)) as [-> Hc2]
    end.
    destruct (extends_frame _ _ _ k (proj1 (report_failed_spec target s'))
                (not_elem_of_nil k)) as [-> Hc1].
    split; [exact Hi|]. by apply Hc2, Hc1.
Qed.

(** The same for the batch strategy, whose decision also reads the source
    value. *)
Lemma batch_process_keeps order source target batchSize mode h k t :
  length_preserving (Lang target) BatchTranslate ->
  items (start source target h) !! k = Some t ->
  (forall m v,
     m !! k = Some t -> (k, v) ∈ order ->
     needToTranslate_batch None mode
       (findMissingKeys (LocaleItemsMap source) (LocaleItemsMap target)) m k v
     = Some (false, m)) ->
  exists out,
    batch_process order source target None batchSize mode h = Some out
    /\ items (final out) !! k = Some t
    /\ (k ∉ keys_called (events (final out))).
Proof.
  intros Hlen Hstart Hrej. unfold cmd.batch_process.
  match goal with
  | |- context [loop ?body ?s0 ?l] =>
      destruct (loop_invariant
                  (fun s => items s !! k = Some t
                            /\ (k ∉ keys_called (events s))
                            /\ (k ∉ keys s)
                            /\ length (keys s) = length (batch s)) body l s0)
        as (s' & -> & Hi & Hc & Hp & Hl)
  end.
  - split; [exact Hstart|]. rewrite start_keys_called.
    split; [apply not_elem_of_nil|]. split; [apply not_elem_of_nil|reflexivity].
  - intros s [k' v'] Hin (Hi & Hc & Hp & Hl).
    destruct (decide (k' = k)) as [->|Hne].
    + unfold cmd.batch_visit.
      destruct (negb (len v' =? 0)%Z); [|eauto 10].
      rewrite (Hrej _ _ Hi Hin). eexists; split; [reflexivity|].
      unfold_state. split; [exact Hi|].
      rewrite keys_called_app, app_nil_r. auto.
    + match goal with
      | |- context [cmd.batch_visit _ _ ?tg ?i ?bs ?md ?mk ?tk s (k', v')] =>
          destruct (batch_visit_spec tg Hlen i bs md mk tk s k' v' Hl)
            as (s1 & -> & He & Hl1 & Hk1)
      end.
      exists s1. split; [reflexivity|].
      assert (Hk : k ∉ keys s ++ [k']).
      { intros Hin'. apply elem_of_app in Hin' as [?|Hin']; [done|].
        apply list_elem_of_singleton in Hin'. congruence. }
      destruct (extends_frame _ _ _ k He Hk) as [Hi1 Hc1].
      split; [by rewrite Hi1|]. split; [by apply Hc1|].
      split; [|exact Hl1]. intros Hin'. by apply Hk, Hk1.
  - assert (exists s1,
              (if (0 <? Z.of_nat (length (batch s')))%Z
               then fst <$> sendBatch target s' else Some s') = Some s1
              /\ items s1 !! k = Some t
              /\ (k ∉ keys_called (events s1))) as (s1 & -> & Hi1 & Hc1).
    { destruct (0 <? _)%Z; [|eauto].
      destruct (sendBatch_spec target Hlen s' Hl) as (s1 & err & -> & He & _).
      simpl. eexists; split; [reflexivity|].
      destruct (extends_frame _ _ _ k He Hp) as [Hi1 Hc1].
      split; [by rewrite Hi1|by apply Hc1]. }
    eexists; split; [reflexivity|].
    match goal with
    | |- context [cmd.persist _ _ _ ?a ?b ?c] =>
        destruct (extends_frame _ _ _ k (proj1 (persist_spec target a b c))
                    (not_elem_of_nil k)) as [-> Hc3]
    end.
    destruct (extends_frame _ _ _ k (proj1 (report_failed_spec target s1))
                (not_elem_of_nil k)) as [-> Hc2].
    split; [exact Hi1|]. by apply Hc3, Hc2.
Qed.

Lemma start_items_target {H} source target (h : H) k t :
  LocaleItemsMap target !! k = Some t ->
  items (start source target h) !! k = Some t.
Proof. intros Ht. by rewrite start_items, Ht. Qed.

(** X7. Missing mode without an override document leaves what is there: an
    entry the target has when the call starts is unchanged when it ends,
    whatever its value (the empty string and a value that starts with an
    exclamation mark included), and the client is not called for its key.
    This holds for both functions. *)
Theorem missing_mode_keeps_entries order source target batchSize h k t :
  length_preserving (Lang target) BatchTranslate ->
  LocaleItemsMap target !! k = Some t ->
  (exists out,
     single_process order source target None "missing" h = Some out
     /\ items (final out) !! k = Some t
     /\ (k ∉ keys_called (events (final out))))
  /\ (exists out,
        batch_process order source target None batchSize "missing" h = Some out
        /\ items (final out) !! k = Some t
        /\ (k ∉ keys_called (events (final out)))).
Proof.
  intros Hlen Ht.
  assert (Hk : k ∉ findMissingKeys (LocaleItemsMap source) (LocaleItemsMap target)).
  { intros Hin. apply elem_of_findMissingKeys in Hin as [_ Hn]. congruence. }
  split.
  - apply single_process_keeps with (t := t); [by apply start_items_target|].
    intros m Hm. unfold needToTranslate_single. rewrite Hm. simpl.
    by rewrite bool_decide_eq_false_2.
  - apply batch_process_keeps with (t := t);
      [exact Hlen|by apply start_items_target|].
    intros m v Hm _. unfold cmd.needToTranslate_batch. rewrite Hm. simpl.
    by rewrite bool_decide_eq_false_2.
Qed.

(** X8. Full mode without an override document does not translate again
    what is translated: an entry of the target that is not empty and does
    not start with an exclamation mark is unchanged when the call of
    [single_process] ends, and the client is not called for its key.  For
    [batch_process] the same holds when, in addition, the entry is not the
    source value up to the case of the letters ([strings.EqualFold]). *)
Theorem full_mode_keeps_translated order source target batchSize h k c rest :
  length_preserving (Lang target) BatchTranslate ->
  ranges_over (LocaleItemsMap source) order ->
  LocaleItemsMap target !! k = Some (String c rest) ->
  c ≠ "!"%char ->
  (exists out,
     single_process order source target None "full" h = Some out
     /\ items (final out) !! k = Some (String c rest)
     /\ (k ∉ keys_called (events (final out))))
  /\ ((forall v, LocaleItemsMap source !! k = Some v ->
                 EqualFold (String c rest) v = false) ->
      exists out,
        batch_process order source target None batchSize "full" h = Some out
        /\ items (final out) !! k = Some (String c rest)
        /\ (k ∉ keys_called (events (final out)))).
Proof.
  intros Hlen Horder Ht Hc.
  apply Ascii.eqb_neq in Hc.
  split.
  - apply single_process_keeps with (t := String c rest);
      [by apply start_items_target|].
    intros m Hm. unfold needToTranslate_single. rewrite Hm. simpl.
    by rewrite Hc.
  - intros Hfold.
    apply batch_process_keeps with (t := String c rest);
      [exact Hlen|by apply start_items_target|].
    intros m v Hm Hin. unfold cmd.needToTranslate_batch. rewrite Hm. simpl.
    rewrite (Hfold v (ranges_over_lookup _ _ _ _ Horder Hin)). simpl.
    by rewrite Hc.
Qed.

Lemma all_entries_kept K source target h (s : state Handler) :
  (forall k', k' ∈ K -> is_Some (LocaleItemsMap source !! k')) ->
  extends K (start source target h) s ->
  (forall k t, items (start source target h) !! k = Some t ->
               items s !! k = Some t /\ (k ∉ keys_called (events s))) ->
  keys_called (events s) = [] /\ items s = items (start source target h).
Proof.
  intros HK He Hkept.
  assert (Hk : forall k,
             items s !! k = items (start source target h) !! k
             /\ (k ∉ keys_called (events s))).
  { intros k.
    destruct (items (start source target h) !! k) as [t|] eqn:Hs;
      [by apply Hkept|].
    assert (Hsrc : LocaleItemsMap source !! k = None).
    { apply eq_None_not_Some. intros Hsome.
      apply (start_covers source target h) in Hsome as [t Hsome]. congruence. }
    destruct (final_keys_from_start K source target h s k HK He) as [_ Hout].
    destruct (Hout Hsrc) as [Hi Hc]. split; [|exact Hc].
    rewrite Hi. rewrite start_items, Hsrc in Hs.
    by destruct (LocaleItemsMap target !! k). }
  split.
  - apply elem_of_nil_inv. intros k. apply Hk.
  - apply map_eq. intros k. apply Hk.
Qed.

(** X9. A mode that is neither "full" nor "missing" translates nothing.
    Without an override document, under both functions, the client is
    called for no key, every entry of the target is unchanged, and every
    key of the source that the target did not have is given the empty
    string as its entry. *)
Theorem unknown_mode_translates_nothing order source target batchSize mode h :
  length_preserving (Lang target) BatchTranslate ->
  ranges_over (LocaleItemsMap source) order ->
  mode ≠ "full" -> mode ≠ "missing" ->
  (exists out,
     single_process order source target None mode h = Some out
     /\ keys_called (events (final out)) = []
     /\ (forall k,
           items (final out) !! k
           = match LocaleItemsMap target !! k with
             | Some t => Some t
             | None =>
                 match LocaleItemsMap source !! k with
                 | Some _ => Some ""
                 | None => None
                 end
             end))
  /\ (exists out,
        batch_process order source target None batchSize mode h = Some out
        /\ keys_called (events (final out)) = []
        /\ (forall k,
              items (final out) !! k
              = match LocaleItemsMap target !! k with
                | Some t => Some t
                | None =>
                    match LocaleItemsMap source !! k with
                    | Some _ => Some ""
                    | None => None
                    end
                end)).
Proof.
  intros Hlen Horder Hfull Hmissing.
  apply String.eqb_neq in Hfull, Hmissing.
  assert (HK : forall k v, (k, v) ∈ order -> v ≠ "" -> k ∈ order.*1).
  { intros k v Hin _. apply list_elem_of_fmap. by exists (k, v). }
  assert (Hsrc : forall k, k ∈ order.*1 -> is_Some (LocaleItemsMap source !! k)).
  { intros k Hin. apply list_elem_of_fmap in Hin as ([k' v] & -> & Hin).
    simpl. rewrite (ranges_over_lookup _ _ _ _ Horder Hin). eauto. }
  assert (Hstart : forall (s : state Handler) k,
             items s = items (start source target h) ->
             items s !! k
             = match LocaleItemsMap target !! k with
               | Some t => Some t
               | None =>
                   match LocaleItemsMap source !! k with
                   | Some _ => Some ""
                   | None => None
                   end
               end).
  { intros s k ->. rewrite start_items.
    destruct (LocaleItemsMap target !! k); [reflexivity|].
    by destruct (LocaleItemsMap source !! k). }
  split.
  - destruct (single_process_spec (order.*1) order source target None mode h HK)
      as (out & Hout & He).
    exists out. split; [exact Hout|].
    destruct (all_entries_kept _ _ _ _ _ Hsrc He) as [Hc Hi];
      [|split; [exact Hc|intros k; by apply Hstart]].
    intros k t Hs.
    destruct (single_process_keeps order source target mode h k t Hs)
      as (out2 & Hout2 & Hkept).
    + intros m Hm. unfold needToTranslate_single.
      by rewrite Hm, Hfull, Hmissing.
    + rewrite Hout in Hout2. injection Hout2 as <-. exact Hkept.
  - destruct (batch_process_spec target Hlen (order.*1) order source None
                batchSize mode h HK) as (out & Hout & He).
    exists out. split; [exact Hout|].
    destruct (all_entries_kept _ _ _ _ _ Hsrc He) as [Hc Hi];
      [|split; [exact Hc|intros k; by apply Hstart]].
    intros k t Hs.
    destruct (batch_process_keeps order source target batchSize mode h k t
                Hlen Hs) as (out2 & Hout2 & Hkept).
    + intros m v Hm _. unfold cmd.needToTranslate_batch.
      by rewrite Hm, Hfull, Hmissing.
    + rewrite Hout in Hout2. injection Hout2 as <-. exact Hkept.
Qed.


(** *** Keys the client is called for *)

Lemma extends_events K s s' e :
  extends K s s' -> e ∈ events s -> e ∈ events s'.
Proof.
  intros (_ & _ & (new & -> & _) & _) H. apply elem_of_app. by left.
Qed.

Lemma extends_called K s s' k :
  extends K s s' ->
  k ∈ keys_called (events s) -> k ∈ keys_called (events s').
Proof.
  intros (_ & _ & (new & -> & _) & _) H.
  rewrite keys_called_app. apply elem_of_app. by left.
Qed.

Lemma translate_array_called k lang str rest s :
  k ∈ keys_called (events (translate_array k lang (str :: rest) s).2).
Proof.
  cbn [cmd.translate_array].
  destruct (Translate str lang (handler s)) as [[translated err] h1].
  set (s1 := emit [CallTranslate k str lang] (set_handler h1 s)).
  assert (H1 : k ∈ keys_called (events s1)).
  { subst s1. unfold emit; simpl. rewrite keys_called_app.
    apply elem_of_app. right. by left. }
  destruct err as [e|]; cbn [snd].
  { apply (extends_called [k] s1); [ext|exact H1]. }
  destruct (is_blank translated); cbn [snd].
  { apply (extends_called [k] s1); [ext|exact H1]. }
  pose proof (translate_array_spec k lang rest s1) as (He & _).
  destruct (cmd.translate_array _ _ _ rest s1) as [r s2]; cbn [snd] in *.
  eapply extends_called; eauto.
Qed.

Lemma translate_as_string_called k v lang s :
  CallTranslate k v lang ∈ events (translate_as_string k v lang s).2
  /\ k ∈ keys_called (events (translate_as_string k v lang s).2).
Proof.
  unfold cmd.translate_as_string.
  destruct (Translate v lang (handler s)) as [[result err] h1].
  set (s1 := emit [CallTranslate k v lang] (set_handler h1 s)).
  assert (H1 : CallTranslate k v lang ∈ events s1
               /\ k ∈ keys_called (events s1)).
  { subst s1. unfold emit; simpl. rewrite keys_called_app, !elem_of_app.
    split; right; by left. }
  destruct H1 as [H1 H2].
  destruct err as [e|]; cbn [snd].
  { split; [apply (extends_events [k] s1)|apply (extends_called [k] s1)];
      first [ext|assumption]. }
  destruct (is_blank result); cbn [snd];
    (split; [apply (extends_events [k] s1)|apply (extends_called [k] s1)]);
    first [ext|assumption].
Qed.

(** The translation of a key calls the client for it, with the source value
    when it is not an array; an array without elements is the one value for
    which there is nothing to send. *)
Lemma translate_key_calls k v lang s :
  (array_value json_Unmarshal v = false ->
   CallTranslate k v lang ∈ events (translate_key k v lang s))
  /\ ((array_value json_Unmarshal v = true /\ (json_Unmarshal v).1 = [])
      \/ k ∈ keys_called (events (translate_key k v lang s))).
Proof.
  assert (Hfin : forall (b : bool) (s2 : state Handler),
             events (if b then incr_translated s2 else fail_key k s2)
             = events s2) by (by intros []).
  assert (Hstr : translate_as_array k v lang s = (false, true, s) ->
                 CallTranslate k v lang ∈ events (translate_key k v lang s)
                 /\ k ∈ keys_called (events (translate_key k v lang s))).
  { intros Ha. unfold cmd.translate_key. rewrite Ha. simpl.
    pose proof (translate_as_string_called k v lang s) as H.
    destruct (cmd.translate_as_string _ k v lang s) as [ok s2].
    by rewrite Hfin. }
  unfold array_value.
  destruct (strings.HasPrefix v "[" && strings.HasSuffix v "]") eqn:Hps;
    [|destruct Hstr as [H1 H2];
      [unfold cmd.translate_as_array; by rewrite Hps|auto]].
  destruct (json_Unmarshal v) as [stringArray [err|]] eqn:Hu.
  { destruct Hstr as [H1 H2];
      [unfold cmd.translate_as_array; by rewrite Hps, Hu|auto]. }
  simpl. split; [discriminate|].
  destruct stringArray as [|str rest]; [left; split; reflexivity|].
  right. unfold cmd.translate_key, cmd.translate_as_array. rewrite Hps, Hu.
  pose proof (translate_array_called k lang str rest s) as Hc.
  destruct (cmd.translate_array _ k lang (str :: rest) s) as [r s1].
  simpl in Hc.
  destruct r as [translatedArray|]; [|simpl; exact Hc].
  destruct (json_Marshal translatedArray) as [resultBytes [e|]]; simpl.
  - rewrite keys_called_app. apply elem_of_app. by left.
  - exact Hc.
Qed.

(** A flush sends every pending key. *)
Lemma sendBatch_sends target s s' err k :
  length (keys s) = length (batch s) ->
  sendBatch target s = Some (s', err) ->
  k ∈ keys s ->
  k ∈ keys_called (events s').
Proof.
  intros Hlen Hsend Hk. unfold cmd.sendBatch in Hsend.
  destruct (Z.of_nat (length (batch s)) =? 0)%Z eqn:Hz.
  { apply Z.eqb_eq in Hz. destruct (keys s); [by apply elem_of_nil in Hk|].
    simpl in Hlen. lia. }
  destruct (BatchTranslate (batch s) (Lang target) (handler s))
    as [[results e] h1].
  set (s1 := emit [CallBatchTranslate (keys s) (batch s) (Lang target)]
               (set_handler h1 s)) in Hsend.
  assert (H1 : k ∈ keys_called (events s1)).
  { subst s1. unfold emit; simpl. rewrite keys_called_app.
    apply elem_of_app. right. simpl. by rewrite app_nil_r. }
  destruct e as [e|].
  - match type of Hsend with
    | context [loop ?body ?s0 ?l] =>
        destruct (loop body s0 l) as [s2|] eqn:Hloop; [|discriminate];
        apply (loop_partial (fun s => k ∈ keys_called (events s)) body l)
          in Hloop
    end.
    + by injection Hsend as <- _.
    + intros s0 [i text] s2' H0. simpl.
      destruct (keys s0 !! i); [|discriminate]. intros [= <-].
      apply (extends_called [] s0); [ext|exact H0].
    + apply (extends_called [] s1); [ext|exact H1].
  - match type of Hsend with
    | context [loop ?body ?s0 ?l] =>
        destruct (loop body s0 l) as [s2|] eqn:Hloop; [|discriminate];
        apply (loop_partial (fun s => k ∈ keys_called (events s)) body l)
          in Hloop
    end.
    + by injection Hsend as <- _.
    + intros s0 [i result] s2' H0. simpl.
      destruct (keys s0 !! i) as [key|]; [|discriminate].
      destruct (is_blank result).
      * destruct (batch s0 !! i); [|discriminate]. intros [= <-].
        apply (extends_called [] s0); [ext|exact H0].
      * intros [= <-]. exact H0.
    + exact H1.
Qed.


(** A key that is pending, or that the visit selects, is pending or sent
    after the visit. *)
Lemma batch_visit_pending target indep batchSize mode missingKeys totalKeys
    s s' k k' v' :
  length (keys s) = length (batch s) ->
  batch_visit target indep batchSize mode missingKeys totalKeys s (k', v')
  = Some s' ->
  k ∈ keys s
  \/ (k' = k /\ v' ≠ ""
      /\ exists m', needToTranslate_batch indep mode missingKeys (items s) k v'
                    = Some (true, m')) ->
  k ∈ keys s' \/ k ∈ keys_called (events s').
Proof.
  intros Hlen Hvisit Hk. unfold cmd.batch_visit in Hvisit.
  destruct (negb (len v' =? 0)%Z) eqn:Hv.
  2:{ injection Hvisit as <-. destruct Hk as [?|(_ & Hne & _)]; [by left|].
      apply negb_false_iff, len_zero in Hv. contradiction. }
  destruct (needToTranslate_batch indep mode missingKeys (items s) k' v')
    as [[b m']|] eqn:Hdec; [|discriminate].
  assert (Hb : k ∈ keys s \/ (k' = k /\ b = true)).
  { destruct Hk as [?|(-> & _ & m'' & Hd)]; [by left|right].
    split; [reflexivity|congruence]. }
  destruct b.
  - match type of Hvisit with
    | context [(Z.of_nat (length (batch ?x)) >=? batchSize)%Z] =>
        set (s2 := x) in Hvisit
    end.
    assert (Hl2 : length (keys s2) = length (batch s2)).
    { subst s2. unfold_state. rewrite !length_app. simpl. lia. }
    assert (Hk2 : k ∈ keys s2).
    { subst s2. unfold_state. apply elem_of_app.
      destruct Hb as [?|[-> _]]; [by left|right; by left]. }
    destruct (Z.of_nat (length (batch s2)) >=? batchSize)%Z.
    + destruct (sendBatch target s2) as [[s3 err]|] eqn:Hsend; [|discriminate].
      injection Hvisit as <-. right.
      apply (extends_called [] s3); [ext|].
      eapply sendBatch_sends; eauto.
    + injection Hvisit as <-. left. exact Hk2.
  - injection Hvisit as <-. left.
    destruct Hb as [?|[_ ?]]; [assumption|discriminate].
Qed.

(** X10. Without an override document, in mode "full" and in mode
    "missing", a key of the source that the target does not have and whose
    source value is not empty is sent to the client.  [single_process] calls
    [Translate] with the source value, unless the value is a JSON array of
    strings: then it is called for the key with the elements, and only an
    array without elements leaves nothing to send.  [batch_process] puts the
    key in a batch that it sends. *)
Theorem missing_key_is_sent order source target batchSize mode h k v :
  length_preserving (Lang target) BatchTranslate ->
  ranges_over (LocaleItemsMap source) order ->
  mode = "full" \/ mode = "missing" ->
  LocaleItemsMap source !! k = Some v ->
  v ≠ "" ->
  LocaleItemsMap target !! k = None ->
  (exists out,
     single_process order source target None mode h = Some out
     /\ (array_value json_Unmarshal v = false ->
         CallTranslate k v (Lang target) ∈ events (final out))
     /\ ((array_value json_Unmarshal v = true /\ (json_Unmarshal v).1 = [])
         \/ k ∈ keys_called (events (final out))))
  /\ (exists out,
        batch_process order source target None batchSize mode h = Some out
        /\ k ∈ keys_called (events (final out))).
Proof.
  intros Hlen Horder Hmode Hk Hv Ht.
  set (missingKeys := findMissingKeys (LocaleItemsMap source) (LocaleItemsMap target)).
  assert (Hmiss : k ∈ missingKeys).
  { apply elem_of_findMissingKeys. eauto. }
  assert (HK : forall k v, (k, v) ∈ order -> v ≠ "" -> k ∈ order.*1).
  { intros k0 v0 Hin _. apply list_elem_of_fmap. by exists (k0, v0). }
  assert (Hin : (k, v) ∈ order) by (by apply (ranges_over_elem _ _ _ _ Horder)).
  assert (Hstart : items (start source target h) !! k = Some "").
  { by rewrite start_items, Ht, Hk. }
  assert (Hlenv : negb (len v =? 0)%Z = true).
  { apply negb_true_iff. destruct (len v =? 0)%Z eqn:Hz; [|reflexivity].
    by apply len_zero in Hz. }
  split.
  - destruct (single_process_spec (order.*1) order source target None mode h HK)
      as (out & Hout & _).
    exists out. split; [exact Hout|].
    set (Q := fun s : state Handler =>
                (array_value json_Unmarshal v = false ->
                 CallTranslate k v (Lang target) ∈ events s)
                /\ ((array_value json_Unmarshal v = true
                     /\ (json_Unmarshal v).1 = [])
                    \/ k ∈ keys_called (events s))).
    assert (Hmono : forall K s s', extends K s s' -> Q s -> Q s').
    { intros K s s' He [H1 H2]. split.
      - intros Ha. eapply extends_events; eauto.
      - destruct H2 as [?|H2]; [by left|right]. eapply extends_called; eauto. }
    assert (Hdec : forall m, m !! k = Some "" ->
                     needToTranslate_single None mode missingKeys m k
                     = Some (true, m)).
    { intros m Hm. unfold needToTranslate_single. rewrite Hm.
      destruct Hmode as [->| ->]; simpl; [reflexivity|].
      by rewrite bool_decide_eq_true_2. }
    assert (Hest : forall s s',
               items s !! k = Some "" \/ Q s ->
               single_visit target None mode missingKeys
                 (Z.of_nat (size (LocaleItemsMap source))) s (k, v) = Some s' ->
               Q s').
    { intros s s' [Hi|HQ] Hvisit.
      - unfold cmd.single_visit in Hvisit.
        rewrite Hlenv, (Hdec _ Hi) in Hvisit. injection Hvisit as <-.
        match goal with
        | |- Q (incr_count (emit _ ?s2)) =>
            apply (Hmono [] s2); [ext|]
        end.
        apply translate_key_calls.
      - destruct (single_visit_spec target None mode missingKeys
                    (Z.of_nat (size (LocaleItemsMap source))) s k v)
          as (s1 & Heq & He & _).
        rewrite Heq in Hvisit. injection Hvisit as <-.
        eapply Hmono; eauto. }
    unfold cmd.single_process in Hout. fold missingKeys in Hout.
    destruct (loop _ _ order) as [s'|] eqn:Hloop; [|discriminate].
    injection Hout as <-.
    apply (Hmono [] (report_failed target s')); [apply persist_spec|].
    apply (Hmono [] s'); [apply report_failed_spec|].
    revert Hloop.
    apply (loop_establish (fun s => items s !! k = Some "" \/ Q s) Q _ order (k, v)).
    + exact Hin.
    + intros s [k' v'] s1 Hin' HI Hvisit.
      destruct (decide (k' = k)) as [->|Hne].
      * rewrite (ranges_over_lookup _ _ _ _ Horder Hin') in Hk.
        injection Hk as ->. right. eapply Hest; eauto.
      * destruct (single_visit_spec target None mode missingKeys
                    (Z.of_nat (size (LocaleItemsMap source))) s k' v')
          as (s2 & Heq & He & _).
        rewrite Heq in Hvisit. injection Hvisit as <-.
        destruct HI as [Hi|HQ]; [left|right; eapply Hmono; eauto].
        assert (Hnk : k ∉ [k']).
        { intros Hin''. apply list_elem_of_singleton in Hin''. congruence. }
        destruct (extends_frame _ _ _ k He Hnk) as [-> _]. exact Hi.
    + exact Hest.
    + intros s [k' v'] s1 _ _ HQ Hvisit.
      destruct (single_visit_spec target None mode missingKeys
                  (Z.of_nat (size (LocaleItemsMap source))) s k' v')
        as (s2 & Heq & He & _).
      rewrite Heq in Hvisit. injection Hvisit as <-. eapply Hmono; eauto.
    + by left.
  - destruct (batch_process_spec target Hlen (order.*1) order source None
                batchSize mode h HK) as (out & Hout & _).
    exists out. split; [exact Hout|].
    set (J := fun s : state Handler =>
                length (keys s) = length (batch s)
                /\ (k ∈ keys s \/ k ∈ keys_called (events s))).
    assert (Hdec : forall m, m !! k = Some "" ->
                     needToTranslate_batch None mode missingKeys m k v
                     = Some (true, m)).
    { intros m Hm. unfold cmd.needToTranslate_batch. rewrite Hm.
      destruct Hmode as [->| ->]; simpl.
      - by rewrite orb_true_r.
      - by rewrite bool_decide_eq_true_2. }
    assert (Hstep : forall s s' k' v',
               length (keys s) = length (batch s) ->
               batch_visit target None batchSize mode missingKeys
                 (Z.of_nat (size (LocaleItemsMap source))) s (k', v') = Some s' ->
               length (keys s') = length (batch s')
               /\ extends (keys s ++ [k']) s s'
               /\ (forall k0, k0 ∈ keys s' -> k0 ∈ keys s ++ [k'])).
    { intros s s' k' v' Hl Hvisit.
      destruct (batch_visit_spec target Hlen None batchSize mode missingKeys
                  (Z.of_nat (size (LocaleItemsMap source))) s k' v' Hl)
        as (s2 & Heq & He & Hl2 & Hk2).
      rewrite Heq in Hvisit. injection Hvisit as <-. auto. }
    assert (Hkeep : forall s s' k' v',
               J s ->
               batch_visit target None batchSize mode missingKeys
                 (Z.of_nat (size (LocaleItemsMap source))) s (k', v') = Some s' ->
               J s').
    { intros s s' k' v' [Hl HJ] Hvisit.
      destruct (Hstep _ _ _ _ Hl Hvisit) as (Hl' & He & _).
      split; [exact Hl'|].
      destruct HJ as [Hp|Hc]; [|right; eapply extends_called; eauto].
      eapply batch_visit_pending; [exact Hl|exact Hvisit|by left]. }
    assert (Hest : forall s s',
               length (keys s) = length (batch s)
               /\ ((items s !! k = Some "" /\ (k ∉ keys s)) \/ J s) ->
               batch_visit target None batchSize mode missingKeys
                 (Z.of_nat (size (LocaleItemsMap source))) s (k, v) = Some s' ->
               J s').
    { intros s s' [Hl [[Hi _]|HJ]] Hvisit; [|eapply Hkeep; eauto].
      destruct (Hstep _ _ _ _ Hl Hvisit) as (Hl' & _).
      split; [exact Hl'|].
      eapply batch_visit_pending; [exact Hl|exact Hvisit|].
      right. split; [reflexivity|]. split; [exact Hv|]. eauto. }
    unfold cmd.batch_process in Hout. fold missingKeys in Hout.
    destruct (loop _ _ order) as [s'|] eqn:Hloop; [|discriminate].
    assert (HJ : J s').
    { revert Hloop.
      apply (loop_establish
               (fun s => length (keys s) = length (batch s)
                         /\ ((items s !! k = Some "" /\ (k ∉ keys s)) \/ J s))
               J _ order (k, v)).
      - exact Hin.
      - intros s [k' v'] s1 Hin' [Hl HI] Hvisit.
        destruct (Hstep _ _ _ _ Hl Hvisit) as (Hl' & He & Hsub).
        split; [exact Hl'|].
        destruct (decide (k' = k)) as [->|Hne].
        + rewrite (ranges_over_lookup _ _ _ _ Horder Hin') in Hk.
          injection Hk as ->. right.
          apply (Hest s s1); [split; [exact Hl|exact HI]|exact Hvisit].
        + destruct HI as [[Hi Hp]|HJ]; [left|right; eapply Hkeep; eauto].
          assert (Hnk : k ∉ keys s ++ [k']).
          { intros Hin''. apply elem_of_app in Hin'' as [?|Hin'']; [done|].
            apply list_elem_of_singleton in Hin''. congruence. }
          destruct (extends_frame _ _ _ k He Hnk) as [-> _].
          split; [exact Hi|]. intros Hin''. by apply Hnk, Hsub.
      - exact Hest.
      - intros s [k' v'] s1 _ _ HJ Hvisit. eapply Hkeep; eauto.
      - split; [reflexivity|]. left. split; [exact Hstart|apply not_elem_of_nil]. }
    destruct HJ as [Hl HJ].
    assert (exists s1,
              (if (0 <? Z.of_nat (length (batch s')))%Z
               then fst <$> sendBatch target s' else Some s') = Some s1
              /\ k ∈ keys_called (events s1)) as (s1 & Heq & Hc).
    { destruct (0 <? Z.of_nat (length (batch s')))%Z eqn:Hz.
      - destruct (sendBatch_spec target Hlen s' Hl) as (s1 & err & Hs & He & _).
        rewrite Hs. simpl. eexists; split; [reflexivity|].
        destruct HJ as [Hp|Hc]; [|eapply extends_called; eauto].
        eapply sendBatch_sends; eauto.
      - eexists; split; [reflexivity|].
        destruct HJ as [Hp|Hc]; [|exact Hc].
        apply Z.ltb_ge in Hz. destruct (keys s'); [by apply elem_of_nil in Hp|].
        simpl in Hl. lia. }
    rewrite Heq in Hout. injection Hout as <-.
    apply (extends_called [] (report_failed target s1)); [apply persist_spec|].
    apply (extends_called [] s1); [apply report_failed_spec|exact Hc].
Qed.


(** *** Failed keys and the counters of the single-item strategy *)

Lemma translate_array_count k lang stringArray :
  forall s,
    translatedCount (translate_array k lang stringArray s).2 = translatedCount s.
Proof.
  induction stringArray as [|str rest IH]; intros s; cbn [cmd.translate_array].
  - reflexivity.
  - destruct (Translate str lang (handler s)) as [[translated err] h1].
    destruct err as [e|]; cbn [snd]; [reflexivity|].
    destruct (is_blank translated); cbn [snd]; [reflexivity|].
    specialize (IH (emit [CallTranslate k str lang] (set_handler h1 s))).
    destruct (cmd.translate_array _ _ _ rest _) as [r s2]; cbn [snd] in *.
    exact IH.
Qed.

(** The translation of a key either counts it as translated, or records it
    as failed and leaves the entries as they are. *)
Lemma translate_key_outcome k v lang s :
  (failedKeys (translate_key k v lang s) = failedKeys s
   /\ translatedCount (translate_key k v lang s) = (translatedCount s + 1)%Z)
  \/ (failedKeys (translate_key k v lang s) = failedKeys s ++ [k]
      /\ translatedCount (translate_key k v lang s) = translatedCount s
      /\ items (translate_key k v lang s) = items s).
Proof.
  assert (Hstr : forall s0,
             let r := translate_as_string k v lang s0 in
             failedKeys r.2 = failedKeys s0
             /\ translatedCount r.2 = translatedCount s0
             /\ (r.1 = false -> items r.2 = items s0)).
  { intros s0. unfold cmd.translate_as_string.
    destruct (Translate v lang (handler s0)) as [[result err] h1].
    destruct err as [e|]; cbn [fst snd]; [auto|].
    destruct (is_blank result); cbn [fst snd]; [auto|].
    repeat split. discriminate. }
  assert (Harr : failedKeys (translate_as_array k v lang s).2 = failedKeys s
                 /\ translatedCount (translate_as_array k v lang s).2
                    = translatedCount s
                 /\ ((translate_as_array k v lang s).1.2 = false ->
                     items (translate_as_array k v lang s).2 = items s)
                 /\ ((translate_as_array k v lang s).1.1 = false ->
                     (translate_as_array k v lang s).2 = s)).
  { unfold cmd.translate_as_array.
    destruct (_ && _); [|cbn [fst snd]; auto].
    destruct (json_Unmarshal v) as [stringArray [err|]]; [cbn [fst snd]; auto|].
    pose proof (translate_array_spec k lang stringArray s) as (_ & Hi & Hf & _).
    pose proof (translate_array_count k lang stringArray s) as Hc.
    destruct (cmd.translate_array _ _ _ _ _) as [r s1]; cbn [snd] in *.
    destruct r as [translatedArray|]; cbn [fst snd];
      [|repeat split; auto; discriminate].
    destruct (json_Marshal translatedArray) as [resultBytes [err|]];
      cbn [fst snd]; repeat split; auto; discriminate. }
  unfold cmd.translate_key.
  destruct (cmd.translate_as_array _ _ _ k v lang s) as [[isArr ok1] s1].
  cbn [fst snd] in Harr. destruct Harr as (Hf1 & Hc1 & Hi1 & Hs1).
  destruct isArr; cbn [negb].
  - destruct ok1; [left|right]; unfold_state.
    + split; [exact Hf1|by rewrite Hc1].
    + split; [by rewrite Hf1|]. split; [exact Hc1|by apply Hi1].
  - specialize (Hs1 eq_refl) as ->.
    specialize (Hstr s). cbn zeta in Hstr.
    destruct (cmd.translate_as_string _ k v lang s) as [ok2 s2].
    cbn [fst snd] in Hstr. destruct Hstr as (Hf2 & Hc2 & Hi2).
    destruct ok2; [left|right]; unfold_state.
    + split; [exact Hf2|by rewrite Hc2].
    + split; [by rewrite Hf2|]. split; [exact Hc2|by apply Hi2].
Qed.

(** What a visit of the single-item strategy does to the counters. *)
Lemma single_visit_outcome target indep mode missingKeys totalKeys s s' k v :
  single_visit target indep mode missingKeys totalKeys s (k, v) = Some s' ->
  (failedKeys s' = failedKeys s
   /\ (translatedCount s' = translatedCount s
       \/ translatedCount s' = (translatedCount s + 1)%Z))
  \/ (failedKeys s' = failedKeys s ++ [k]
      /\ translatedCount s' = translatedCount s
      /\ items s' = items s
      /\ v ≠ "").
Proof.
  unfold cmd.single_visit.
  destruct (negb (len v =? 0)%Z) eqn:Hv; [|intros [= <-]; auto].
  assert (v ≠ "") as Hne.
  { intros ->. discriminate. }
  destruct (needToTranslate_single_spec indep mode missingKeys (items s) k)
    as (b & m' & -> & Hm').
  intros [= <-]. destruct b.
  - assert (m' = items s) as ->.
    { destruct Hm' as [->|(ov & o & _ & _ & _ & [=] & _)]. reflexivity. }
    destruct (translate_key_outcome k v (Lang target) (set_items (items s) s))
      as [[Hf Hc]|(Hf & Hc & Hi)]; [left|right]; unfold_state; auto.
  - left. unfold_state. auto.
Qed.

(** The key loop of the single-item strategy on entries with distinct keys:
    the keys it records as failed are distinct keys of the entries, each
    holds the value it had, and every entry adds at most one to the
    counters. *)
Lemma single_loop_outcome target indep mode missingKeys totalKeys l :
  forall s s',
    NoDup l.*1 ->
    loop (single_visit target indep mode missingKeys totalKeys) s l = Some s' ->
    (exists fs,
       failedKeys s' = failedKeys s ++ fs
       /\ NoDup fs
       /\ forall k, k ∈ fs ->
            items s' !! k = items s !! k
            /\ exists v, (k, v) ∈ l /\ v ≠ "")
    /\ (translatedCount s <= translatedCount s')%Z
    /\ (translatedCount s' + Z.of_nat (length (failedKeys s'))
        <= translatedCount s + Z.of_nat (length (failedKeys s))
           + Z.of_nat (length l))%Z.
Proof.
  induction l as [|[k v] l IH]; intros s s' Hnd; cbn [loop].
  - intros [= <-]. split; [|lia]. exists []. rewrite app_nil_r.
    split; [reflexivity|]. split; [constructor|].
    intros k Hk. by apply elem_of_nil in Hk.
  - destruct (cmd.single_visit _ _ _ _ _ _ _ _ s (k, v)) as [s1|] eqn:Hvisit;
      [|discriminate].
    intros Hloop. apply NoDup_cons in Hnd as [Hk Hnd].
    destruct (single_loop_spec (l.*1) target indep mode missingKeys totalKeys l)
      with (s := s1) as (s2 & Heq & He & _).
    { intros k0 v0 Hin _. apply list_elem_of_fmap. by exists (k0, v0). }
    rewrite Heq in Hloop. injection Hloop as ->.
    destruct (IH s1 s' Hnd Heq) as ((fs & Hfs & Hndfs & Hin) & Hmono & Hsum).
    destruct (single_visit_spec target indep mode missingKeys totalKeys s k v)
      as (s1' & Heq1 & He1 & _).
    rewrite Hvisit in Heq1. injection Heq1 as <-.
    assert (Hother : forall k0, k0 ∈ fs ->
                       items s' !! k0 = items s !! k0
                       /\ exists v0, (k0, v0) ∈ (k, v) :: l /\ v0 ≠ "").
    { intros k0 Hk0. destruct (Hin k0 Hk0) as (Hi & v0 & Hv0 & Hne).
      split; [|exists v0; split; [by right|exact Hne]].
      rewrite Hi. apply (extends_frame _ _ _ k0 He1).
      intros Hin0. apply list_elem_of_singleton in Hin0 as ->.
      apply Hk. apply list_elem_of_fmap. by exists (k, v0). }
    destruct (single_visit_outcome _ _ _ _ _ _ _ _ _ Hvisit)
      as [[Hf Hc]|(Hf & Hc & Hi & Hne)].
    + split; [|simpl length; rewrite Hf in Hsum; lia].
      exists fs. rewrite Hfs, Hf. auto.
    + split.
      2:{ rewrite Hf, length_app in Hsum. simpl length in *. lia. }
      exists (k :: fs). rewrite Hfs, Hf, <- app_assoc.
      split; [reflexivity|]. split.
      * apply NoDup_cons. split; [|exact Hndfs].
        intros Hkfs. destruct (Hin k Hkfs) as (_ & v0 & Hv0 & _).
        apply Hk. apply list_elem_of_fmap. by exists (k, v0).
      * intros k0 Hk0. apply elem_of_cons in Hk0 as [->|Hk0]; [|by apply Hother].
        split; [|exists v; split; [by left|exact Hne]].
        rewrite <- Hi. apply (extends_frame _ _ _ k He), Hk.
Qed.


(** X11. Under [single_process] a key that is recorded as failed keeps the
    entry it had when the key loop started: the value the target had for it,
    or the empty string when the target did not have the key.  Only keys of
    the source with a value that is not empty are recorded, and none is
    recorded twice. *)
Theorem failed_key_keeps_its_entry order source target indep mode h :
  ranges_over (LocaleItemsMap source) order ->
  exists out,
    single_process order source target indep mode h = Some out
    /\ NoDup (failedKeys (final out))
    /\ forall k,
         k ∈ failedKeys (final out) ->
         (exists v, LocaleItemsMap source !! k = Some v /\ v ≠ "")
         /\ items (final out) !! k
            = Some (default "" (LocaleItemsMap target !! k)).
Proof.
  intros Horder.
  destruct (ranges_over_NoDup _ _ Horder) as [Hnd _].
  destruct (single_process_spec (order.*1) order source target indep mode h)
    as (out & Hout & _).
  { intros k v Hin _. apply list_elem_of_fmap. by exists (k, v). }
  exists out. split; [exact Hout|].
  unfold cmd.single_process in Hout.
  destruct (loop _ _ order) as [s'|] eqn:Hloop; [|discriminate].
  injection Hout as <-.
  match goal with
  | |- context [cmd.persist _ _ _ ?a ?b ?c] =>
      destruct (persist_spec target a b c) as (_ & -> & -> & _)
  end.
  destruct (report_failed_spec target s') as (_ & -> & -> & _).
  destruct (single_loop_outcome _ _ _ _ _ _ _ _ Hnd Hloop)
    as ((fs & Hfs & Hndfs & Hin) & _).
  simpl in Hfs. rewrite Hfs. split; [exact Hndfs|].
  intros k Hk. destruct (Hin k Hk) as (Hi & v & Hv & Hne).
  pose proof (ranges_over_lookup _ _ _ _ Horder Hv) as Hsrc.
  split; [eauto|].
  rewrite Hi, start_items, Hsrc. by destruct (LocaleItemsMap target !! k).
Qed.

(** X12. The numbers [single_process] reports add up: the number of
    translated keys is not negative, and together with the number of failed
    keys it is at most the number of keys of the source. *)
Theorem single_summary_adds_up order source target indep mode h :
  ranges_over (LocaleItemsMap source) order ->
  exists out,
    single_process order source target indep mode h = Some out
    /\ (0 <= translatedCount (final out))%Z
    /\ (translatedCount (final out)
        + Z.of_nat (length (failedKeys (final out)))
        <= Z.of_nat (size (LocaleItemsMap source)))%Z.
Proof.
  intros Horder.
  destruct (ranges_over_NoDup _ _ Horder) as [Hnd Hlen].
  destruct (single_process_spec (order.*1) order source target indep mode h)
    as (out & Hout & _).
  { intros k v Hin _. apply list_elem_of_fmap. by exists (k, v). }
  exists out. split; [exact Hout|].
  unfold cmd.single_process in Hout.
  destruct (loop _ _ order) as [s'|] eqn:Hloop; [|discriminate].
  injection Hout as <-.
  match goal with
  | |- context [cmd.persist _ _ _ ?a ?b ?c] =>
      destruct (persist_spec target a b c) as (_ & _ & -> & ->)
  end.
  destruct (report_failed_spec target s') as (_ & _ & -> & ->).
  destruct (single_loop_outcome _ _ _ _ _ _ _ _ Hnd Hloop)
    as (_ & Hmono & Hsum).
  simpl in Hmono, Hsum. lia.
Qed.


(** *** The count summary and the selected keys *)

(** The decision reads the entry of the key only. *)
Lemma selects_single_entry indep mode missingKeys m m' (kv : string * string) :
  m !! kv.1 = m' !! kv.1 ->
  selects_single indep mode missingKeys m kv
  = selects_single indep mode missingKeys m' kv.
Proof.
  intros H. unfold selects_single, needToTranslate_single. rewrite H.
  destruct (m' !! kv.1) as [cur|]; [|reflexivity].
  destruct indep as [ov|].
  { destruct (LocaleItemsMap ov !! kv.1); reflexivity. }
  destruct (String.eqb mode "full").
  - destruct (len cur =? 0)%Z; [reflexivity|].
    destruct (index0 cur) as [c|]; [|reflexivity].
    destruct (Ascii.eqb c "!"); reflexivity.
  - destruct (String.eqb mode "missing"); reflexivity.
Qed.

Lemma selects_batch_entry indep mode missingKeys m m' (kv : string * string) :
  m !! kv.1 = m' !! kv.1 ->
  selects_batch indep mode missingKeys m kv
  = selects_batch indep mode missingKeys m' kv.
Proof.
  intros H. unfold cmd.selects_batch, cmd.needToTranslate_batch. rewrite H.
  destruct (m' !! kv.1) as [cur|]; [|reflexivity].
  destruct indep as [ov|].
  { destruct (LocaleItemsMap ov !! kv.1); reflexivity. }
  destruct (String.eqb mode "full").
  - destruct (EqualFold cur kv.2 || (len cur =? 0)%Z); [reflexivity|].
    destruct (index0 cur) as [c|]; [|reflexivity].
    destruct (Ascii.eqb c "!"); reflexivity.
  - destruct (String.eqb mode "missing"); reflexivity.
Qed.

(** The selected entries are entries of the list, in its order. *)
Lemma filter_keys_sublist (f : string * string -> bool) l :
  (List.filter f l).*1 `sublist_of` l.*1.
Proof.
  induction l as [|a l IH]; cbn [List.filter]; [constructor|].
  destruct (f a); cbn [fmap list_fmap].
  - by apply sublist_skip.
  - by apply sublist_cons.
Qed.

(** A visit of the single-item strategy counts a selected key once, as
    translated or as failed, and no other key. *)
Lemma single_visit_counts target indep mode missingKeys totalKeys s s'
    (kv : string * string) :
  single_visit target indep mode missingKeys totalKeys s kv = Some s' ->
  if selects_single indep mode missingKeys (items s) kv then
    (failedKeys s' = failedKeys s
     /\ translatedCount s' = (translatedCount s + 1)%Z)
    \/ (failedKeys s' = failedKeys s ++ [kv.1]
        /\ translatedCount s' = translatedCount s)
  else failedKeys s' = failedKeys s /\ translatedCount s' = translatedCount s.
Proof.
  destruct kv as [k v]. unfold cmd.single_visit, selects_single. cbn [fst snd].
  destruct (negb (len v =? 0)%Z); cbn [andb]; [|intros [= <-]; auto].
  destruct (needToTranslate_single_spec indep mode missingKeys (items s) k)
    as (b & m' & -> & _).
  intros [= <-]. destruct b.
  - destruct (translate_key_outcome k v (Lang target) (set_items m' s))
      as [[Hf Hc]|(Hf & Hc & _)]; [left|right]; unfold_state; auto.
  - unfold_state. auto.
Qed.

(** The key loop of the single-item strategy on entries with distinct keys:
    every selected entry is counted once, as translated or as failed, and
    the keys recorded as failed are selected keys, in the order of the
    loop. *)
Lemma single_loop_counts target indep mode missingKeys totalKeys l :
  forall s s',
    NoDup l.*1 ->
    loop (single_visit target indep mode missingKeys totalKeys) s l = Some s' ->
    (translatedCount s' + Z.of_nat (length (failedKeys s'))
     = translatedCount s + Z.of_nat (length (failedKeys s))
       + Z.of_nat (length (List.filter
                             (selects_single indep mode missingKeys (items s))
                             l)))%Z
    /\ exists fs,
         failedKeys s' = failedKeys s ++ fs
         /\ fs `sublist_of`
              (List.filter (selects_single indep mode missingKeys (items s)) l).*1.
Proof.
  induction l as [|[k v] l IH]; intros s s' Hnd; cbn [loop].
  - intros [= <-]. cbn. split; [lia|]. exists []. by rewrite app_nil_r.
  - destruct (cmd.single_visit _ _ _ _ _ _ _ _ s (k, v)) as [s1|] eqn:Hvisit;
      [|discriminate].
    intros Hloop. apply NoDup_cons in Hnd as [Hk Hnd].
    destruct (IH s1 s' Hnd Hloop) as (Hsum & fs & Hfs & Hsub).
    destruct (single_visit_spec target indep mode missingKeys totalKeys s k v)
      as (s1' & Heq1 & He1 & _).
    rewrite Hvisit in Heq1. injection Heq1 as <-.
    assert (Hsame :
              List.filter (selects_single indep mode missingKeys (items s1)) l
              = List.filter (selects_single indep mode missingKeys (items s)) l).
    { apply List.filter_ext_in. intros [k' v'] Hin.
      apply selects_single_entry. cbn [fst].
      apply (extends_frame _ _ _ k' He1).
      intros Hin0. apply list_elem_of_singleton in Hin0 as ->.
      apply Hk. apply list_elem_of_fmap. exists (k, v').
      split; [reflexivity|]. by apply list_elem_of_In. }
    rewrite Hsame in Hsum, Hsub.
    pose proof (single_visit_counts _ _ _ _ _ _ _ _ Hvisit) as Hc.
    cbn [List.filter].
    destruct (selects_single indep mode missingKeys (items s) (k, v)).
    + cbn [length fmap list_fmap fst] in *.
      destruct Hc as [[Hf Hc]|[Hf Hc]].
      * split; [rewrite Hf in Hsum; lia|].
        exists fs. rewrite Hfs, Hf. split; [reflexivity|]. by apply sublist_cons.
      * split; [rewrite Hf, length_app in Hsum; simpl length in Hsum; lia|].
        exists (k :: fs). rewrite Hfs, Hf, <- app_assoc.
        split; [reflexivity|]. by apply sublist_skip.
    + destruct Hc as [Hf Hc]. split; [rewrite Hf in Hsum; lia|].
      exists fs. rewrite Hfs, Hf. auto.
Qed.

(** A loop over the elements of a slice with their indices. *)
Lemma loop_enumerate {A} (P : nat -> state Handler -> Prop)
    (body : state Handler -> nat * A -> option (state Handler)) (l : list A) :
  forall n s s',
    P n s ->
    (forall i x s1 s2,
        l !! i = Some x -> P (n + i)%nat s1 ->
        body s1 ((n + i)%nat, x) = Some s2 -> P (S (n + i)) s2) ->
    loop body s (imap (fun i x => ((n + i)%nat, x)) l) = Some s' ->
    P (n + length l)%nat s'.
Proof.
  induction l as [|x l IH]; intros n s s' Hs Hstep; cbn [imap loop].
  - intros [= <-]. by rewrite Nat.add_0_r.
  - rewrite Nat.add_0_r.
    destruct (body s (n, x)) as [s1|] eqn:Hb; [|discriminate]. intros Hloop.
    assert (Hs1 : P (S n) s1).
    { specialize (Hstep 0%nat x s s1 eq_refl).
      rewrite Nat.add_0_r in Hstep. by apply Hstep. }
    replace (n + length (x :: l))%nat with (S n + length l)%nat
      by (simpl; lia).
    apply (IH (S n) s1 s'); [exact Hs1| |].
    + intros i y s2 s3 Hl.
      replace (S n + i)%nat with (n + S i)%nat by lia.
      apply (Hstep (S i)). exact Hl.
    + rewrite <- Hloop. f_equal. apply imap_ext.
      intros i y _. simpl. f_equal. lia.
Qed.

(** A flush whose call succeeds keeps the count of selected keys, clears
    the pending keys and records as failed some of them, in their order. *)
Lemma sendBatch_flushed target s s' err :
  never_fails (Lang target) BatchTranslate ->
  length (keys s) = length (batch s) ->
  sendBatch target s = Some (s', err) ->
  translatedCount s' = translatedCount s
  /\ keys s' = []
  /\ exists fs, failedKeys s' = failedKeys s ++ fs /\ fs `sublist_of` keys s.
Proof.
  intros Hnf Hlen. unfold cmd.sendBatch.
  destruct (Z.of_nat (length (batch s)) =? 0)%Z eqn:Hz.
  { intros [= <- <-]. split; [reflexivity|]. split.
    - apply nil_length_inv. apply Z.eqb_eq in Hz. lia.
    - exists []. rewrite app_nil_r. split; [reflexivity|apply sublist_nil_l]. }
  pose proof (Hnf (batch s) (handler s)) as Herr.
  destruct (BatchTranslate (batch s) (Lang target) (handler s))
    as [[results err0] h1].
  cbn [fst snd] in Herr. subst err0.
  set (s1 := emit [CallBatchTranslate (keys s) (batch s) (Lang target)]
               (set_handler h1 s)).
  destruct (loop _ s1 (enumerate results)) as [s2|] eqn:Hloop; [|discriminate].
  intros [= <- <-].
  apply (loop_enumerate
           (fun i st =>
              keys st = keys s /\ batch st = batch s
              /\ translatedCount st = translatedCount s
              /\ exists fs, failedKeys st = failedKeys s ++ fs
                            /\ fs `sublist_of` take i (keys s))
           _ results 0%nat s1 s2) in Hloop.
  - destruct Hloop as (_ & _ & Hc & fs & Hf & Hsub).
    split; [exact Hc|]. split; [reflexivity|].
    exists fs. split; [exact Hf|].
    etrans; [exact Hsub|]. apply sublist_take.
  - subst s1. unfold_state. repeat split.
    exists []. rewrite app_nil_r. split; [reflexivity|constructor].
  - intros i result st st2 Hres (Hk & Hb & Hc & fs & Hf & Hsub).
    cbn [fst snd Nat.add].
    destruct (keys st !! i) as [key|] eqn:Hkey; [|discriminate].
    assert (Htake : take (S i) (keys s) = take i (keys s) ++ [key]).
    { rewrite Hk in Hkey. by apply take_S_r. }
    destruct (is_blank result).
    + destruct (batch st !! i) as [src|]; [|discriminate].
      intros [= <-]. unfold_state. repeat split; try assumption.
      exists (fs ++ [key]). rewrite Hf, <- app_assoc.
      split; [reflexivity|]. rewrite Htake. by apply sublist_app.
    + intros [= <-]. unfold_state. repeat split; try assumption.
      exists fs. split; [exact Hf|]. rewrite Htake.
      by apply sublist_inserts_r.
Qed.

(** A visit of the batch strategy with a client whose calls succeed counts
    a selected key once; the keys it records as failed and the keys it
    leaves pending were pending or are the selected key, in this order. *)
Lemma batch_visit_counts target indep batchSize mode missingKeys totalKeys
    s s' (kv : string * string) :
  never_fails (Lang target) BatchTranslate ->
  length (keys s) = length (batch s) ->
  batch_visit target indep batchSize mode missingKeys totalKeys s kv = Some s' ->
  translatedCount s'
  = (translatedCount s
     + Z.of_nat (length (List.filter
                           (selects_batch indep mode missingKeys (items s))
                           [kv])))%Z
  /\ exists fs,
       failedKeys s' = failedKeys s ++ fs
       /\ (fs ++ keys s')
            `sublist_of`
            (keys s
             ++ (List.filter (selects_batch indep mode missingKeys (items s))
                   [kv]).*1).
Proof.
  intros Hnf Hlen. destruct kv as [k v].
  unfold cmd.batch_visit, cmd.selects_batch. cbn [List.filter fst snd].
  destruct (negb (len v =? 0)%Z); cbn [andb].
  2:{ intros [= <-]. cbn. split; [lia|]. exists [].
      rewrite !app_nil_r. split; reflexivity. }
  destruct (needToTranslate_batch_spec indep mode missingKeys (items s) k v)
    as (b & m' & -> & _).
  destruct b.
  - set (s2 := incr_translated
                 (set_batch (batch (set_items m' s) ++ [v])
                    (keys (set_items m' s) ++ [k]) (set_items m' s))).
    assert (Hl2 : length (keys s2) = length (batch s2)).
    { subst s2. unfold_state. rewrite !length_app. simpl. lia. }
    assert (Hc2 : translatedCount s2 = (translatedCount s + 1)%Z)
      by (subst s2; unfold_state; reflexivity).
    assert (Hf2 : failedKeys s2 = failedKeys s)
      by (subst s2; unfold_state; reflexivity).
    assert (Hk2 : keys s2 = keys s ++ [k])
      by (subst s2; unfold_state; reflexivity).
    cbn [length fmap list_fmap fst].
    destruct (Z.of_nat (length (batch s2)) >=? batchSize)%Z.
    + destruct (sendBatch target s2) as [[s3 err]|] eqn:Hsend; [|discriminate].
      destruct (sendBatch_flushed _ _ _ _ Hnf Hl2 Hsend)
        as (Hc3 & Hk3 & fs & Hf3 & Hsub).
      cbn [fmap option_fmap option_map fst]. intros [= <-].
      unfold incr_count, emit. cbn [translatedCount failedKeys keys].
      split; [lia|]. exists fs. rewrite Hf3, Hf2, Hk3, app_nil_r.
      split; [reflexivity|]. by rewrite <- Hk2.
    + intros [= <-].
      unfold incr_count, emit. cbn [translatedCount failedKeys keys].
      split; [lia|]. exists [].
      rewrite app_nil_r, Hf2, Hk2. split; reflexivity.
  - intros [= <-]. unfold_state. split; [lia|]. exists [].
    rewrite !app_nil_r. split; reflexivity.
Qed.

(** The key loop of the batch strategy on entries with distinct keys, none
    of them pending, with a client whose calls succeed: every selected entry
    is counted once, and the keys recorded as failed or left pending are
    pending or selected keys, in the order of the loop. *)
Lemma batch_loop_counts target indep batchSize mode missingKeys totalKeys l :
  length_preserving (Lang target) BatchTranslate ->
  never_fails (Lang target) BatchTranslate ->
  forall s s',
    NoDup l.*1 ->
    length (keys s) = length (batch s) ->
    (forall k, k ∈ keys s -> k ∉ l.*1) ->
    loop (batch_visit target indep batchSize mode missingKeys totalKeys) s l
    = Some s' ->
    length (keys s') = length (batch s')
    /\ translatedCount s'
       = (translatedCount s
          + Z.of_nat (length (List.filter
                                (selects_batch indep mode missingKeys (items s))
                                l)))%Z
    /\ exists fs,
         failedKeys s' = failedKeys s ++ fs
         /\ (fs ++ keys s')
              `sublist_of`
              (keys s
               ++ (List.filter (selects_batch indep mode missingKeys (items s))
                     l).*1).
Proof.
  intros Hlp Hnf.
  induction l as [|[k v] l IH]; intros s s' Hnd Hlen Hpend; cbn [loop].
  - intros [= <-]. cbn. split; [exact Hlen|]. split; [lia|]. exists [].
    rewrite !app_nil_r. split; reflexivity.
  - destruct (cmd.batch_visit _ _ _ _ _ _ _ _ s (k, v)) as [s1|] eqn:Hvisit;
      [|discriminate].
    intros Hloop. apply NoDup_cons in Hnd as [Hk Hnd].
    destruct (batch_visit_spec target Hlp indep batchSize mode missingKeys
                totalKeys s k v Hlen) as (s1' & Heq1 & He1 & Hl1 & Hk1).
    rewrite Hvisit in Heq1. injection Heq1 as <-.
    assert (Hpend1 : forall k', k' ∈ keys s1 -> k' ∉ l.*1).
    { intros k' Hk'. apply Hk1, elem_of_app in Hk' as [Hk'|Hk'].
      - intros Hin. apply (Hpend k' Hk'). by right.
      - apply list_elem_of_singleton in Hk' as ->. exact Hk. }
    destruct (IH s1 s' Hnd Hl1 Hpend1 Hloop) as (Hl' & Hsum & fs & Hfs & Hsub).
    assert (Hsame :
              List.filter (selects_batch indep mode missingKeys (items s1)) l
              = List.filter (selects_batch indep mode missingKeys (items s)) l).
    { apply List.filter_ext_in. intros [k' v'] Hin.
      apply selects_batch_entry. cbn [fst].
      assert (Hkl : k' ∈ l.*1).
      { apply list_elem_of_fmap. exists (k', v').
        split; [reflexivity|]. by apply list_elem_of_In. }
      apply (extends_frame _ _ _ k' He1).
      intros Hin0. apply elem_of_app in Hin0 as [Hin0|Hin0].
      - apply (Hpend k' Hin0). by right.
      - apply list_elem_of_singleton in Hin0 as ->. by apply Hk. }
    rewrite Hsame in Hsum, Hsub.
    destruct (batch_visit_counts _ _ _ _ _ _ _ _ _ Hnf Hlen Hvisit)
      as (Hc1 & fs1 & Hf1 & Hsub1).
    split; [exact Hl'|].
    change ((k, v) :: l) with ([(k, v)] ++ l).
    rewrite List.filter_app, length_app, fmap_app.
    split; [lia|].
    exists (fs1 ++ fs). rewrite Hfs, Hf1, <- app_assoc.
    split; [reflexivity|].
    rewrite <- (app_assoc fs1), (app_assoc (keys s)).
    etrans; [apply sublist_app; [reflexivity|exact Hsub]|].
    rewrite (app_assoc fs1). apply sublist_app; [exact Hsub1|reflexivity].
Qed.

(** C9, as amended.  Both functions return the error alone (for the batch
    strategy, with a client that returns as many elements as it is given).
    When they return nil, the last thing they did is to print the count
    summary, whose total is the number of keys of the source.  For the
    single-item strategy, and for the batch strategy with a client whose
    batch calls never fail as a whole, the keys recorded as failed are
    selected keys, in the order of the key loop and none of them twice;
    the failed count of the summary is their number, and the translated
    count is the number of selected keys less the number of failed keys,
    which is not negative.  A key is selected when its source value is not
    empty and the decision, taken on the items of the target as they stand
    when the key loop starts, is to translate it. *)
Theorem summary_is_printed order source target indep mode batchSize h :
  ranges_over (LocaleItemsMap source) order ->
  length_preserving (Lang target) BatchTranslate ->
  (exists out,
     single_process order source target indep mode h = Some out
     /\ failedKeys (final out)
          `sublist_of` (selected_single order source target indep mode h).*1
     /\ NoDup (failedKeys (final out))
     /\ (length (failedKeys (final out))
         <= length (selected_single order source target indep mode h))%nat
     /\ (ret out = None ->
         last (events (final out))
         = Some (Print (MsgDone (Path target)
                          (Z.of_nat (size (LocaleItemsMap source)))
                          (Z.of_nat (size (LocaleItemsMap source)))
                          (Z.of_nat (length (selected_single order source
                                               target indep mode h))
                           - Z.of_nat (length (failedKeys (final out))))
                          (Z.of_nat (length (failedKeys (final out))))))))
  /\ (exists out,
        batch_process order source target indep batchSize mode h = Some out
        /\ (ret out = None ->
            exists translated failed,
              last (events (final out))
              = Some (Print (MsgDone (Path target)
                               (Z.of_nat (size (LocaleItemsMap source)))
                               (Z.of_nat (size (LocaleItemsMap source)))
                               translated failed)))
        /\ (never_fails (Lang target) BatchTranslate ->
            failedKeys (final out)
              `sublist_of` (selected_batch order source target indep mode h).*1
            /\ NoDup (failedKeys (final out))
            /\ (length (failedKeys (final out))
                <= length (selected_batch order source target indep mode h))%nat
            /\ (ret out = None ->
                last (events (final out))
                = Some (Print (MsgDone (Path target)
                                 (Z.of_nat (size (LocaleItemsMap source)))
                                 (Z.of_nat (size (LocaleItemsMap source)))
                                 (Z.of_nat (length (selected_batch order source
                                                      target indep mode h))
                                  - Z.of_nat (length (failedKeys (final out))))
                                 (Z.of_nat (length (failedKeys (final out))))))))).
Proof.
  intros Horder Hlen.
  destruct (ranges_over_NoDup _ _ Horder) as [Hnd _].
  assert (HK : forall k v, (k, v) ∈ order -> v ≠ "" -> k ∈ order.*1).
  { intros k v Hin _. apply list_elem_of_fmap. by exists (k, v). }
  assert (Hfacts : forall (f : string * string -> bool) (fk : list string),
             fk `sublist_of` (List.filter f order).*1 ->
             NoDup fk /\ (length fk <= length (List.filter f order))%nat).
  { intros f fk Hsub. split.
    - apply (sublist_NoDup _ (List.filter f order).*1); [|exact Hsub].
      apply (sublist_NoDup _ order.*1 Hnd), filter_keys_sublist.
    - apply sublist_length in Hsub. by rewrite length_fmap in Hsub. }
  split.
  - unfold cmd.single_process, cmd.selected_single.
    match goal with
    | |- context [loop (cmd.single_visit _ _ _ ?tg ?i ?md ?mk ?tk) ?s0 order] =>
        destruct (single_loop_spec (order.*1) tg i md mk tk order HK s0)
          as (s' & Hloop & _);
        rewrite Hloop;
        destruct (single_loop_counts tg i md mk tk order s0 s' Hnd Hloop)
          as (Hsum & fs & Hfs & Hsub)
    end.
    eexists; split; [reflexivity|].
    cbn [failedKeys translatedCount start app length] in Hsum, Hfs. subst fs.
    match goal with
    | |- context [cmd.persist _ _ _ ?a ?b ?c] =>
        destruct (persist_spec target a b c) as (_ & _ & Hpf & _);
        pose proof (persist_summary target a b c) as Hlast
    end.
    destruct (report_failed_spec target s') as (_ & _ & Hrf & Hrc).
    rewrite Hpf, Hrf, ?Hrc. rewrite Hrf, ?Hrc in Hlast.
    destruct (Hfacts _ _ Hsub) as [Hnd' Hle].
    split; [exact Hsub|]. split; [exact Hnd'|]. split; [exact Hle|].
    intros Hret. rewrite (Hlast Hret). do 3 f_equal. lia.
  - unfold cmd.batch_process, cmd.selected_batch.
    match goal with
    | |- context [loop (cmd.batch_visit _ _ ?tg ?i ?bs ?md ?mk ?tk) ?s0 order] =>
        destruct (batch_loop_spec tg Hlen (order.*1) i bs md mk tk order HK s0)
          as (s' & Hloop & _ & Hl & _);
          [reflexivity|intros k Hk; by apply elem_of_nil in Hk|];
        rewrite Hloop;
        assert (Hnone : forall k, k ∈ keys s0 -> k ∉ order.*1)
          by (intros k Hk; by apply elem_of_nil in Hk);
        pose proof (fun Hnf =>
                      batch_loop_counts tg i bs md mk tk order Hlen Hnf s0 s'
                        Hnd eq_refl Hnone Hloop) as Hcounts
    end.
    assert (exists s1 err,
              (if (0 <? Z.of_nat (length (batch s')))%Z
               then fst <$> sendBatch target s' else Some s') = Some s1
              /\ ((0 <? Z.of_nat (length (batch s')))%Z = true ->
                  sendBatch target s' = Some (s1, err))
              /\ ((0 <? Z.of_nat (length (batch s')))%Z = false -> s1 = s'))
      as (s1 & err & Hflush & Hsent & Hnot).
    { destruct (0 <? _)%Z.
      - destruct (sendBatch_spec target Hlen s' Hl) as (s1 & err & Hs & _).
        exists s1, err. rewrite Hs. split; [reflexivity|]. split; [auto|discriminate].
      - exists s', None. split; [reflexivity|]. split; [discriminate|auto]. }
    rewrite Hflush.
    eexists; split; [reflexivity|].
    match goal with
    | |- context [cmd.persist _ _ _ ?a ?b ?c] =>
        destruct (persist_spec target a b c) as (_ & _ & Hpf & _);
        pose proof (persist_summary target a b c) as Hlast
    end.
    destruct (report_failed_spec target s1) as (_ & _ & Hrf & Hrc).
    rewrite Hpf, Hrf, ?Hrc. rewrite Hrf, ?Hrc in Hlast.
    split; [intros Hret; eauto|].
    intros Hnf.
    destruct (Hcounts Hnf) as (_ & Hsum & fs & Hfs & Hsub).
    cbn [failedKeys translatedCount keys start app] in Hsum, Hfs, Hsub.
    subst fs.
    assert (Hfinal : translatedCount s1 = translatedCount s'
                     /\ failedKeys s1 `sublist_of`
                          (List.filter
                             (selects_batch indep mode
                                (findMissingKeys (LocaleItemsMap source)
                                   (LocaleItemsMap target))
                                (items (start source target h))) order).*1).
    { destruct (0 <? Z.of_nat (length (batch s')))%Z.
      - destruct (sendBatch_flushed _ _ _ _ Hnf Hl (Hsent eq_refl))
          as (Hc & _ & fs & Hf & Hfs).
        split; [exact Hc|]. rewrite Hf.
        etrans; [|exact Hsub]. apply sublist_app; [reflexivity|exact Hfs].
      - rewrite (Hnot eq_refl). split; [reflexivity|].
        etrans; [|exact Hsub]. by apply sublist_inserts_r. }
    destruct Hfinal as [Hc Hsubf].
    destruct (Hfacts _ _ Hsubf) as [Hnd' Hle].
    split; [exact Hsubf|]. split; [exact Hnd'|]. split; [exact Hle|].
    intros Hret. rewrite (Hlast Hret). do 3 f_equal. lia.
Qed.


(** *** The calls of the batch strategy *)

Lemma paired_snoc (src : gmap string string) ks ts k v :
  paired src ks ts -> src !! k = Some v -> v ≠ "" ->
  paired src (ks ++ [k]) (ts ++ [v]).
Proof.
  intros [Hlen Hp] Hk Hv. split; [rewrite !length_app; simpl; lia|].
  intros i key text Hi Ht.
  destruct (decide (i < length ks)%nat) as [Hlt|Hge].
  - rewrite lookup_app_l in Hi by done.
    rewrite lookup_app_l in Ht by lia. eauto.
  - rewrite lookup_app_r in Hi by lia.
    rewrite lookup_app_r in Ht by lia.
    rewrite Hlen in Hi.
    destruct (i - length ts)%nat; [|done].
    simpl in *. injection Hi as <-. injection Ht as <-. auto.
Qed.

Lemma sendBatch_calls (src : gmap string string) target s s' err :
  paired src (keys s) (batch s) ->
  Forall (batch_call src (Lang target)) (events s) ->
  sendBatch target s = Some (s', err) ->
  paired src (keys s') (batch s')
  /\ Forall (batch_call src (Lang target)) (events s').
Proof.
  intros Hp Hev. unfold cmd.sendBatch.
  destruct (Z.of_nat (length (batch s)) =? 0)%Z eqn:Hz;
    [by intros [= <- _]|].
  assert (Hne : batch s ≠ []).
  { intros Hb. rewrite Hb in Hz. discriminate. }
  destruct (BatchTranslate (batch s) (Lang target) (handler s))
    as [[results e] h1].
  set (s1 := emit [CallBatchTranslate (keys s) (batch s) (Lang target)]
               (set_handler h1 s)).
  assert (H1 : keys s1 = keys s /\ batch s1 = batch s
               /\ Forall (batch_call src (Lang target)) (events s1)).
  { subst s1. unfold emit, set_handler; simpl.
    split; [reflexivity|]. split; [reflexivity|].
    apply Forall_app. split; [exact Hev|].
    apply Forall_singleton. simpl. auto. }
  destruct e as [e|].
  - match goal with
    | |- context [loop ?body ?s0 ?l] =>
        destruct (loop body s0 l) as [s2|] eqn:Hloop; [|discriminate];
        apply (loop_partial
                 (fun st => keys st = keys s /\ batch st = batch s
                            /\ Forall (batch_call src (Lang target)) (events st))
                 body l) in Hloop
    end.
    + intros [= <- _]. destruct Hloop as (-> & -> & H). auto.
    + intros s0 [i text] s2' (Hk0 & Hb0 & He0). cbn [fst snd].
      destruct (keys s0 !! i); [|discriminate]. intros [= <-].
      unfold fail_key, emit; simpl.
      split; [exact Hk0|]. split; [exact Hb0|].
      apply Forall_app. split; [exact He0|]. by apply Forall_singleton.
    + destruct H1 as (Hk1 & Hb1 & He1). unfold emit; simpl.
      split; [exact Hk1|]. split; [exact Hb1|].
      apply Forall_app. split; [exact He1|]. by apply Forall_singleton.
  - match goal with
    | |- context [loop ?body ?s0 ?l] =>
        destruct (loop body s0 l) as [s2|] eqn:Hloop; [|discriminate];
        apply (loop_partial
                 (fun st => Forall (batch_call src (Lang target)) (events st))
                 body l) in Hloop
    end.
    + intros [= <- _]. unfold set_batch; simpl. split; [|exact Hloop].
      split; [reflexivity|]. intros i key text Hi. by rewrite lookup_nil in Hi.
    + intros s0 [i result] s2' He0. cbn [fst snd].
      destruct (keys s0 !! i); [|discriminate].
      destruct (is_blank result).
      * destruct (batch s0 !! i); [|discriminate]. intros [= <-].
        unfold fail_key, emit; simpl.
        apply Forall_app. split; [exact He0|].
        repeat constructor.
      * intros [= <-]. exact He0.
    + apply H1.
Qed.

Lemma batch_visit_calls (src : gmap string string) target indep batchSize mode
    missingKeys totalKeys s s' k v :
  src !! k = Some v ->
  paired src (keys s) (batch s) ->
  Forall (batch_call src (Lang target)) (events s) ->
  batch_visit target indep batchSize mode missingKeys totalKeys s (k, v)
  = Some s' ->
  paired src (keys s') (batch s')
  /\ Forall (batch_call src (Lang target)) (events s').
Proof.
  intros Hk Hp Hev. unfold cmd.batch_visit.
  destruct (negb (len v =? 0)%Z) eqn:Hv; [|by intros [= <-]].
  assert (v ≠ "") as Hne by (intros ->; discriminate).
  destruct (needToTranslate_batch indep mode missingKeys (items s) k v)
    as [[b m']|]; [|discriminate].
  assert (Hfin : forall s3 : state Handler,
             paired src (keys s3) (batch s3) ->
             Forall (batch_call src (Lang target)) (events s3) ->
             paired src
               (keys (incr_count
                        (emit [Print (MsgProgress (Path target) (count s3)
                                        totalKeys (translatedCount s3))] s3)))
               (batch (incr_count
                         (emit [Print (MsgProgress (Path target) (count s3)
                                         totalKeys (translatedCount s3))] s3)))
             /\ Forall (batch_call src (Lang target))
                  (events (incr_count
                             (emit [Print (MsgProgress (Path target) (count s3)
                                             totalKeys (translatedCount s3))]
                                s3)))).
  { intros s3 Hp3 He3. unfold incr_count, emit; simpl. split; [exact Hp3|].
    apply Forall_app. split; [exact He3|]. by apply Forall_singleton. }
  destruct b.
  - match goal with
    | |- context [(Z.of_nat (length (batch ?x)) >=? batchSize)%Z] =>
        set (s2 := x)
    end.
    assert (Hp2 : paired src (keys s2) (batch s2)).
    { subst s2. unfold incr_translated, set_batch, set_items; simpl.
      by apply paired_snoc. }
    assert (He2 : Forall (batch_call src (Lang target)) (events s2)) by exact Hev.
    destruct (Z.of_nat (length (batch s2)) >=? batchSize)%Z.
    + destruct (sendBatch target s2) as [[s3 err]|] eqn:Hsend; [|discriminate].
      destruct (sendBatch_calls _ _ _ _ _ Hp2 He2 Hsend) as [Hp3 He3].
      intros [= <-]. by apply Hfin.
    + intros [= <-]. by apply Hfin.
  - intros [= <-]. apply (Hfin (set_items m' s)); [exact Hp|exact Hev].
Qed.

(** X13. What [batch_process] sends.  It never calls [Translate]; every call
    of [BatchTranslate] is for the language of the target, carries at least
    one text and as many keys as texts, and the text at an index is the
    source value, not empty, of the key at that index: the answers, which
    are matched to the keys by index, are answers for those keys. *)
Theorem batch_calls_pair_keys_and_texts order source target indep batchSize
    mode h :
  length_preserving (Lang target) BatchTranslate ->
  ranges_over (LocaleItemsMap source) order ->
  exists out,
    batch_process order source target indep batchSize mode h = Some out
    /\ (forall key text lang, CallTranslate key text lang ∉ events (final out))
    /\ forall keys texts lang,
         CallBatchTranslate keys texts lang ∈ events (final out) ->
         lang = Lang target
         /\ texts ≠ []
         /\ length keys = length texts
         /\ forall i key text,
              keys !! i = Some key -> texts !! i = Some text ->
              LocaleItemsMap source !! key = Some text /\ text ≠ "".
Proof.
  intros Hlen Horder.
  destruct (batch_process_spec target Hlen (order.*1) order source indep
              batchSize mode h) as (out & Hout & _).
  { intros k v Hin _. apply list_elem_of_fmap. by exists (k, v). }
  exists out. split; [exact Hout|].
  assert (Hall : Forall (batch_call (LocaleItemsMap source) (Lang target))
                   (events (final out))).
  { unfold cmd.batch_process in Hout.
    destruct (loop _ _ order) as [s'|] eqn:Hloop; [|discriminate].
    apply (loop_partial_in
             (fun s => paired (LocaleItemsMap source) (keys s) (batch s)
                       /\ Forall (batch_call (LocaleItemsMap source) (Lang target))
                            (events s))) in Hloop as [Hp He].
    - assert (exists s1,
                (if (0 <? Z.of_nat (length (batch s')))%Z
                 then fst <$> sendBatch target s' else Some s') = Some s1
                /\ Forall (batch_call (LocaleItemsMap source) (Lang target))
                     (events s1)) as (s1 & Heq & He1).
      { destruct (0 <? _)%Z; [|eauto].
        destruct (sendBatch target s') as [[s1 err]|] eqn:Hsend; [|discriminate].
        destruct (sendBatch_calls _ _ _ _ _ Hp He Hsend) as [_ He1].
        simpl. eauto. }
      rewrite Heq in Hout. injection Hout as <-.
      assert (Hrep : Forall (batch_call (LocaleItemsMap source) (Lang target))
                       (events (report_failed target s1))).
      { unfold cmd.report_failed.
        destruct (0 <? Z.of_nat (length (failedKeys s1)))%Z; [|exact He1].
        unfold emit; simpl. apply Forall_app. split; [exact He1|].
        destruct (_ <=? 10)%Z; repeat constructor. }
      unfold cmd.persist.
      destruct (JSON _) as [buf [err|]]; [exact Hrep|].
      destruct (os_WriteFile _ _ _); unfold emit; simpl;
        repeat (apply Forall_app; split); try exact Hrep; repeat constructor.
    - intros s [k v] s1 Hin [Hp He] Hvisit.
      eapply batch_visit_calls; eauto.
      eapply ranges_over_lookup; eauto.
    - split.
      + split; [reflexivity|]. intros i key text Hi. by destruct i.
      + unfold start; cbn [events].
        match goal with
        | |- context [if ?b then _ else _] => destruct b
        end; repeat constructor. }
  rewrite Forall_forall in Hall. split.
  - intros key text lang Hin. exact (Hall _ Hin).
  - intros keys texts lang Hin. destruct (Hall _ Hin) as (Hl & Hne & Hlen' & Hp).
    auto.
Qed.


Lemma sendBatch_at_most target n s s' err :
  never_fails (Lang target) BatchTranslate ->
  (Z.of_nat (length (batch s)) <= n)%Z ->
  Forall (at_most n) (events s) ->
  sendBatch target s = Some (s', err) ->
  batch s' = [] /\ Forall (at_most n) (events s').
Proof.
  intros Hnf Hn Hev. unfold cmd.sendBatch.
  destruct (Z.of_nat (length (batch s)) =? 0)%Z eqn:Hz.
  { intros [= <- _]. split; [|exact Hev].
    apply Z.eqb_eq in Hz. apply nil_length_inv. lia. }
  specialize (Hnf (batch s) (handler s)).
  destruct (BatchTranslate (batch s) (Lang target) (handler s))
    as [[results e] h1].
  simpl in Hnf. subst e.
  match goal with
  | |- context [loop ?body ?s0 ?l] =>
      destruct (loop body s0 l) as [s2|] eqn:Hloop; [|discriminate];
      apply (loop_partial (fun st => Forall (at_most n) (events st)) body l)
        in Hloop
  end.
  - intros [= <- _]. split; [reflexivity|exact Hloop].
  - intros s0 [i result] s2' He0. cbn [fst snd].
    destruct (keys s0 !! i); [|discriminate].
    destruct (is_blank result).
    + destruct (batch s0 !! i); [|discriminate]. intros [= <-].
      unfold fail_key, emit; simpl.
      apply Forall_app. split; [exact He0|]. repeat constructor.
    + intros [= <-]. exact He0.
  - unfold emit, set_handler; simpl. apply Forall_app.
    split; [exact Hev|]. by apply Forall_singleton.
Qed.

(** X14. The batch size is respected by a client that returns no error.
    With such a client no call of [BatchTranslate] carries more than
    [batchSize] texts (one text, when [batchSize] is less than one), and
    nothing is left pending when the function returns. *)
Theorem batch_size_is_respected order source target indep batchSize mode h :
  length_preserving (Lang target) BatchTranslate ->
  never_fails (Lang target) BatchTranslate ->
  exists out,
    batch_process order source target indep batchSize mode h = Some out
    /\ batch (final out) = []
    /\ forall keys texts lang,
         CallBatchTranslate keys texts lang ∈ events (final out) ->
         (Z.of_nat (length texts) <= Z.max 1 batchSize)%Z.
Proof.
  intros Hlen Hnf.
  destruct (batch_process_spec target Hlen (order.*1) order source indep
              batchSize mode h) as (out & Hout & _).
  { intros k v Hin _. apply list_elem_of_fmap. by exists (k, v). }
  exists out. split; [exact Hout|].
  set (n := Z.max 1 batchSize).
  assert (Hall : batch (final out) = []
                 /\ Forall (at_most n) (events (final out))).
  { unfold cmd.batch_process in Hout.
    destruct (loop _ _ order) as [s'|] eqn:Hloop; [|discriminate].
    apply (loop_partial
             (fun s => (Z.of_nat (length (batch s)) < n)%Z
                       /\ Forall (at_most n) (events s))) in Hloop as [Hp He].
    - assert (exists s1,
                (if (0 <? Z.of_nat (length (batch s')))%Z
                 then fst <$> sendBatch target s' else Some s') = Some s1
                /\ batch s1 = []
                /\ Forall (at_most n) (events s1)) as (s1 & Heq & Hb1 & He1).
      { destruct (0 <? Z.of_nat (length (batch s')))%Z eqn:Hz.
        - destruct (sendBatch target s') as [[s1 err]|] eqn:Hsend; [|discriminate].
          assert (Hle : (Z.of_nat (length (batch s')) <= n)%Z) by lia.
          destruct (sendBatch_at_most _ n _ _ _ Hnf Hle He Hsend)
            as [Hb1 He1].
          simpl. eauto.
        - eexists; split; [reflexivity|]. split; [|exact He].
          apply Z.ltb_ge in Hz. apply nil_length_inv. lia. }
      rewrite Heq in Hout. injection Hout as <-.
      assert (Hrep : batch (report_failed target s1) = []
                     /\ Forall (at_most n) (events (report_failed target s1))).
      { unfold cmd.report_failed.
        destruct (0 <? Z.of_nat (length (failedKeys s1)))%Z; [|auto].
        unfold emit; simpl. split; [exact Hb1|].
        apply Forall_app. split; [exact He1|].
        destruct (_ <=? 10)%Z; repeat constructor. }
      destruct Hrep as [Hb2 He2].
      unfold cmd.persist.
      destruct (JSON _) as [buf [err|]]; [auto|].
      destruct (os_WriteFile _ _ _); unfold emit; simpl;
        (split; [exact Hb2|]);
        repeat (apply Forall_app; split); try exact He2; repeat constructor.
    - intros s [k v] s1 [Hp He]. unfold cmd.batch_visit.
      destruct (negb (len v =? 0)%Z); [|by intros [= <-]].
      destruct (cmd.needToTranslate_batch _ _ _ _ _ _ _) as [[b m']|];
        [|discriminate].
      assert (Hfin : forall s3 : state Handler,
                 (Z.of_nat (length (batch s3)) < n)%Z ->
                 Forall (at_most n) (events s3) ->
                 (Z.of_nat
                    (length
                       (batch
                          (incr_count
                             (emit [Print (MsgProgress (Path target) (count s3)
                                             (Z.of_nat (size (LocaleItemsMap source)))
                                             (translatedCount s3))] s3)))) < n)%Z
                 /\ Forall (at_most n)
                      (events
                         (incr_count
                            (emit [Print (MsgProgress (Path target) (count s3)
                                            (Z.of_nat (size (LocaleItemsMap source)))
                                            (translatedCount s3))] s3)))).
      { intros s3 Hp3 He3. unfold incr_count, emit; simpl. split; [exact Hp3|].
        apply Forall_app. split; [exact He3|]. by apply Forall_singleton. }
      destruct b.
      + match goal with
        | |- context [(Z.of_nat (length (batch ?x)) >=? batchSize)%Z] =>
            set (s2 := x)
        end.
        assert (Hl2 : Z.of_nat (length (batch s2))
                      = (Z.of_nat (length (batch s)) + 1)%Z).
        { subst s2. unfold incr_translated, set_batch, set_items; simpl.
          rewrite length_app. simpl. lia. }
        assert (He2 : Forall (at_most n) (events s2)) by exact He.
        destruct (Z.geb_spec (Z.of_nat (length (batch s2))) batchSize).
        * destruct (sendBatch target s2) as [[s3 err]|] eqn:Hsend;
            [|discriminate].
          assert (Hle : (Z.of_nat (length (batch s2)) <= n)%Z) by lia.
          destruct (sendBatch_at_most _ n _ _ _ Hnf Hle He2 Hsend)
            as [Hb3 He3].
          intros [= <-]. apply Hfin; [|exact He3]. rewrite Hb3. simpl. lia.
        * intros [= <-]. apply Hfin; [|exact He2]. lia.
      + intros [= <-]. apply (Hfin (set_items m' s)); [exact Hp|exact He].
    - split; [simpl; lia|]. unfold start; cbn [events].
      match goal with
      | |- context [if ?b then _ else _] => destruct b
      end; repeat constructor. }
  destruct Hall as [Hb Hall]. split; [exact Hb|].
  rewrite Forall_forall in Hall.
  intros keys texts lang Hin. exact (Hall _ Hin).
Qed.


(** *** What is written at the end *)

Lemma report_then_persist target totalKeys translated s :
  let out := persist target totalKeys translated (report_failed target s) in
  items (final out) = items s
  /\ failedKeys (final out) = failedKeys s
  /\ (forall buf,
        JSON (written target (items s)) = (buf, None) ->
        WriteFile (Path target) buf ∈ events (final out))
  /\ (forall buf err,
        JSON (written target (items s)) = (buf, Some err) ->
        ret out = Some err)
  /\ (failedKeys s ≠ [] ->
      WriteFile
        (String.append "failed_keys_"
           (String.append (filepath_Base (Path target)) ".txt"))
        (join_lines (failedKeys s))
      ∈ events (final out))
  /\ ((forall evs name content, os_WriteFile evs name content = None) ->
      (JSON (written target (items s))).2 = None ->
      ret out = None).
Proof.
  intros out. subst out.
  destruct (report_failed_spec target s) as (_ & Hi & Hf & _).
  destruct (persist_spec target totalKeys translated (report_failed target s))
    as (He & Hi' & Hf' & _).
  split; [by rewrite Hi', Hi|]. split; [by rewrite Hf', Hf|].
  split; [|split; [|split]].
  - intros buf Hbuf. apply persist_writes. by rewrite Hi.
  - intros buf err Hbuf. unfold cmd.persist. by rewrite Hi, Hbuf.
  - intros Hne. apply (extends_events [] (report_failed target s)); [exact He|].
    unfold cmd.report_failed.
    destruct (0 <? Z.of_nat (length (failedKeys s)))%Z eqn:Hz.
    + unfold emit; simpl. apply elem_of_app; right.
      apply elem_of_cons; right. apply elem_of_app; right. by left.
    + apply Z.ltb_ge in Hz. destruct (failedKeys s); [done|simpl in Hz; lia].
  - intros Hw Hj. unfold cmd.persist. rewrite Hi.
    destruct (JSON (written target (items s))) as [buf [err|]]; [discriminate|].
    by rewrite Hw.
Qed.

(** X15. What both functions write when they return.  The target document
    is serialised with the entries as they are at the end; when this
    succeeds the result is written to the path of the target, whatever was
    recorded as failed, and when it fails its error is returned.  When keys
    were recorded as failed, they are written, one per line, to the file
    "failed_keys_" + base name of the target + ".txt".  A failed key is
    never a reason to return an error: on a file system that accepts every
    write, nil is returned whenever the serialisation succeeds. *)
Theorem what_is_written order source target indep mode batchSize h :
  length_preserving (Lang target) BatchTranslate ->
  (exists out,
     single_process order source target indep mode h = Some out
     /\ (forall buf,
           JSON (written target (items (final out))) = (buf, None) ->
           WriteFile (Path target) buf ∈ events (final out))
     /\ (forall buf err,
           JSON (written target (items (final out))) = (buf, Some err) ->
           ret out = Some err)
     /\ (failedKeys (final out) ≠ [] ->
         WriteFile
           (String.append "failed_keys_"
              (String.append (filepath_Base (Path target)) ".txt"))
           (join_lines (failedKeys (final out)))
         ∈ events (final out))
     /\ ((forall evs name content, os_WriteFile evs name content = None) ->
         (JSON (written target (items (final out)))).2 = None ->
         ret out = None))
  /\ (exists out,
        batch_process order source target indep batchSize mode h = Some out
        /\ (forall buf,
              JSON (written target (items (final out))) = (buf, None) ->
              WriteFile (Path target) buf ∈ events (final out))
        /\ (forall buf err,
              JSON (written target (items (final out))) = (buf, Some err) ->
              ret out = Some err)
        /\ (failedKeys (final out) ≠ [] ->
            WriteFile
              (String.append "failed_keys_"
                 (String.append (filepath_Base (Path target)) ".txt"))
              (join_lines (failedKeys (final out)))
            ∈ events (final out))
        /\ ((forall evs name content, os_WriteFile evs name content = None) ->
            (JSON (written target (items (final out)))).2 = None ->
            ret out = None)).
Proof.
  intros Hlen.
  assert (HK : forall k v, (k, v) ∈ order -> v ≠ "" -> k ∈ order.*1).
  { intros k v Hin _. apply list_elem_of_fmap. by exists (k, v). }
  split.
  - destruct (single_process_spec (order.*1) order source target indep mode h HK)
      as (out & Hout & _).
    exists out. split; [exact Hout|].
    unfold cmd.single_process in Hout.
    destruct (loop _ _ order) as [s'|]; [|discriminate].
    injection Hout as <-.
    match goal with
    | |- context [cmd.persist _ _ _ ?a ?b (report_failed _ ?c)] =>
        destruct (report_then_persist target a b c) as (-> & -> & H)
    end.
    exact H.
  - destruct (batch_process_spec target Hlen (order.*1) order source indep
                batchSize mode h HK) as (out & Hout & _).
    exists out. split; [exact Hout|].
    unfold cmd.batch_process in Hout.
    destruct (loop _ _ order) as [s'|]; [|discriminate].
    destruct (if (0 <? _)%Z then _ else _) as [s1|]; [|discriminate].
    injection Hout as <-.
    match goal with
    | |- context [cmd.persist _ _ _ ?a ?b (report_failed _ ?c)] =>
        destruct (report_then_persist target a b c) as (-> & -> & H)
    end.
    exact H.
Qed.


(** *** The order of the calls and the writes *)

Ltac no_write :=
  unfold emit, set_handler, set_item, set_items, fail_key, incr_translated,
    incr_count, set_batch;
  cbn [events];
  rewrite ?Forall_app; repeat split; first [assumption | repeat constructor].

Lemma translate_array_no_write k lang stringArray :
  forall s,
    Forall (fun e => is_write e = false) (events s) ->
    Forall (fun e => is_write e = false)
      (events (translate_array k lang stringArray s).2).
Proof.
  induction stringArray as [|str rest IH]; intros s Hs;
    cbn [cmd.translate_array]; [exact Hs|].
  destruct (Translate str lang (handler s)) as [[translated err] h1].
  destruct err as [e|]; cbn [snd]; [no_write|].
  destruct (is_blank translated); cbn [snd]; [no_write|].
  specialize (IH (emit [CallTranslate k str lang] (set_handler h1 s))).
  destruct (cmd.translate_array _ _ _ rest _) as [r s2]; cbn [snd] in *.
  apply IH. no_write.
Qed.

Lemma translate_key_no_write k v lang s :
  Forall (fun e => is_write e = false) (events s) ->
  Forall (fun e => is_write e = false) (events (translate_key k v lang s)).
Proof.
  intros Hs. unfold cmd.translate_key.
  assert (Ha : Forall (fun e => is_write e = false)
                 (events (translate_as_array k v lang s).2)).
  { unfold cmd.translate_as_array.
    destruct (_ && _); [|exact Hs].
    destruct (json_Unmarshal v) as [stringArray [err|]]; [exact Hs|].
    pose proof (translate_array_no_write k lang stringArray s Hs) as H.
    destruct (cmd.translate_array _ _ _ _ _) as [r s1]; cbn [snd] in *.
    destruct r as [translatedArray|]; cbn [snd]; [|exact H].
    destruct (json_Marshal translatedArray) as [resultBytes [err|]];
      cbn [snd]; no_write. }
  destruct (cmd.translate_as_array _ _ _ k v lang s) as [[isArr ok1] s1].
  cbn [snd] in Ha.
  assert (Hstr : Forall (fun e => is_write e = false)
                   (events (translate_as_string k v lang s1).2)).
  { unfold cmd.translate_as_string.
    destruct (Translate v lang (handler s1)) as [[result err] h1].
    destruct err as [e|]; cbn [snd]; [no_write|].
    destruct (is_blank result); cbn [snd]; no_write. }
  destruct isArr; cbn [negb].
  - destruct ok1; no_write.
  - destruct (cmd.translate_as_string _ k v lang s1) as [ok2 s2].
    cbn [snd] in Hstr. destruct ok2; no_write.
Qed.

Lemma single_visit_no_write target indep mode missingKeys totalKeys s s' kv :
  Forall (fun e => is_write e = false) (events s) ->
  single_visit target indep mode missingKeys totalKeys s kv = Some s' ->
  Forall (fun e => is_write e = false) (events s').
Proof.
  intros Hs. destruct kv as [k v]. unfold cmd.single_visit.
  destruct (negb (len v =? 0)%Z); [|by intros [= <-]].
  destruct (needToTranslate_single indep mode missingKeys (items s) k)
    as [[b m']|]; [|discriminate].
  intros [= <-]. destruct b.
  - pose proof (translate_key_no_write k v (Lang target) (set_items m' s) Hs).
    no_write.
  - no_write.
Qed.

Lemma sendBatch_no_write target s s' err :
  Forall (fun e => is_write e = false) (events s) ->
  sendBatch target s = Some (s', err) ->
  Forall (fun e => is_write e = false) (events s').
Proof.
  intros Hs. unfold cmd.sendBatch.
  destruct (Z.of_nat (length (batch s)) =? 0)%Z; [by intros [= <- _]|].
  destruct (BatchTranslate (batch s) (Lang target) (handler s))
    as [[results e] h1].
  destruct e as [e|].
  - match goal with
    | |- context [loop ?body ?s0 ?l] =>
        destruct (loop body s0 l) as [s2|] eqn:Hloop; [|discriminate];
        apply (loop_partial
                 (fun st => Forall (fun e => is_write e = false) (events st))
                 body l) in Hloop
    end.
    + by intros [= <- _].
    + intros s0 [i text] s2' H0. cbn [fst snd].
      destruct (keys s0 !! i); [|discriminate]. intros [= <-]. no_write.
    + no_write.
  - match goal with
    | |- context [loop ?body ?s0 ?l] =>
        destruct (loop body s0 l) as [s2|] eqn:Hloop; [|discriminate];
        apply (loop_partial
                 (fun st => Forall (fun e => is_write e = false) (events st))
                 body l) in Hloop
    end.
    + intros [= <- _]. exact Hloop.
    + intros s0 [i result] s2' H0. cbn [fst snd].
      destruct (keys s0 !! i); [|discriminate].
      destruct (is_blank result).
      * destruct (batch s0 !! i); [|discriminate]. intros [= <-]. no_write.
      * intros [= <-]. exact H0.
    + no_write.
Qed.

Lemma batch_visit_no_write target indep batchSize mode missingKeys totalKeys
    s s' kv :
  Forall (fun e => is_write e = false) (events s) ->
  batch_visit target indep batchSize mode missingKeys totalKeys s kv = Some s' ->
  Forall (fun e => is_write e = false) (events s').
Proof.
  intros Hs. destruct kv as [k v]. unfold cmd.batch_visit.
  destruct (negb (len v =? 0)%Z); [|by intros [= <-]].
  destruct (needToTranslate_batch indep mode missingKeys (items s) k v)
    as [[b m']|]; [|discriminate].
  destruct b.
  - destruct (_ >=? _)%Z.
    + match goal with
      | |- context [sendBatch target ?s2] =>
          destruct (sendBatch target s2) as [[s3 err]|] eqn:Hsend;
            [|discriminate];
          apply sendBatch_no_write in Hsend; [|exact Hs]
      end.
      intros [= <-]. no_write.
    + intros [= <-]. no_write.
  - intros [= <-]. no_write.
Qed.

(** The end of both functions adds no call. *)
Lemma report_then_persist_events target totalKeys translated s :
  exists post,
    events (final (persist target totalKeys translated (report_failed target s)))
    = events s ++ post
    /\ Forall (fun e => is_call e = false) post.
Proof.
  assert (Hr : exists post,
             events (report_failed target s) = events s ++ post
             /\ Forall (fun e => is_call e = false) post).
  { unfold cmd.report_failed.
    destruct (0 <? Z.of_nat (length (failedKeys s)))%Z.
    - eexists. split; [reflexivity|].
      destruct (_ <=? 10)%Z; repeat constructor.
    - exists []. split; [by rewrite app_nil_r|constructor]. }
  destruct Hr as (post1 & Hr & Hp1).
  unfold cmd.persist.
  destruct (JSON _) as [buf [err|]]; cbn [final]; [eauto|].
  destruct (os_WriteFile _ _ _); cbn [final]; unfold emit; cbn [events];
    rewrite Hr, <- ?app_assoc; eexists; (split; [reflexivity|]);
    rewrite ?Forall_app; repeat split; first [assumption | repeat constructor].
Qed.

(** X23. Both functions call the client first and call [os.WriteFile] last:
    what a call does splits into a first part, in which [os.WriteFile] is
    not called (only the error log is appended to), and a second part, in
    which the client is not called.  The translations reach the target file
    only when every key has been visited; nothing is saved in between. *)
Theorem calls_precede_writes order source target indep mode batchSize h :
  length_preserving (Lang target) BatchTranslate ->
  (exists out pre post,
     single_process order source target indep mode h = Some out
     /\ events (final out) = pre ++ post
     /\ Forall (fun e => is_write e = false) pre
     /\ Forall (fun e => is_call e = false) post)
  /\ (exists out pre post,
        batch_process order source target indep batchSize mode h = Some out
        /\ events (final out) = pre ++ post
        /\ Forall (fun e => is_write e = false) pre
        /\ Forall (fun e => is_call e = false) post).
Proof.
  intros Hlen.
  assert (HK : forall k v, (k, v) ∈ order -> v ≠ "" -> k ∈ order.*1).
  { intros k v Hin _. apply list_elem_of_fmap. by exists (k, v). }
  assert (Hstart : Forall (fun e => is_write e = false)
                     (events (start source target h))).
  { unfold start; cbn [events].
    match goal with
    | |- context [if ?b then _ else _] => destruct b
    end; repeat constructor. }
  split.
  - destruct (single_process_spec (order.*1) order source target indep mode h HK)
      as (out & Hout & _).
    exists out. pose proof Hout as Hout'. unfold cmd.single_process in Hout'.
    destruct (loop _ _ order) as [s'|] eqn:Hloop; [|discriminate].
    injection Hout' as <-.
    apply (loop_partial
             (fun st => Forall (fun e => is_write e = false) (events st)))
      in Hloop; [|intros s0 kv s1; apply single_visit_no_write|exact Hstart].
    match goal with
    | |- context [cmd.persist _ _ _ ?a ?b (report_failed _ ?c)] =>
        destruct (report_then_persist_events target a b c) as (post & Hev & Hp)
    end.
    exists (events s'), post. auto.
  - destruct (batch_process_spec target Hlen (order.*1) order source indep
                batchSize mode h HK) as (out & Hout & _).
    exists out. pose proof Hout as Hout'. unfold cmd.batch_process in Hout'.
    destruct (loop _ _ order) as [s'|] eqn:Hloop; [|discriminate].
    apply (loop_partial
             (fun st => Forall (fun e => is_write e = false) (events st)))
      in Hloop; [|intros s0 kv s1; apply batch_visit_no_write|exact Hstart].
    assert (exists s1,
              (if (0 <? Z.of_nat (length (batch s')))%Z
               then fst <$> sendBatch target s' else Some s') = Some s1
              /\ Forall (fun e => is_write e = false) (events s1))
      as (s1 & Heq & Hs1).
    { destruct (0 <? _)%Z; [|eauto].
      destruct (sendBatch target s') as [[s1 err]|] eqn:Hsend; [|discriminate].
      apply sendBatch_no_write in Hsend; [|exact Hloop]. simpl. eauto. }
    rewrite Heq in Hout'. injection Hout' as <-.
    match goal with
    | |- context [cmd.persist _ _ _ ?a ?b (report_failed _ ?c)] =>
        destruct (report_then_persist_events target a b c) as (post & Hev & Hp)
    end.
    exists (events s1), post. auto.
Qed.


End Scheduler.




End cmd_facts.

(** ** The scanner *)

Module scanner_facts.

Import scanner scanner.DirectoryStructure.

Local Open Scope list_scope.

(** A loop that appends to a slice, as a concatenation. *)
Lemma foldl_append {A B} (f : A -> list B) (body : list B -> A -> list B) l :
  (forall acc x, body acc x = acc ++ f x) ->
  forall acc, foldl body acc l = acc ++ (l ≫= f).
Proof.
  intros Hbody. induction l as [|x l IH]; intros acc; simpl.
  - by rewrite app_nil_r.
  - by rewrite IH, Hbody, <- app_assoc.
Qed.

Lemma filter_bind {A B} (P : B -> Prop) `{!forall x, Decision (P x)}
    (f : A -> list B) l :
  filter P (l ≫= f) = l ≫= (fun x => filter P (f x)).
Proof.
  induction l as [|x l IH]; [reflexivity|].
  by rewrite !bind_cons, filter_app, IH.
Qed.

Lemma foldl_invariant {A B} (P : A -> Prop) (f : A -> B -> A) l :
  (forall a x, P a -> P (f a x)) -> forall a, P a -> P (foldl f a l).
Proof.
  intros Hf. induction l as [|x l IH]; intros a Ha; simpl; [exact Ha|].
  apply IH, Hf, Ha.
Qed.

Section FileSystem.

Variable os_Stat : string -> os.StatResult.
Variable os_ReadDir : string -> list os.DirEntry * option error.
Variable filepath_Join : string -> string -> string.
Variable range_dirs : gmap string string -> list (string * string).

Abbreviation GetPairs := (scanner.GetPairs os_Stat filepath_Join).
Abbreviation FindMissingPairs := (scanner.FindMissingPairs os_Stat filepath_Join).
Abbreviation pair_of := (scanner.pair_of filepath_Join).
Abbreviation ScanDirectory :=
  (scanner.ScanDirectory os_Stat os_ReadDir filepath_Join range_dirs).

(** The pairs of one language and of one file type. *)
Lemma GetPairs_bind ds :
  (GetPairs ds).1
  = Languages ds ≫= (fun lang =>
      if String.eqb lang (SourceLang ds) then []
      else FileTypes ds ≫= (fun fileType =>
             if os.IsNotExist
                  (os_Stat (filepath_Join (dir_of (LanguageDirs ds) (SourceLang ds))
                              fileType))
             then [] else [pair_of ds lang fileType])).
Proof.
  unfold scanner.GetPairs. cbn [fst].
  match goal with
  | |- _ = _ ≫= ?F => rewrite (foldl_append F); [reflexivity|]
  end.
  intros acc lang. destruct (String.eqb lang (SourceLang ds)).
  { by rewrite app_nil_r. }
  apply foldl_append. intros acc' fileType.
  destruct (os.IsNotExist _); [by rewrite app_nil_r|reflexivity].
Qed.

Lemma FindMissingPairs_bind ds :
  FindMissingPairs ds
  = Languages ds ≫= (fun lang =>
      if String.eqb lang (SourceLang ds) then []
      else FileTypes ds ≫= (fun fileType =>
             if os.IsNotExist
                  (os_Stat (filepath_Join (dir_of (LanguageDirs ds) (SourceLang ds))
                              fileType))
             then []
             else if os.IsNotExist
                       (os_Stat (filepath_Join (dir_of (LanguageDirs ds) lang)
                                   fileType))
                  then [pair_of ds lang fileType] else [])).
Proof.
  unfold scanner.FindMissingPairs.
  match goal with
  | |- _ = _ ≫= ?F => rewrite (foldl_append F); [reflexivity|]
  end.
  intros acc lang. destruct (String.eqb lang (SourceLang ds)).
  { by rewrite app_nil_r. }
  apply foldl_append. intros acc' fileType.
  destruct (os.IsNotExist _); [by rewrite app_nil_r|].
  destruct (os.IsNotExist _); [reflexivity|by rewrite app_nil_r].
Qed.

Lemma elem_of_GetPairs ds p :
  p ∈ (GetPairs ds).1
  <-> exists lang fileType,
        lang ∈ Languages ds /\ lang ≠ SourceLang ds
        /\ fileType ∈ FileTypes ds
        /\ os.IsNotExist (os_Stat (FilePair.SourceFile p)) = false
        /\ p = pair_of ds lang fileType.
Proof.
  rewrite GetPairs_bind, list_elem_of_bind. split.
  - intros (lang & Hp & Hlang).
    destruct (String.eqb_spec lang (SourceLang ds)) as [?|Hne];
      [by apply elem_of_nil in Hp|].
    apply list_elem_of_bind in Hp as (fileType & Hp & Hft).
    destruct (os.IsNotExist _) eqn:Hex; [by apply elem_of_nil in Hp|].
    apply list_elem_of_singleton in Hp as ->.
    exists lang, fileType. auto 10.
  - intros (lang & fileType & Hlang & Hne & Hft & Hex & ->).
    exists lang. split; [|exact Hlang].
    destruct (String.eqb_spec lang (SourceLang ds)) as [?|_]; [done|].
    apply list_elem_of_bind. exists fileType. split; [|exact Hft].
    cbn [scanner.pair_of FilePair.SourceFile] in Hex. rewrite Hex.
    by apply list_elem_of_singleton.
Qed.

(** X16. [GetPairs] never returns an error.  Its pairs are the pairs of a
    language that is not the source language and a file type whose source
    file exists (for which [os.IsNotExist] does not hold), in the order of
    the languages and, for one language, of the file types; so the target
    language of a pair is never its source language, and a pair whose
    source file does not exist is never produced. *)
Theorem GetPairs_pairs ds :
  (GetPairs ds).2 = None
  /\ (forall p,
        p ∈ (GetPairs ds).1
        <-> exists lang fileType,
              lang ∈ Languages ds /\ lang ≠ SourceLang ds
              /\ fileType ∈ FileTypes ds
              /\ os.IsNotExist (os_Stat (FilePair.SourceFile p)) = false
              /\ p = pair_of ds lang fileType)
  /\ (forall p,
        p ∈ (GetPairs ds).1 ->
        FilePair.SourceLang p = SourceLang ds
        /\ FilePair.TargetLang p ≠ FilePair.SourceLang p
        /\ FilePair.TargetLang p ∈ Languages ds
        /\ FilePair.FileType p ∈ FileTypes ds).
Proof.
  split; [reflexivity|]. split; [apply elem_of_GetPairs|].
  intros p Hp.
  apply elem_of_GetPairs in Hp as (lang & fileType & Hl & Hne & Hft & _ & ->).
  simpl. auto.
Qed.

(** X17. The missing pairs are the pairs of [GetPairs] whose target file
    does not exist, in the same order. *)
Theorem FindMissingPairs_are_pairs ds :
  FindMissingPairs ds
  = filter (fun p => os.IsNotExist (os_Stat (FilePair.TargetFile p)) = true)
      (GetPairs ds).1.
Proof.
  rewrite FindMissingPairs_bind, GetPairs_bind, filter_bind.
  apply list_bind_ext; [|reflexivity]. intros lang.
  destruct (String.eqb lang (SourceLang ds)); [reflexivity|].
  rewrite filter_bind. apply list_bind_ext; [|reflexivity]. intros fileType.
  destruct (os.IsNotExist _); [reflexivity|].
  destruct (os.IsNotExist _) eqn:Hex.
  - rewrite filter_cons_True; [reflexivity|exact Hex].
  - rewrite filter_cons_False; [reflexivity|]. simpl. congruence.
Qed.

(** What the three loops of [ScanDirectory] keep. *)
Lemma scan_languages_spec rootDir entries ds :
  let ds' := scanner.scan_languages filepath_Join rootDir entries ds in
  RootDir ds' = RootDir ds /\ SourceLang ds' = SourceLang ds
  /\ FileTypes ds' = FileTypes ds
  /\ ((forall lang, lang ∈ Languages ds <-> is_Some (LanguageDirs ds !! lang)) ->
      forall lang, lang ∈ Languages ds' <-> is_Some (LanguageDirs ds' !! lang))
  /\ ((forall lang dir, LanguageDirs ds !! lang = Some dir ->
                        dir = filepath_Join rootDir lang) ->
      forall lang dir, LanguageDirs ds' !! lang = Some dir ->
                       dir = filepath_Join rootDir lang).
Proof.
  cbv zeta. unfold scanner.scan_languages.
  apply (foldl_invariant
           (fun d =>
              RootDir d = RootDir ds /\ SourceLang d = SourceLang ds
              /\ FileTypes d = FileTypes ds
              /\ ((forall lang, lang ∈ Languages ds
                                <-> is_Some (LanguageDirs ds !! lang)) ->
                  forall lang, lang ∈ Languages d
                               <-> is_Some (LanguageDirs d !! lang))
              /\ ((forall lang dir, LanguageDirs ds !! lang = Some dir ->
                                    dir = filepath_Join rootDir lang) ->
                  forall lang dir, LanguageDirs d !! lang = Some dir ->
                                   dir = filepath_Join rootDir lang))).
  - intros d entry (Hr & Hs & Hf & Hl & Hd).
    destruct (os.IsDir entry); [|auto]. simpl.
    split; [exact Hr|]. split; [exact Hs|]. split; [exact Hf|]. split.
    + intros H0 lang. specialize (Hl H0 lang).
      rewrite elem_of_app, list_elem_of_singleton, Hl.
      destruct (decide (os.Name entry = lang)) as [->|Hne].
      * rewrite lookup_insert_eq. split; eauto.
      * rewrite lookup_insert_ne by done. split; [|auto].
        intros [?|?]; [done|congruence].
    + intros H0 lang dir. specialize (Hd H0 lang dir).
      destruct (decide (os.Name entry = lang)) as [->|Hne].
      * rewrite lookup_insert_eq. congruence.
      * by rewrite lookup_insert_ne.
  - auto.
Qed.

Lemma scan_file_types_spec sourceFiles ds :
  let ds' := scanner.scan_file_types sourceFiles ds in
  RootDir ds' = RootDir ds /\ SourceLang ds' = SourceLang ds
  /\ Languages ds' = Languages ds /\ LanguageDirs ds' = LanguageDirs ds
  /\ ((forall ft, ft ∈ FileTypes ds -> strings.HasSuffix ft ".json" = true) ->
      forall ft, ft ∈ FileTypes ds' -> strings.HasSuffix ft ".json" = true).
Proof.
  cbv zeta. unfold scanner.scan_file_types.
  apply (foldl_invariant
           (fun d =>
              RootDir d = RootDir ds /\ SourceLang d = SourceLang ds
              /\ Languages d = Languages ds /\ LanguageDirs d = LanguageDirs ds
              /\ ((forall ft, ft ∈ FileTypes ds ->
                              strings.HasSuffix ft ".json" = true) ->
                  forall ft, ft ∈ FileTypes d ->
                             strings.HasSuffix ft ".json" = true))).
  - intros d file (Hr & Hs & Hl & Hd & Hf).
    destruct (is_json file) eqn:Hj; [|auto]. simpl.
    split; [exact Hr|]. split; [exact Hs|]. split; [exact Hl|].
    split; [exact Hd|].
    intros H0 ft Hft. apply elem_of_app in Hft as [Hft|Hft]; [by apply Hf|].
    apply list_elem_of_singleton in Hft as ->.
    unfold is_json in Hj. by apply andb_prop in Hj as [_ Hj].
  - auto.
Qed.

Lemma scan_files_spec lang langDir files ds :
  let ds' := scanner.scan_files filepath_Join lang langDir files ds in
  RootDir ds' = RootDir ds /\ SourceLang ds' = SourceLang ds
  /\ Languages ds' = Languages ds /\ LanguageDirs ds' = LanguageDirs ds
  /\ FileTypes ds' = FileTypes ds.
Proof.
  cbv zeta. unfold scanner.scan_files.
  apply (foldl_invariant
           (fun d =>
              RootDir d = RootDir ds /\ SourceLang d = SourceLang ds
              /\ Languages d = Languages ds /\ LanguageDirs d = LanguageDirs ds
              /\ FileTypes d = FileTypes ds)).
  - intros d file H. destruct (is_json file); [simpl|]; exact H.
  - auto.
Qed.

Lemma scan_all_spec dirs :
  forall ds,
    match scanner.scan_all os_ReadDir filepath_Join dirs ds with
    | (Some ds', None) =>
        RootDir ds' = RootDir ds /\ SourceLang ds' = SourceLang ds
        /\ Languages ds' = Languages ds /\ LanguageDirs ds' = LanguageDirs ds
        /\ FileTypes ds' = FileTypes ds
    | (None, Some _) => True
    | _ => False
    end.
Proof.
  induction dirs as [|[lang langDir] dirs IH]; intros ds; simpl; [auto|].
  destruct (os_ReadDir langDir) as [files [err|]]; [done|].
  specialize (IH (scanner.scan_files filepath_Join lang langDir files ds)).
  destruct (scanner.scan_all _ _ dirs _) as [[ds'|] [e|]]; try done.
  destruct (scan_files_spec lang langDir files ds) as (H1 & H2 & H3 & H4 & H5).
  destruct IH as (I1 & I2 & I3 & I4 & I5).
  repeat split; congruence.
Qed.

(** X18. [ScanDirectory] returns a structure or an error, never both and
    never neither.  A structure it returns has the root directory and the
    source language it was given; the source language is one of its
    languages; the languages are the keys of the map of language
    directories, and the directory of a language is the root joined with
    its code; every file type ends in ".json".  So every pair that
    [GetPairs] forms from it has the paths [root/source/file] and
    [root/target/file]. *)
Theorem ScanDirectory_structure rootDir sourceLang :
  match ScanDirectory rootDir sourceLang with
  | (Some ds, None) =>
      os.IsNotExist (os_Stat rootDir) = false
      /\ RootDir ds = rootDir /\ SourceLang ds = sourceLang
      /\ sourceLang ∈ Languages ds
      /\ (forall lang, lang ∈ Languages ds <-> is_Some (LanguageDirs ds !! lang))
      /\ (forall lang, lang ∈ Languages ds ->
                       LanguageDirs ds !! lang = Some (filepath_Join rootDir lang))
      /\ (forall ft, ft ∈ FileTypes ds -> strings.HasSuffix ft ".json" = true)
      /\ (forall p,
            p ∈ (GetPairs ds).1 ->
            FilePair.SourceFile p
            = filepath_Join (filepath_Join rootDir sourceLang) (FilePair.FileType p)
            /\ FilePair.TargetFile p
               = filepath_Join (filepath_Join rootDir (FilePair.TargetLang p))
                   (FilePair.FileType p))
  | (None, Some _) => True
  | _ => False
  end.
Proof.
  unfold scanner.ScanDirectory.
  destruct (os.IsNotExist (os_Stat rootDir)) eqn:Hroot; [done|].
  destruct (os_ReadDir rootDir) as [entries [err|]]; [done|].
  set (ds0 := {| RootDir := rootDir; SourceLang := sourceLang;
                 Languages := []; FileTypes := [];
                 LanguageDirs := ∅; FilesByType := ∅; LanguageFiles := ∅ |}).
  destruct (scan_languages_spec rootDir entries ds0)
    as (Hr1 & Hs1 & Hf1 & Hl1 & Hd1).
  set (ds1 := scanner.scan_languages filepath_Join rootDir entries ds0) in *.
  assert (Hl1' : forall lang, lang ∈ Languages ds1
                              <-> is_Some (LanguageDirs ds1 !! lang)).
  { apply Hl1. intros lang. simpl. rewrite lookup_empty. split.
    - intros H. by apply elem_of_nil in H.
    - intros [? ?]. discriminate. }
  assert (Hd1' : forall lang dir, LanguageDirs ds1 !! lang = Some dir ->
                                  dir = filepath_Join rootDir lang).
  { apply Hd1. intros lang dir. simpl. by rewrite lookup_empty. }
  destruct (LanguageDirs ds1 !! sourceLang) as [sourceDir|] eqn:Hsrc; [|done].
  destruct (os_ReadDir sourceDir) as [sourceFiles [err|]]; [done|].
  destruct (scan_file_types_spec sourceFiles ds1) as (Hr2 & Hs2 & Hl2 & Hd2 & Hf2).
  set (ds2 := scanner.scan_file_types sourceFiles ds1) in *.
  assert (Hf2' : forall ft, ft ∈ FileTypes ds2 ->
                            strings.HasSuffix ft ".json" = true).
  { apply Hf2. intros ft. rewrite Hf1. simpl. intros H. by apply elem_of_nil in H. }
  pose proof (scan_all_spec (range_dirs (LanguageDirs ds2)) ds2) as Hall.
  destruct (scanner.scan_all _ _ _ ds2) as [[ds|] [e|]]; try done.
  destruct Hall as (Hr & Hs & Hl & Hd & Hf).
  assert (HR : RootDir ds = rootDir) by (by rewrite Hr, Hr2, Hr1).
  assert (HS : SourceLang ds = sourceLang) by (by rewrite Hs, Hs2, Hs1).
  assert (HL : forall lang, lang ∈ Languages ds
                            <-> is_Some (LanguageDirs ds !! lang)).
  { intros lang. rewrite Hl, Hd, Hl2, Hd2. apply Hl1'. }
  assert (HD : forall lang, lang ∈ Languages ds ->
                 LanguageDirs ds !! lang = Some (filepath_Join rootDir lang)).
  { intros lang Hin. apply HL in Hin as [dir Hdir]. rewrite Hdir. f_equal.
    apply Hd1'. by rewrite <- Hd2, <- Hd. }
  assert (Hin : sourceLang ∈ Languages ds).
  { apply HL. rewrite Hd, Hd2, Hsrc. eauto. }
  split; [reflexivity|]. split; [exact HR|]. split; [exact HS|].
  split; [exact Hin|]. split; [exact HL|]. split; [exact HD|].
  split; [intros ft; rewrite Hf; apply Hf2'|].
  intros p Hp.
  apply elem_of_GetPairs in Hp as (lang & fileType & Hlang & _ & _ & _ & ->).
  simpl. unfold dir_of. rewrite HS, (HD _ Hin), (HD _ Hlang). auto.
Qed.

End FileSystem.

End scanner_facts.


(** ** The sync and status commands *)

Module sync_facts.

Import cmd sync.

Local Open Scope list_scope.

(** A loop that appends the elements that pass a test, as a filter. *)
Lemma foldl_filter {A} (P : A -> Prop) `{!forall x, Decision (P x)}
    (body : list A -> A -> list A) l :
  (forall acc x, body acc x = if decide (P x) then acc ++ [x] else acc) ->
  forall acc, foldl body acc l = acc ++ filter P l.
Proof.
  intros Hbody. induction l as [|x l IH]; intros acc; simpl.
  - by rewrite app_nil_r.
  - rewrite IH, Hbody, filter_cons.
    destruct (decide (P x)); [by rewrite <- app_assoc|reflexivity].
Qed.

Lemma filter_agree {A} (P Q : A -> Prop) `{!forall x, Decision (P x)}
    `{!forall x, Decision (Q x)} (l : list A) :
  (forall x, x ∈ l -> P x <-> Q x) -> filter P l = filter Q l.
Proof.
  induction l as [|x l IH]; intros Hall; [reflexivity|].
  rewrite !filter_cons.
  assert (Hx : P x <-> Q x) by (apply Hall; by left).
  rewrite IH by (intros y Hy; apply Hall; by right).
  destruct (decide (P x)), (decide (Q x)); tauto || reflexivity.
Qed.

Lemma filter_all {A} (P : A -> Prop) `{!forall x, Decision (P x)} (l : list A) :
  (forall x, x ∈ l -> P x) -> filter P l = l.
Proof.
  induction l as [|x l IH]; intros Hall; [reflexivity|].
  rewrite filter_cons_True by (apply Hall; by left).
  f_equal. apply IH. intros y Hy. apply Hall. by right.
Qed.

Lemma append_if_listed_spec lang TargetLangs acc :
  append_if_listed lang TargetLangs acc
  = if decide (lang ∈ TargetLangs) then acc ++ [lang] else acc.
Proof.
  induction TargetLangs as [|t rest IH]; cbn [append_if_listed].
  - rewrite decide_False; [reflexivity|apply not_elem_of_nil].
  - destruct (String.eqb_spec lang t) as [->|Hne].
    + rewrite decide_True; [reflexivity|by left].
    + rewrite IH. destruct (decide (lang ∈ rest)) as [Hin|Hnin].
      * rewrite decide_True; [reflexivity|by right].
      * rewrite decide_False; [reflexivity|].
        intros Hin. apply elem_of_cons in Hin as [?|?]; done.
Qed.

Lemma append_pair_if_listed_spec pair langs acc :
  append_pair_if_listed pair langs acc
  = if decide (scanner.FilePair.TargetLang pair ∈ langs) then acc ++ [pair]
    else acc.
Proof.
  induction langs as [|t rest IH]; cbn [append_pair_if_listed].
  - rewrite decide_False; [reflexivity|apply not_elem_of_nil].
  - destruct (String.eqb_spec (scanner.FilePair.TargetLang pair) t) as [->|Hne].
    + rewrite decide_True; [reflexivity|by left].
    + rewrite IH.
      destruct (decide (scanner.FilePair.TargetLang pair ∈ rest)) as [Hin|Hnin].
      * rewrite decide_True; [reflexivity|by right].
      * rewrite decide_False; [reflexivity|].
        intros Hin. apply elem_of_cons in Hin as [?|?]; done.
Qed.

Lemma targetLanguages_filter Languages TargetLangs sourceLang :
  targetLanguages Languages TargetLangs sourceLang
  = match TargetLangs with
    | [] => filter (fun lang => lang ≠ sourceLang) Languages
    | _ :: _ => filter (fun lang => lang ∈ TargetLangs) Languages
    end.
Proof.
  unfold targetLanguages. destruct TargetLangs as [|t rest].
  - simpl. rewrite (foldl_filter (fun lang => lang ≠ sourceLang));
      [reflexivity|].
    intros acc lang. destruct (String.eqb_spec lang sourceLang) as [->|Hne]; simpl.
    + by rewrite decide_False by (intros H; by apply H).
    + by rewrite decide_True.
  - change (0 <? Z.of_nat (length (t :: rest)))%Z with true. cbv iota.
    rewrite (foldl_filter (fun lang => lang ∈ t :: rest)); [reflexivity|].
    intros acc lang. apply append_if_listed_spec.
Qed.

Lemma filteredPairs_filter pairs langs :
  filteredPairs pairs langs
  = filter (fun p => scanner.FilePair.TargetLang p ∈ langs) pairs.
Proof.
  unfold filteredPairs.
  rewrite (foldl_filter (fun p => scanner.FilePair.TargetLang p ∈ langs));
    [reflexivity|].
  intros acc pair. apply append_pair_if_listed_spec.
Qed.

(** X19. Which pairs the sync and status commands work on.  The pairs kept
    are, in the order of [GetPairs], those whose target language is listed
    in the configuration; when the configuration lists no target language,
    every pair is kept.  A language listed twice, or the sorting of the
    selected languages that the status command does, changes nothing, and
    no pair is kept twice. *)
Theorem selected_pairs os_Stat filepath_Join ds TargetLangs :
  let pairs := (scanner.GetPairs os_Stat filepath_Join ds).1 in
  let langs :=
    targetLanguages (scanner.DirectoryStructure.Languages ds) TargetLangs
      (scanner.DirectoryStructure.SourceLang ds) in
  filteredPairs pairs langs
  = filter (fun p => TargetLangs = []
                     \/ scanner.FilePair.TargetLang p ∈ TargetLangs) pairs
  /\ (TargetLangs = [] -> filteredPairs pairs langs = pairs)
  /\ (forall langs', langs' ≡ₚ langs ->
                     filteredPairs pairs langs' = filteredPairs pairs langs).
Proof.
  intros pairs langs.
  assert (Hsel : forall p, p ∈ pairs ->
                   scanner.FilePair.TargetLang p ∈ langs
                   <-> TargetLangs = []
                       \/ scanner.FilePair.TargetLang p ∈ TargetLangs).
  { intros p Hp. subst pairs langs.
    apply scanner_facts.elem_of_GetPairs
      in Hp as (lang & fileType & Hl & Hne & _ & _ & ->).
    simpl. rewrite targetLanguages_filter.
    destruct TargetLangs as [|t rest].
    - rewrite list_elem_of_filter. split; [by left|auto].
    - rewrite list_elem_of_filter. split; [intros [? _]; by right|].
      intros [?|?]; [discriminate|auto]. }
  split; [|split].
  - rewrite filteredPairs_filter. by apply filter_agree.
  - intros ->. rewrite filteredPairs_filter. apply filter_all.
    intros p Hp. apply Hsel; [exact Hp|by left].
  - intros langs' Hperm. rewrite !filteredPairs_filter.
    apply filter_agree. intros p _. by rewrite Hperm.
Qed.

(** *** The counters *)

Lemma count_foldl {A} (t : A -> bool) l :
  forall c,
    foldl (fun c x => if t x then (c + 1)%Z else c) c l
    = (c + Z.of_nat (length (filter (fun x => t x = true) l)))%Z.
Proof.
  induction l as [|x l IH]; intros c; simpl; [lia|].
  rewrite IH, filter_cons. destruct (t x).
  - rewrite decide_True by done. simpl length. lia.
  - rewrite decide_False by done. reflexivity.
Qed.

Lemma length_filter_map (P : string * string -> Prop)
    `{!forall x, Decision (P x)} (m : gmap string string) order :
  ranges_over m order ->
  length (filter P order) = size (filter P m).
Proof.
  unfold ranges_over. intros ->.
  rewrite map_filter_alt, map_size_list_to_map; [reflexivity|].
  apply (sublist_NoDup _ ((map_to_list m).*1)).
  - apply NoDup_fst_map_to_list.
  - apply fmap_sublist, sublist_filter.
Qed.

(** The keys of the source fall into three classes: missing from the
    target, with an empty value in the target, and translated. *)
Lemma source_keys_split (source target : gmap string string) :
  size source
  = (size (findMissingKeys source target)
     + size (filter (fun kv => empty_in source kv = true) target)
     + size (filter (fun kv => translated_in target kv = true) source))%nat.
Proof.
  set (E := filter (fun kv => empty_in source kv = true) target).
  set (T := filter (fun kv => translated_in target kv = true) source).
  rewrite <- (size_dom (D:=gset string) E), <- (size_dom (D:=gset string) T),
    <- (size_dom (D:=gset string) source).
  assert (HE : forall k, k ∈ dom E
                 <-> is_Some (source !! k) /\ target !! k = Some "").
  { intros k. subst E. rewrite elem_of_dom. unfold is_Some.
    setoid_rewrite map_lookup_filter_Some. unfold empty_in. simpl. split.
    - intros (v & Hv & Ht). destruct (source !! k) as [sv|]; [|discriminate].
      apply String.eqb_eq in Ht as ->. eauto.
    - intros ([sv Hs] & Ht). exists "". split; [exact Ht|]. by rewrite Hs. }
  assert (HT : forall k, k ∈ dom T
                 <-> is_Some (source !! k)
                     /\ exists v, target !! k = Some v /\ v ≠ "").
  { intros k. subst T. rewrite elem_of_dom. unfold is_Some.
    setoid_rewrite map_lookup_filter_Some. unfold translated_in. simpl. split.
    - intros (sv & Hs & Ht). split; [eauto|].
      destruct (target !! k) as [v|]; [|discriminate].
      exists v. split; [reflexivity|].
      apply negb_true_iff, String.eqb_neq in Ht. exact Ht.
    - intros ([sv Hs] & v & Ht & Hne). exists sv. split; [exact Hs|].
      rewrite Ht. by apply negb_true_iff, String.eqb_neq. }
  assert (HM : forall k, k ∈ findMissingKeys source target
                 <-> is_Some (source !! k) /\ target !! k = None)
    by apply cmd_facts.elem_of_findMissingKeys.
  rewrite <- !size_union.
  - f_equal. apply leibniz_equiv. intros k.
    rewrite !elem_of_union, HM, HE, HT, elem_of_dom.
    destruct (target !! k) as [v|] eqn:Ht.
    + split; [|intros [[[? _]|[? _]]|[? _]]; done].
      intros Hs. destruct (decide (v = "")) as [->|Hne].
      * left. right. auto.
      * right. split; [exact Hs|]. eauto.
    + split; [|intros [[[? _]|[? _]]|[? _]]; done].
      intros Hs. left. left. auto.
  - intros k Hk1 Hk2. apply elem_of_union in Hk1 as [Hk1|Hk1].
    + apply HM in Hk1 as [_ Hk1]. apply HT in Hk2 as (_ & v & Hv & _). congruence.
    + apply HE in Hk1 as [_ Hk1]. apply HT in Hk2 as (_ & v & Hv & Hne). congruence.
  - intros k Hk1 Hk2.
    apply HM in Hk1 as [_ Hk1]. apply HE in Hk2 as [_ Hk2]. congruence.
Qed.

(** X20. The status command and the sync command count the same.  The
    number the status command reports as translated (the keys of the
    source, less the missing keys, less the keys whose value in the target
    is empty) is the number [countTranslatedKeys] gives: the keys of the
    source whose value in the target is not empty.  It does not depend on
    the order in which the maps are ranged over, and lies between zero and
    the number of keys of the source. *)
Theorem status_agrees_with_sync (source target : gmap string string)
    source_order target_order :
  ranges_over source source_order ->
  ranges_over target target_order ->
  countTranslatedKeys_loop source_order target
  = countTranslatedKeys source target
  /\ Translated (file_stats target_order source target)
     = countTranslatedKeys source target
  /\ (0 <= countTranslatedKeys source target <= Z.of_nat (size source))%Z
  /\ (0 <= EmptyCount (file_stats target_order source target))%Z.
Proof.
  intros Hs Ht.
  assert (Hc : forall order, ranges_over source order ->
                 countTranslatedKeys_loop order target
                 = Z.of_nat
                     (size (filter (fun kv => translated_in target kv = true)
                              source))).
  { intros order Ho. unfold countTranslatedKeys_loop.
    rewrite count_foldl, (length_filter_map _ source order Ho). lia. }
  assert (He : emptyCount_loop target_order source
               = Z.of_nat
                   (size (filter (fun kv => empty_in source kv = true) target))).
  { unfold emptyCount_loop.
    rewrite count_foldl, (length_filter_map _ target target_order Ht). lia. }
  assert (Hc0 : countTranslatedKeys source target
                = Z.of_nat
                    (size (filter (fun kv => translated_in target kv = true)
                             source))).
  { apply Hc. unfold ranges_over. reflexivity. }
  pose proof (source_keys_split source target) as Hsplit.
  split; [by rewrite Hc0, (Hc _ Hs)|].
  unfold file_stats; simpl. rewrite He, Hc0.
  split; [lia|]. split; lia.
Qed.

End sync_facts.


(** ** The configuration *)

Module config_facts.

Import config.

Local Open Scope list_scope.

(** What the three assignments of [LoadConfig] do. *)
Lemma set_defaults_spec c :
  SourceLang (set_defaults c)
  = (if String.eqb (SourceLang c) "" then "en" else SourceLang c)
  /\ Mode (set_defaults c)
     = (if String.eqb (Mode c) "" then "missing" else Mode c)
  /\ IncludeFiles (set_defaults c)
     = match IncludeFiles c with
       | [] => ["*.json"]
       | _ :: _ => IncludeFiles c
       end
  /\ TargetLangs (set_defaults c) = TargetLangs c
  /\ ExcludeFiles (set_defaults c) = ExcludeFiles c
  /\ APIKey (set_defaults c) = APIKey c
  /\ BatchSize (set_defaults c) = BatchSize c.
Proof.
  unfold set_defaults. destruct c as [s t i e a b m]. simpl.
  destruct (String.eqb s ""); simpl;
    destruct (String.eqb m ""); simpl;
    destruct i; simpl; auto 10.
Qed.

Lemma set_defaults_filled c :
  SourceLang c ≠ "" -> Mode c ≠ "" -> IncludeFiles c ≠ [] ->
  set_defaults c = c.
Proof.
  intros Hs Hm Hi. unfold set_defaults.
  apply String.eqb_neq in Hs, Hm. rewrite Hs, Hm.
  destruct c as [s t i e a b m]. simpl in *.
  destruct i; [done|reflexivity].
Qed.

Section Files.

Variable FS : Type.
Variable os_Stat : FS -> string -> os.StatResult.
Variable os_ReadFile : FS -> string -> string * option error.
Variable os_WriteFile : FS -> string -> string -> FS * option error.
Variable json_Unmarshal : string -> Config * option error.
Variable json_MarshalIndent : Config -> string * option error.

Abbreviation LoadConfig := (config.LoadConfig FS os_Stat os_ReadFile json_Unmarshal).
Abbreviation SaveConfig := (config.SaveConfig FS os_WriteFile json_MarshalIndent).
Abbreviation CreateDefaultConfig :=
  (config.CreateDefaultConfig FS os_Stat os_WriteFile json_MarshalIndent).

(** X21. [LoadConfig] returns a configuration or an error, never both and
    never neither.  A configuration it returns is the decoded content of
    the file with the defaults filled in: the source language, the mode and
    the list of included files are never empty (an empty source language
    becomes "en", an empty mode "missing" and an empty list of included
    files ["*.json"]; any other value is kept), and the target languages,
    the excluded files, the key and the batch size are as decoded; the
    batch size has no default, unlike in [DefaultConfig].  Loading fills in
    nothing more when done again. *)
Theorem LoadConfig_fills_defaults fs path :
  match LoadConfig fs path with
  | (Some c, None) =>
      os.IsNotExist (os_Stat fs path) = false
      /\ SourceLang c ≠ "" /\ Mode c ≠ "" /\ IncludeFiles c ≠ []
      /\ set_defaults c = c
      /\ exists data c0,
           os_ReadFile fs path = (data, None)
           /\ json_Unmarshal data = (c0, None)
           /\ (SourceLang c0 ≠ "" -> SourceLang c = SourceLang c0)
           /\ (Mode c0 ≠ "" -> Mode c = Mode c0)
           /\ (IncludeFiles c0 ≠ [] -> IncludeFiles c = IncludeFiles c0)
           /\ TargetLangs c = TargetLangs c0
           /\ ExcludeFiles c = ExcludeFiles c0
           /\ APIKey c = APIKey c0
           /\ BatchSize c = BatchSize c0
           /\ (SourceLang c0 = "" -> SourceLang c = "en")
           /\ (Mode c0 = "" -> Mode c = "missing")
           /\ (IncludeFiles c0 = [] -> IncludeFiles c = ["*.json"])
  | (None, Some _) => True
  | _ => False
  end.
Proof.
  unfold config.LoadConfig.
  destruct (os.IsNotExist (os_Stat fs path)); [done|].
  destruct (os_ReadFile fs path) as [data [err|]] eqn:Hread; [done|].
  destruct (json_Unmarshal data) as [c0 [err|]] eqn:Hdec; [done|].
  destruct (set_defaults_spec c0) as (Hs & Hm & Hi & Ht & He & Ha & Hb).
  assert (H1 : SourceLang (set_defaults c0) ≠ "").
  { rewrite Hs. destruct (String.eqb_spec (SourceLang c0) ""); done. }
  assert (H2 : Mode (set_defaults c0) ≠ "").
  { rewrite Hm. destruct (String.eqb_spec (Mode c0) ""); done. }
  assert (H3 : IncludeFiles (set_defaults c0) ≠ []).
  { rewrite Hi. destruct (IncludeFiles c0); done. }
  split; [reflexivity|]. split; [exact H1|]. split; [exact H2|].
  split; [exact H3|]. split; [by apply set_defaults_filled|].
  exists data, c0. split; [reflexivity|]. split; [exact Hdec|].
  split.
  { intros Hne. rewrite Hs. apply String.eqb_neq in Hne. by rewrite Hne. }
  split.
  { intros Hne. rewrite Hm. apply String.eqb_neq in Hne. by rewrite Hne. }
  split.
  { intros Hne. rewrite Hi. by destruct (IncludeFiles c0). }
  repeat (split; [assumption|]).
  split; [intros Hempty; rewrite Hs, Hempty; reflexivity|].
  split; [intros Hempty; rewrite Hm, Hempty; reflexivity|].
  intros Hempty. rewrite Hi, Hempty. reflexivity.
Qed.

(** The files behave: a file that was written exists and reads as it was
    written; and a configuration that was encoded decodes to itself. *)
Hypothesis written_file_reads :
  forall fs path data fs',
    os_WriteFile fs path data = (fs', None) ->
    os.IsNotExist (os_Stat fs' path) = false
    /\ os_ReadFile fs' path = (data, None).

(** X22. Saving, then loading.  On files that behave, a configuration that
    was saved without error and encodes to a text that decodes to it is
    loaded back with the defaults filled in.  [CreateDefaultConfig] leaves
    the files as they are, and returns nil, when the path exists ([os.Stat]
    returns no error); otherwise what it saves is loaded back as the
    default configuration, batch size 5 and mode "missing" included. *)
Theorem saved_config_loads_back fs path c :
  (forall data, json_MarshalIndent c = (data, None) ->
                json_Unmarshal data = (c, None)) ->
  (forall data, json_MarshalIndent DefaultConfig = (data, None) ->
                json_Unmarshal data = (DefaultConfig, None)) ->
  (forall fs',
     SaveConfig fs c path = (fs', None) ->
     LoadConfig fs' path = (Some (set_defaults c), None))
  /\ (os_Stat fs path = os.StatOk ->
      CreateDefaultConfig fs path = (fs, None))
  /\ (forall fs',
        os_Stat fs path ≠ os.StatOk ->
        CreateDefaultConfig fs path = (fs', None) ->
        LoadConfig fs' path = (Some DefaultConfig, None)).
Proof.
  intros Hc Hd.
  assert (Hsave : forall c0 fs',
             (forall data, json_MarshalIndent c0 = (data, None) ->
                           json_Unmarshal data = (c0, None)) ->
             SaveConfig fs c0 path = (fs', None) ->
             LoadConfig fs' path = (Some (set_defaults c0), None)).
  { intros c0 fs' Hc0. unfold config.SaveConfig, config.LoadConfig.
    destruct (json_MarshalIndent c0) as [data [err|]] eqn:Hm; [discriminate|].
    intros Hw. destruct (written_file_reads _ _ _ _ Hw) as [-> ->].
    by rewrite (Hc0 data eq_refl). }
  split; [intros fs'; by apply Hsave|]. split.
  - intros Hs. unfold config.CreateDefaultConfig. by rewrite Hs.
  - intros fs' Hs Hcreate.
    assert (Hsaved : SaveConfig fs DefaultConfig path = (fs', None)).
    { unfold config.CreateDefaultConfig in Hcreate.
      destruct (os_Stat fs path); [done|exact Hcreate|exact Hcreate]. }
    rewrite (Hsave _ _ Hd Hsaved). reflexivity.
Qed.

End Files.

End config_facts.


(** ** The claims on concrete documents *)

Module instances.

Import cmd doubles.

Local Open Scope list_scope.

Lemma mock_length_preserving translations :
  length_preserving "French" (mockBatchTranslate "French" translations).
Proof. intros texts h _. simpl. apply List.length_map. Qed.

Lemma mock_deterministic translations :
  deterministic "French" (mockAnswer translations)
    (mockTranslate "French" translations)
    (mockBatchTranslate "French" translations).
Proof.
  split.
  - intros text h. unfold mockTranslate, mockAnswer. simpl.
    by destruct (translations !! text).
  - intros texts h. reflexivity.
Qed.

(** C1, on the code: batch size 1, two missing keys, the first call of the
    client fails.  The failed batch is not cleared: the second call carries
    the key [a] again, and [a], though recorded as failed, receives a
    translation. *)
Lemma failed_batch_is_sent_again :
  exists out,
    batch_process failFirstBatch EqualFold filepath_Base os_WriteFile JSON
      [("a", "Hello"); ("b", "Goodbye")]
      (english {[ "a" := "Hello"; "b" := "Goodbye" ]}) (french ∅)
      None 1 "missing" 0%nat = Some out
    /\ client_calls (events (final out))
       = [ CallBatchTranslate ["a"] ["Hello"] "French";
           CallBatchTranslate ["a"; "b"] ["Hello"; "Goodbye"] "French" ]
    /\ failedKeys (final out) = ["a"]
    /\ items (final out) !! "a" = Some "TRANSLATED:Hello".
Proof. eexists. split; [vm_compute; reflexivity|]. by vm_compute. Qed.

(** C2 as stated fails: a key of the source with the empty value and no
    entry in the target has an entry after the call, in the map that is
    handed to the serialiser. *)
Lemma empty_source_key_gets_entry :
  exists out,
    single [("a", "")] (english {[ "a" := "" ]}) (french ∅) None "full"
    = Some out
    /\ LocaleItemsMap (english {[ "a" := "" ]}) !! "a" = Some ""
    /\ LocaleItemsMap (french ∅) !! "a" = None
    /\ items (final out) !! "a" = Some ""
    /\ LocaleItemsMap (written (french ∅) (items (final out))) !! "a"
       = Some "".
Proof.
  eexists. split; [vm_compute; reflexivity|]. by vm_compute.
Qed.

(** C3, on the code: a missing key with a source value, an override
    document that does not hold the key.  The client is not called in
    either mode, under either strategy; the key ends with the empty
    string. *)
Lemma override_blocks_missing_key :
  let source := english {[ "a" := "Hello" ]} in
  let quiet (r : option (outcome unit)) :=
    exists out,
      r = Some out
      /\ client_calls (events (final out)) = []
      /\ items (final out) !! "a" = Some "" in
  quiet (single [("a", "Hello")] source (french ∅) (Some (french ∅)) "full")
  /\ quiet (single [("a", "Hello")] source (french ∅) (Some (french ∅)) "missing")
  /\ quiet (batched [("a", "Hello")] source (french ∅) (Some (french ∅)) 1 "full")
  /\ quiet (batched [("a", "Hello")] source (french ∅) (Some (french ∅)) 1
              "missing").
Proof.
  repeat split; eexists; (split; [vm_compute; reflexivity|by vm_compute]).
Qed.

(** C4 as stated fails: for a source value that is a JSON array, under the
    same deterministic translator, both strategies translate the key
    without failure and leave different values. *)
Lemma strategies_differ_on_arrays :
  let array := String "[" (String quote (String "x" (String quote "]"))) in
  let source := english {[ "a" := array ]} in
  exists out1 out2,
    single [("a", array)] source (french ∅) None "full" = Some out1
    /\ batched [("a", array)] source (french ∅) None 1 "full" = Some out2
    /\ "a" ∈ keys_called (events (final out1))
    /\ "a" ∈ keys_called (events (final out2))
    /\ failedKeys (final out1) = []
    /\ failedKeys (final out2) = []
    /\ items (final out1) !! "a" ≠ items (final out2) !! "a".
Proof.
  eexists _, _. split; [vm_compute; reflexivity|].
  split; [vm_compute; reflexivity|].
  split; [vm_compute; by left|]. split; [vm_compute; by left|].
  split; [reflexivity|]. split; [reflexivity|]. by vm_compute.
Qed.

(** C9 as stated fails: two calls with different counts return the same
    value; the counts are in what they print. *)
Lemma summary_is_not_returned :
  exists out1 out2,
    single [("a", "Hello")] (english {[ "a" := "Hello" ]}) (french ∅) None
      "missing" = Some out1
    /\ single [("a", "Hello"); ("b", "Goodbye")]
         (english {[ "a" := "Hello"; "b" := "Goodbye" ]}) (french ∅) None
         "missing" = Some out2
    /\ ret out1 = ret out2
    /\ last (events (final out1))
       = Some (Print (MsgDone "fr-FR.json" 1 1 1 0))
    /\ last (events (final out2))
       = Some (Print (MsgDone "fr-FR.json" 2 2 2 0)).
Proof.
  eexists _, _. split; [vm_compute; reflexivity|].
  split; [vm_compute; reflexivity|]. by vm_compute.
Qed.

(** *** The scenarios of the specification *)

(** Scenario A: two missing keys in missing mode. *)
Example scenario_A :
  exists out,
    single [("a", "Hello"); ("b", "Goodbye")]
      (english {[ "a" := "Hello"; "b" := "Goodbye" ]}) (french ∅) None
      "missing" = Some out
    /\ items (final out)
       = {[ "a" := "TRANSLATED:Hello"; "b" := "TRANSLATED:Goodbye" ]}
    /\ failedKeys (final out) = [].
Proof. eexists. split; [vm_compute; reflexivity|]. by vm_compute. Qed.

(** Scenario B: a value marked for retranslation, in full mode. *)
Example scenario_B :
  exists out,
    single [("a", "Hello")] (english {[ "a" := "Hello" ]})
      (french {[ "a" := "!Bonjour" ]}) None "full" = Some out
    /\ client_calls (events (final out)) = [CallTranslate "a" "Hello" "French"]
    /\ items (final out) !! "a" = Some "TRANSLATED:Hello".
Proof. eexists. split; [vm_compute; reflexivity|]. by vm_compute. Qed.

(** Scenario C: batch size 2, three missing keys, an empty element in the
    second flush. *)
Example scenario_C :
  exists out,
    batch_process (mockBatchTranslate "French" {[ "Sea" := "" ]}) EqualFold
      filepath_Base os_WriteFile JSON
      [("a", "Hello"); ("b", "Goodbye"); ("c", "Sea")]
      (english {[ "a" := "Hello"; "b" := "Goodbye"; "c" := "Sea" ]})
      (french ∅) None 2 "missing" tt = Some out
    /\ client_calls (events (final out))
       = [ CallBatchTranslate ["a"; "b"] ["Hello"; "Goodbye"] "French";
           CallBatchTranslate ["c"] ["Sea"] "French" ]
    /\ failedKeys (final out) = ["c"]
    /\ items (final out)
       = {[ "a" := "TRANSLATED:Hello"; "b" := "TRANSLATED:Goodbye"; "c" := "" ]}
    /\ ret out = None.
Proof. eexists. split; [vm_compute; reflexivity|]. by vm_compute. Qed.

(** *** Instances of the theorems *)

Lemma override_wins_witness :
  let source := english {[ "greeting" := "Hello" ]} in
  let target := french {[ "greeting" := "Bonjour" ]} in
  let ov := french {[ "greeting" := "Custom Greeting" ]} in
  ranges_over (LocaleItemsMap source) [("greeting", "Hello")]
  /\ exists out,
       single [("greeting", "Hello")] source target (Some ov) "full" = Some out
       /\ items (final out) !! "greeting" = Some "Custom Greeting"
       /\ client_calls (events (final out)) = [].
Proof.
  intros source target ov.
  assert (H : ranges_over (LocaleItemsMap source) [("greeting", "Hello")])
    by (vm_compute; reflexivity).
  split; [exact H|].
  destruct (cmd_facts.override_wins (mockTranslate "French" ∅)
              (mockBatchTranslate "French" ∅) EqualFold json_Unmarshal
              json_Marshal filepath_Base os_WriteFile JSON
              [("greeting", "Hello")] source target ov "full" 2 tt
              "greeting" "Hello" "Custom Greeting" H)
    as [(out & Hout & Hi & Hc & _) _];
    [reflexivity|discriminate|by eexists|reflexivity|].
  exists out. split; [exact Hout|]. split; [exact Hi|exact Hc].
Defined.

Lemma missing_mode_idempotent_witness :
  let source := english {[ "a" := "Hello"; "b" := "Goodbye" ]} in
  let order := [("a", "Hello"); ("b", "Goodbye")] in
  exists out1,
    single order source (french ∅) None "missing" = Some out1
    /\ ranges_over (LocaleItemsMap source) order
    /\ exists out2,
         batched order source (written (french ∅) (items (final out1))) None 2
           "missing" = Some out2
         /\ client_calls (events (final out2)) = [].
Proof.
  intros source order.
  destruct (single order source (french ∅) None "missing") as [out1|] eqn:H1;
    [|by vm_compute in H1].
  assert (H : ranges_over (LocaleItemsMap source) order)
    by (vm_compute; reflexivity).
  exists out1. split; [reflexivity|]. split; [exact H|].
  exact (proj2 (cmd_facts.missing_mode_idempotent (mockTranslate "French" ∅)
                  (mockBatchTranslate "French" ∅) EqualFold json_Unmarshal
                  json_Marshal filepath_Base os_WriteFile JSON
                  order order source (french ∅) None None 2 2 tt tt out1
                  (or_introl H1) H)).
Defined.

Lemma empty_source_value_witness :
  let source := english {[ "a" := ""; "b" := "Goodbye" ]} in
  let target := french {[ "a" := "kept" ]} in
  let order := [("a", ""); ("b", "Goodbye")] in
  length_preserving (Lang target) (mockBatchTranslate "French" ∅)
  /\ ranges_over (LocaleItemsMap source) order
  /\ LocaleItemsMap source !! "a" = Some ""
  /\ exists out,
       batched order source target None 2 "full" = Some out
       /\ ("a" ∉ keys_called (events (final out)))
       /\ items (final out) !! "a" = Some "kept".
Proof.
  intros source target order.
  assert (H : ranges_over (LocaleItemsMap source) order)
    by (vm_compute; reflexivity).
  split; [apply mock_length_preserving|]. split; [exact H|].
  split; [reflexivity|].
  destruct (cmd_facts.empty_source_value (mockTranslate "French" ∅)
              (mockBatchTranslate "French" ∅) EqualFold json_Unmarshal
              json_Marshal filepath_Base os_WriteFile JSON
              order source target None "full" 2 tt "a"
              (mock_length_preserving ∅) H eq_refl)
    as [_ (out & Hout & Hc & Hi)].
  exists out. split; [exact Hout|]. split; [exact Hc|].
  apply Hi. reflexivity.
Defined.

Lemma strategies_agree_witness :
  let source := english {[ "a" := "Hello"; "b" := "Goodbye" ]} in
  let order1 := [("a", "Hello"); ("b", "Goodbye")] in
  let order2 := [("b", "Goodbye"); ("a", "Hello")] in
  deterministic (Lang (french ∅)) (mockAnswer ∅) (mockTranslate "French" ∅)
    (mockBatchTranslate "French" ∅)
  /\ ranges_over (LocaleItemsMap source) order1
  /\ ranges_over (LocaleItemsMap source) order2
  /\ LocaleItemsMap source !! "a" = Some "Hello"
  /\ array_value json_Unmarshal "Hello" = false
  /\ exists out1 out2,
       single order1 source (french ∅) None "missing" = Some out1
       /\ batched order2 source (french ∅) None 2 "missing" = Some out2
       /\ items (final out1) !! "a" = items (final out2) !! "a"
       /\ items (final out2) !! "a" = Some "TRANSLATED:Hello".
Proof.
  intros source order1 order2.
  assert (H1 : ranges_over (LocaleItemsMap source) order1)
    by (vm_compute; reflexivity).
  assert (H2 : ranges_over (LocaleItemsMap source) order2).
  { unfold ranges_over. vm_compute. apply perm_swap. }
  split; [apply mock_deterministic|]. split; [exact H1|]. split; [exact H2|].
  split; [reflexivity|]. split; [reflexivity|].
  destruct (cmd_facts.strategies_agree (mockTranslate "French" ∅)
              (mockBatchTranslate "French" ∅) EqualFold json_Unmarshal
              json_Marshal filepath_Base os_WriteFile JSON
              (french ∅) (mockAnswer ∅) (mock_deterministic ∅)
              order1 order2 source None "missing" 2 tt tt "a" "Hello"
              H1 H2 eq_refl eq_refl)
    as (out1 & out2 & Ho1 & Ho2 & Hsame).
  exists out1, out2. split; [exact Ho1|]. split; [exact Ho2|].
  apply Hsame.
  - unfold single in Ho1. vm_compute in Ho1. injection Ho1 as <-.
    vm_compute. by left.
  - unfold single in Ho1. vm_compute in Ho1. injection Ho1 as <-.
    vm_compute. apply not_elem_of_nil.
  - unfold batched in Ho2. vm_compute in Ho2. injection Ho2 as <-.
    vm_compute. apply list_elem_of_In. simpl. tauto.
  - unfold batched in Ho2. vm_compute in Ho2. injection Ho2 as <-.
    vm_compute. apply not_elem_of_nil.
Defined.

(** The client on a service whose first answer is blank: the second answer
    is returned, after two calls. *)
Example Translate_retries_blank :
  exists h' w',
    gpt.Translate (blankFirst "Bonjour") "Hello" "French" (gpt.New ["key"]) []
    = Some (("Bonjour", None), h', w')
    /\ length (gpt.calls w') = 2%nat.
Proof. eexists _, _. split; [vm_compute; reflexivity|reflexivity]. Qed.

(** The client on an answer with an empty element: the list is returned as
    it is, after one call. *)
Example BatchTranslate_keeps_blank :
  exists h' w',
    gpt.BatchTranslate (always two_translations) json_Marshal
      json_Unmarshal_result json_Unmarshal ["Hello"; "Bye"] "French"
      (gpt.New ["key"]) []
    = Some ((["Bonjour"; ""], None), h', w')
    /\ length (gpt.calls w') = 1%nat.
Proof. eexists _, _. split; [vm_compute; reflexivity|reflexivity]. Qed.

Lemma Translate_three_attempts_witness :
  let h := gpt.New ["key"] in
  (gpt.index h < gpt.clients h)%nat
  /\ exists res h' w',
       gpt.Translate (blankFirst "Bonjour") "Hello" "French" h []
       = Some (res, h', w')
       /\ (length (gpt.calls w') <= 3)%nat.
Proof.
  intros h.
  assert (H : (gpt.index h < gpt.clients h)%nat) by (vm_compute; lia).
  split; [exact H|].
  destruct (gpt_facts.Translate_three_attempts (blankFirst "Bonjour")
              "Hello" "French" h [] H) as (res & h' & w' & Heq & Hle & _).
  exists res, h', w'. split; [exact Heq|exact Hle].
Defined.

Lemma BatchTranslate_same_length_witness :
  let h := gpt.New ["key"] in
  (gpt.index h < gpt.clients h)%nat
  /\ exists res h' w',
       gpt.BatchTranslate (always two_translations) json_Marshal
         json_Unmarshal_result json_Unmarshal ["Hello"; "Bye"] "French" h []
       = Some (res, h', w')
       /\ (res.2 = None -> length res.1 = 2%nat).
Proof.
  intros h.
  assert (H : (gpt.index h < gpt.clients h)%nat) by (vm_compute; lia).
  split; [exact H|].
  destruct (gpt_facts.BatchTranslate_same_length (always two_translations)
              json_Marshal json_Unmarshal_result json_Unmarshal
              ["Hello"; "Bye"] "French" h [] H)
    as [(res & h' & w' & Heq & _ & Hlen) _].
  exists res, h', w'. split; [exact Heq|exact Hlen].
Defined.

(** *** The client: rotation, waiting and the text cut out *)

Lemma clients_take_turns_witness :
  let h := gpt.New ["key1"; "key2"] in
  (gpt.index h < gpt.clients h)%nat
  /\ exists res h' d n,
       gpt.Translate (blankFirst "Bonjour") "Hello" "French" h []
       = Some (res, h', ([] ++ d)%list)
       /\ (1 <= n <= 3)%nat
       /\ gpt.index h' = ((gpt.index h + n) mod gpt.clients h)%nat.
Proof.
  intros h.
  assert (H : (gpt.index h < gpt.clients h)%nat) by (vm_compute; lia).
  split; [exact H|].
  destruct (gpt_facts.clients_take_turns (blankFirst "Bonjour") json_Marshal
              json_Unmarshal_result json_Unmarshal "Hello" ["Hello"; "Bye"]
              "French" h [] H)
    as [(res & h' & d & n & Heq & Hn & _ & _ & Hi) _].
  exists res, h', d, n. split; [exact Heq|]. split; [exact Hn|exact Hi].
Defined.

Lemma waiting_time_is_bounded_witness :
  let h := gpt.New ["key"] in
  (gpt.index h < gpt.clients h)%nat
  /\ exists res h' d,
       gpt.BatchTranslate (always two_translations) json_Marshal
         json_Unmarshal_result json_Unmarshal ["Hello"; "Bye"] "French" h []
       = Some (res, h', ([] ++ d)%list)
       /\ (0 <= gpt.slept d <= 9)%Z.
Proof.
  intros h.
  assert (H : (gpt.index h < gpt.clients h)%nat) by (vm_compute; lia).
  split; [exact H|].
  exact (proj2 (gpt_facts.waiting_time_is_bounded (always two_translations)
                  json_Marshal json_Unmarshal_result json_Unmarshal
                  "Hello" ["Hello"; "Bye"] "French" h [] H)).
Defined.

Lemma Translate_success_is_not_blank_witness :
  let h := gpt.New ["key"] in
  (gpt.index h < gpt.clients h)%nat
  /\ exists res h' w',
       gpt.Translate (blankFirst "Bonjour") "Hello" "French" h []
       = Some (res, h', w')
       /\ (res.2 = None -> res.1 <> "" /\ res.1 <> " ").
Proof.
  intros h.
  assert (H : (gpt.index h < gpt.clients h)%nat) by (vm_compute; lia).
  split; [exact H|].
  destruct (gpt_facts.Translate_success_is_not_blank (blankFirst "Bonjour")
              "Hello" "French" h [] H) as (res & h' & w' & Heq & Hres).
  exists res, h', w'. split; [exact Heq|].
  intros Hn. destruct (Hres Hn) as (H1 & H2 & _). split; assumption.
Defined.

Lemma extracted_json_is_in_bounds_witness :
  let content := "Here it is: {}, as asked." in
  ((0 <=? strings.IndexByte content "{")
   && (strings.IndexByte content "{" <? strings.LastIndexByte content "}"))%Z
  = true
  /\ strings.slice content (strings.IndexByte content "{")
       (strings.LastIndexByte content "}" + 1) = "{}"
  /\ strings.HasPrefix
       (strings.slice content (strings.IndexByte content "{")
          (strings.LastIndexByte content "}" + 1)) "{" = true.
Proof.
  intros content.
  assert (H : ((0 <=? strings.IndexByte content "{")
               && (strings.IndexByte content "{"
                   <? strings.LastIndexByte content "}"))%Z = true)
    by (vm_compute; reflexivity).
  split; [exact H|]. split; [vm_compute; reflexivity|].
  exact (proj1 (proj2 (proj2 (proj2
           (gpt_facts.extracted_json_is_in_bounds content H))))).
Defined.


(** *** The command: keys, calls and what is written *)

Lemma mock_never_fails translations :
  never_fails "French" (mockBatchTranslate "French" translations).
Proof. intros texts h. reflexivity. Qed.

Lemma summary_is_printed_witness :
  let source := english {[ "a" := "Hello"; "b" := "Goodbye" ]} in
  let order := [("a", "Hello"); ("b", "Goodbye")] in
  let blank : gmap string string := {[ "Goodbye" := "" ]} in
  ranges_over (LocaleItemsMap source) order
  /\ length_preserving "French" (mockBatchTranslate "French" blank)
  /\ never_fails "French" (mockBatchTranslate "French" blank)
  /\ (exists out,
        single_process (mockTranslate "French" blank) json_Unmarshal
          json_Marshal filepath_Base os_WriteFile JSON order source
          (french ∅) None "missing" tt = Some out
        /\ (selected_single order source (french ∅) None "missing" tt).*1
           = ["a"; "b"]
        /\ failedKeys (final out) = ["b"]
        /\ last (events (final out))
           = Some (Print (MsgDone "fr-FR.json" 2 2 1 1)))
  /\ (exists out,
        batch_process (mockBatchTranslate "French" blank) EqualFold
          filepath_Base os_WriteFile JSON order source (french ∅) None 2
          "missing" tt = Some out
        /\ (selected_batch EqualFold order source (french ∅) None "missing"
              tt).*1
           = ["a"; "b"]
        /\ failedKeys (final out) = ["b"]
        /\ last (events (final out))
           = Some (Print (MsgDone "fr-FR.json" 2 2 1 1))).
Proof.
  intros source order blank.
  assert (H : ranges_over (LocaleItemsMap source) order)
    by (vm_compute; reflexivity).
  split; [exact H|]. split; [apply mock_length_preserving|].
  split; [apply mock_never_fails|].
  destruct (cmd_facts.summary_is_printed (mockTranslate "French" blank)
              (mockBatchTranslate "French" blank) EqualFold json_Unmarshal
              json_Marshal filepath_Base os_WriteFile JSON
              order source (french ∅) None "missing" 2 tt H
              (mock_length_preserving blank))
    as [(out1 & Ho1 & _ & _ & _ & Hlast1) (out2 & Ho2 & _ & Hok)].
  destruct (Hok (mock_never_fails blank)) as (_ & _ & _ & Hlast2).
  split.
  - exists out1. split; [exact Ho1|]. split; [vm_compute; reflexivity|].
    vm_compute in Ho1. injection Ho1 as <-.
    split; [vm_compute; reflexivity|].
    etrans; [apply Hlast1; reflexivity|]. vm_compute. reflexivity.
  - exists out2. split; [exact Ho2|]. split; [vm_compute; reflexivity|].
    vm_compute in Ho2. injection Ho2 as <-.
    split; [vm_compute; reflexivity|].
    etrans; [apply Hlast2; reflexivity|]. vm_compute. reflexivity.
Defined.

Lemma findMissingKeys_is_difference_witness :
  let source : gmap string string := {[ "a" := "Hello"; "b" := "Goodbye" ]} in
  let target : gmap string string := {[ "a" := "Bonjour" ]} in
  let order := [("a", "Hello"); ("b", "Goodbye")] in
  ranges_over source order
  /\ findMissingKeys_loop order target = dom source ∖ dom target.
Proof.
  intros source target order.
  assert (H : ranges_over source order) by (vm_compute; reflexivity).
  split; [exact H|].
  exact (proj1 (cmd_facts.findMissingKeys_is_difference source target order H)).
Defined.

Lemma keys_after_a_call_witness :
  let source := english {[ "a" := "Hello"; "b" := "Goodbye" ]} in
  let target := french {[ "a" := "Bonjour"; "old" := "Vieux" ]} in
  let order := [("a", "Hello"); ("b", "Goodbye")] in
  length_preserving (Lang target) (mockBatchTranslate "French" ∅)
  /\ ranges_over (LocaleItemsMap source) order
  /\ exists out,
       single order source target None "missing" = Some out
       /\ dom (items (final out))
          = dom (LocaleItemsMap source) ∪ dom (LocaleItemsMap target).
Proof.
  intros source target order.
  assert (H : ranges_over (LocaleItemsMap source) order)
    by (vm_compute; reflexivity).
  split; [apply mock_length_preserving|]. split; [exact H|].
  destruct (cmd_facts.keys_after_a_call (mockTranslate "French" ∅)
              (mockBatchTranslate "French" ∅) EqualFold json_Unmarshal
              json_Marshal filepath_Base os_WriteFile JSON
              order source target None "missing" 2 tt
              (mock_length_preserving ∅) H)
    as [(out & Hout & Hdom & _) _].
  exists out. split; [exact Hout|exact Hdom].
Defined.

Lemma missing_mode_keeps_entries_witness :
  let source := english {[ "a" := "Hello"; "b" := "Goodbye" ]} in
  let target := french {[ "a" := "Salut" ]} in
  let order := [("a", "Hello"); ("b", "Goodbye")] in
  length_preserving (Lang target) (mockBatchTranslate "French" ∅)
  /\ LocaleItemsMap target !! "a" = Some "Salut"
  /\ exists out,
       batched order source target None 1 "missing" = Some out
       /\ items (final out) !! "a" = Some "Salut"
       /\ ("a" ∉ keys_called (events (final out))).
Proof.
  intros source target order.
  assert (H : LocaleItemsMap target !! "a" = Some "Salut") by reflexivity.
  split; [apply mock_length_preserving|]. split; [exact H|].
  exact (proj2 (cmd_facts.missing_mode_keeps_entries (mockTranslate "French" ∅)
                  (mockBatchTranslate "French" ∅) EqualFold json_Unmarshal
                  json_Marshal filepath_Base os_WriteFile JSON
                  order source target 1 tt "a" "Salut"
                  (mock_length_preserving ∅) H)).
Defined.

Lemma full_mode_keeps_translated_witness :
  let source := english {[ "a" := "Hello"; "b" := "Goodbye" ]} in
  let target := french {[ "a" := "Salut"; "b" := "!Goodbye" ]} in
  let order := [("a", "Hello"); ("b", "Goodbye")] in
  length_preserving (Lang target) (mockBatchTranslate "French" ∅)
  /\ ranges_over (LocaleItemsMap source) order
  /\ LocaleItemsMap target !! "a" = Some "Salut"
  /\ exists out,
       single order source target None "full" = Some out
       /\ items (final out) !! "a" = Some "Salut"
       /\ ("a" ∉ keys_called (events (final out))).
Proof.
  intros source target order.
  assert (H : ranges_over (LocaleItemsMap source) order)
    by (vm_compute; reflexivity).
  assert (Ht : LocaleItemsMap target !! "a" = Some (String "S" "alut"))
    by reflexivity.
  assert (Hc : "S"%char ≠ "!"%char) by discriminate.
  split; [apply mock_length_preserving|]. split; [exact H|].
  split; [exact Ht|].
  exact (proj1 (cmd_facts.full_mode_keeps_translated (mockTranslate "French" ∅)
                  (mockBatchTranslate "French" ∅) EqualFold json_Unmarshal
                  json_Marshal filepath_Base os_WriteFile JSON
                  order source target 1 tt "a" "S"%char "alut"
                  (mock_length_preserving ∅) H Ht Hc)).
Defined.

Lemma unknown_mode_translates_nothing_witness :
  let source := english {[ "a" := "Hello"; "b" := "Goodbye" ]} in
  let target := french {[ "a" := "" ]} in
  let order := [("a", "Hello"); ("b", "Goodbye")] in
  length_preserving (Lang target) (mockBatchTranslate "French" ∅)
  /\ ranges_over (LocaleItemsMap source) order
  /\ "fast" ≠ "full" /\ "fast" ≠ "missing"
  /\ exists out,
       single order source target None "fast" = Some out
       /\ keys_called (events (final out)) = [].
Proof.
  intros source target order.
  assert (H : ranges_over (LocaleItemsMap source) order)
    by (vm_compute; reflexivity).
  assert (H1 : "fast" ≠ "full") by discriminate.
  assert (H2 : "fast" ≠ "missing") by discriminate.
  split; [apply mock_length_preserving|]. split; [exact H|].
  split; [exact H1|]. split; [exact H2|].
  destruct (cmd_facts.unknown_mode_translates_nothing
              (mockTranslate "French" ∅)
              (mockBatchTranslate "French" ∅) EqualFold json_Unmarshal
              json_Marshal filepath_Base os_WriteFile JSON
              order source target 1 "fast" tt
              (mock_length_preserving ∅) H H1 H2)
    as [(out & Hout & Hc & _) _].
  exists out. split; [exact Hout|exact Hc].
Defined.

Lemma missing_key_is_sent_witness :
  let source := english {[ "a" := "Hello"; "b" := "Goodbye" ]} in
  let target := french {[ "a" := "Bonjour" ]} in
  let order := [("a", "Hello"); ("b", "Goodbye")] in
  length_preserving (Lang target) (mockBatchTranslate "French" ∅)
  /\ ranges_over (LocaleItemsMap source) order
  /\ LocaleItemsMap source !! "b" = Some "Goodbye"
  /\ LocaleItemsMap target !! "b" = None
  /\ exists out,
       batched order source target None 5 "missing" = Some out
       /\ "b" ∈ keys_called (events (final out)).
Proof.
  intros source target order.
  assert (H : ranges_over (LocaleItemsMap source) order)
    by (vm_compute; reflexivity).
  assert (Hs : LocaleItemsMap source !! "b" = Some "Goodbye") by reflexivity.
  assert (Ht : LocaleItemsMap target !! "b" = None) by reflexivity.
  assert (Hv : "Goodbye" ≠ "") by discriminate.
  split; [apply mock_length_preserving|]. split; [exact H|].
  split; [exact Hs|]. split; [exact Ht|].
  exact (proj2 (cmd_facts.missing_key_is_sent (mockTranslate "French" ∅)
                  (mockBatchTranslate "French" ∅) EqualFold json_Unmarshal
                  json_Marshal filepath_Base os_WriteFile JSON
                  order source target 5 "missing" tt "b" "Goodbye"
                  (mock_length_preserving ∅) H (or_intror eq_refl) Hs Hv Ht)).
Defined.

Lemma failed_key_keeps_its_entry_witness :
  let source := english {[ "a" := "Hello"; "b" := "Goodbye" ]} in
  let order := [("a", "Hello"); ("b", "Goodbye")] in
  ranges_over (LocaleItemsMap source) order
  /\ exists out,
       single_process (mockTranslate "German" ∅) json_Unmarshal json_Marshal
         filepath_Base os_WriteFile JSON order source (french ∅) None
         "missing" tt = Some out
       /\ NoDup (failedKeys (final out)).
Proof.
  intros source order.
  assert (H : ranges_over (LocaleItemsMap source) order)
    by (vm_compute; reflexivity).
  split; [exact H|].
  destruct (cmd_facts.failed_key_keeps_its_entry (mockTranslate "German" ∅)
              json_Unmarshal json_Marshal filepath_Base os_WriteFile JSON
              order source (french ∅) None "missing" tt H)
    as (out & Hout & Hnd & _).
  exists out. split; [exact Hout|exact Hnd].
Defined.

Lemma single_summary_adds_up_witness :
  let source := english {[ "a" := "Hello"; "b" := "Goodbye" ]} in
  let order := [("a", "Hello"); ("b", "Goodbye")] in
  ranges_over (LocaleItemsMap source) order
  /\ exists out,
       single order source (french ∅) None "missing" = Some out
       /\ (0 <= translatedCount (final out))%Z
       /\ (translatedCount (final out)
           + Z.of_nat (length (failedKeys (final out))) <= 2)%Z.
Proof.
  intros source order.
  assert (H : ranges_over (LocaleItemsMap source) order)
    by (vm_compute; reflexivity).
  split; [exact H|].
  exact (cmd_facts.single_summary_adds_up (mockTranslate "French" ∅)
           json_Unmarshal json_Marshal filepath_Base os_WriteFile JSON
           order source (french ∅) None "missing" tt H).
Defined.

Lemma batch_calls_pair_keys_and_texts_witness :
  let source := english {[ "a" := "Hello"; "b" := "Goodbye" ]} in
  let order := [("a", "Hello"); ("b", "Goodbye")] in
  length_preserving (Lang (french ∅)) (mockBatchTranslate "French" ∅)
  /\ ranges_over (LocaleItemsMap source) order
  /\ exists out,
       batched order source (french ∅) None 2 "missing" = Some out
       /\ forall key text lang,
            CallTranslate key text lang ∉ events (final out).
Proof.
  intros source order.
  assert (H : ranges_over (LocaleItemsMap source) order)
    by (vm_compute; reflexivity).
  split; [apply mock_length_preserving|]. split; [exact H|].
  destruct (cmd_facts.batch_calls_pair_keys_and_texts
              (mockBatchTranslate "French" ∅) EqualFold filepath_Base
              os_WriteFile JSON order source (french ∅) None 2 "missing" tt
              (mock_length_preserving ∅) H)
    as (out & Hout & Hno & _).
  exists out. split; [exact Hout|exact Hno].
Defined.

Lemma batch_size_is_respected_witness :
  let source := english {[ "a" := "Hello"; "b" := "Goodbye" ]} in
  let order := [("a", "Hello"); ("b", "Goodbye")] in
  length_preserving (Lang (french ∅)) (mockBatchTranslate "French" ∅)
  /\ never_fails (Lang (french ∅)) (mockBatchTranslate "French" ∅)
  /\ exists out,
       batched order source (french ∅) None 1 "missing" = Some out
       /\ batch (final out) = [].
Proof.
  intros source order.
  split; [apply mock_length_preserving|]. split; [apply mock_never_fails|].
  destruct (cmd_facts.batch_size_is_respected
              (mockBatchTranslate "French" ∅) EqualFold filepath_Base
              os_WriteFile JSON order source (french ∅) None 1 "missing" tt
              (mock_length_preserving ∅) (mock_never_fails ∅))
    as (out & Hout & Hb & _).
  exists out. split; [exact Hout|exact Hb].
Defined.

Lemma what_is_written_witness :
  let source := english {[ "a" := "Hello"; "b" := "Goodbye" ]} in
  let order := [("a", "Hello"); ("b", "Goodbye")] in
  length_preserving (Lang (french ∅)) (mockBatchTranslate "French" ∅)
  /\ exists out,
       single order source (french ∅) None "missing" = Some out
       /\ forall buf,
            JSON (written (french ∅) (items (final out))) = (buf, None) ->
            WriteFile "fr-FR.json" buf ∈ events (final out).
Proof.
  intros source order.
  split; [apply mock_length_preserving|].
  destruct (cmd_facts.what_is_written (mockTranslate "French" ∅)
              (mockBatchTranslate "French" ∅) EqualFold json_Unmarshal
              json_Marshal filepath_Base os_WriteFile JSON
              order source (french ∅) None "missing" 2 tt
              (mock_length_preserving ∅))
    as [(out & Hout & Hw & _) _].
  exists out. split; [exact Hout|exact Hw].
Defined.


(** *** The counters and the configuration *)

Lemma status_agrees_with_sync_witness :
  let source : gmap string string :=
    {[ "a" := "Hello"; "b" := "Goodbye"; "c" := "Yes" ]} in
  let target : gmap string string := {[ "a" := "Bonjour"; "b" := "" ]} in
  let source_order := [("c", "Yes"); ("a", "Hello"); ("b", "Goodbye")] in
  let target_order := [("a", "Bonjour"); ("b", "")] in
  ranges_over source source_order
  /\ ranges_over target target_order
  /\ sync.Translated (sync.file_stats target_order source target)
     = sync.countTranslatedKeys source target.
Proof.
  intros source target source_order target_order.
  assert (Hs : ranges_over source source_order) by (vm_compute; reflexivity).
  assert (Ht : ranges_over target target_order) by (vm_compute; reflexivity).
  split; [exact Hs|]. split; [exact Ht|].
  exact (proj1 (proj2 (sync_facts.status_agrees_with_sync source target
                         source_order target_order Hs Ht))).
Defined.

Lemma mem_written_file_reads :
  forall (fs : gmap string string) path data fs',
    memWriteFile fs path data = (fs', None) ->
    os.IsNotExist (memStat fs' path) = false
    /\ memReadFile fs' path = (data, None).
Proof.
  intros fs path data fs' [= <-]. unfold memStat, memReadFile.
  by rewrite lookup_insert_eq.
Qed.

Lemma saved_config_loads_back_witness :
  let fs : gmap string string := ∅ in
  (forall data,
     config_MarshalIndent config.DefaultConfig = (data, None) ->
     config_Unmarshal data = (config.DefaultConfig, None))
  /\ memStat fs "i18n.json" ≠ os.StatOk
  /\ config.LoadConfig (gmap string string) memStat memReadFile config_Unmarshal
       (config.CreateDefaultConfig (gmap string string) memStat memWriteFile
          config_MarshalIndent fs "i18n.json").1 "i18n.json"
     = (Some config.DefaultConfig, None).
Proof.
  intros fs.
  assert (Hd : forall data,
             config_MarshalIndent config.DefaultConfig = (data, None) ->
             config_Unmarshal data = (config.DefaultConfig, None))
    by (intros data [= <-]; reflexivity).
  assert (Hs : memStat fs "i18n.json" ≠ os.StatOk) by discriminate.
  split; [exact Hd|]. split; [exact Hs|].
  apply (proj2 (proj2 (config_facts.saved_config_loads_back
                         (gmap string string) memStat memReadFile memWriteFile
                         config_Unmarshal config_MarshalIndent
                         mem_written_file_reads fs "i18n.json"
                         config.DefaultConfig Hd Hd)));
    [exact Hs|reflexivity].
Defined.


Lemma calls_precede_writes_witness :
  let source := english {[ "a" := "Hello"; "b" := "Goodbye" ]} in
  let order := [("a", "Hello"); ("b", "Goodbye")] in
  length_preserving (Lang (french ∅)) (mockBatchTranslate "French" ∅)
  /\ exists out pre post,
       batched order source (french ∅) None 1 "missing" = Some out
       /\ events (final out) = pre ++ post
       /\ Forall (fun e => is_write e = false) pre
       /\ Forall (fun e => is_call e = false) post.
Proof.
  intros source order.
  split; [apply mock_length_preserving|].
  exact (proj2 (cmd_facts.calls_precede_writes (mockTranslate "French" ∅)
                  (mockBatchTranslate "French" ∅) EqualFold json_Unmarshal
                  json_Marshal filepath_Base os_WriteFile JSON
                  order source (french ∅) None "missing" 1 tt
                  (mock_length_preserving ∅))).
Defined.


End instances.
